(** * Colour-scale bookkeeping of [generate_heatmap_fig]
    (src/utils/image_utils.py)

    The function lays several tensors out side by side.  A first loop
    inspects every tensor (rank after squeezing, width ratio, data range,
    running global maximum) and may append to the list bound to [minmax];
    a second loop walks [zip(imgs, minmax, centers)] and issues the drawing
    calls.  The development embeds both loops as a state-and-exception
    computation over a world made of the [minmax] list object and the trace
    of calls issued to the plotting libraries.

    Numbers.  Array entries and ranges are values of [fnum]: a rational, one
    of the two infinities, or NaN.  Only comparisons, minima, maxima and the
    clip at zero are performed on them by the code, never arithmetic, so a
    finite float is represented by the rational it denotes (-0.0 and 0.0 are
    the same value here). *)

From Stdlib Require Import Ascii String.
From Stdlib Require Import List Bool Arith ZArith QArith Lia.
From Stdlib Require DecimalString DecimalNat.
Import ListNotations.

Local Open Scope nat_scope.

(** ** Extended numbers with the comparison rules of IEEE floats *)

Inductive fnum : Type :=
| NaN
| NegInf
| Fin (q : Q)
| PosInf.

(** [a < b]; every comparison with NaN is false. *)
Definition fltb (a b : fnum) : bool :=
  match a, b with
  | NaN, _ | _, NaN => false
  | _, NegInf => false
  | NegInf, _ => true
  | PosInf, _ => false
  | Fin _, PosInf => true
  | Fin x, Fin y => match (x ?= y)%Q with Lt => true | _ => false end
  end.

(** [a <= b]; every comparison with NaN is false. *)
Definition fleb (a b : fnum) : bool :=
  match a, b with
  | NaN, _ | _, NaN => false
  | NegInf, _ => true
  | _, PosInf => true
  | _, NegInf => false
  | PosInf, _ => false
  | Fin x, Fin y => match (x ?= y)%Q with Gt => false | _ => true end
  end.

Definition is_nan (a : fnum) : bool :=
  match a with NaN => true | _ => false end.

Definition is_finite (a : fnum) : bool :=
  match a with Fin _ => true | _ => false end.

Definition fzero : fnum := Fin 0.

(** ** numpy and Python primitives used on numbers *)

(** [np.minimum] / [np.maximum] on two scalars: NaN wins. *)
Definition np_minimum (a b : fnum) : fnum :=
  if is_nan a then a else if is_nan b then b
  else if fltb b a then b else a.

Definition np_maximum (a b : fnum) : fnum :=
  if is_nan a then a else if is_nan b then b
  else if fltb a b then b else a.

(** [np.min(arr)] and [np.max(arr)] of a one-dimensional array; numpy raises
    ValueError on a zero-size array, rendered here as [None]. *)
Definition np_min (arr : list fnum) : option fnum :=
  match arr with
  | [] => None
  | x :: rest => Some (fold_left np_minimum rest x)
  end.

Definition np_max (arr : list fnum) : option fnum :=
  match arr with
  | [] => None
  | x :: rest => Some (fold_left np_maximum rest x)
  end.

(** [np.append(arr, v)] for a flat array and a scalar. *)
Definition np_append (arr : list fnum) (v : fnum) : list fnum := arr ++ [v].

(** [np.clip(v, 0, None)]: only the lower bound is given. *)
Definition np_clip_lo (v lo : fnum) : fnum := np_maximum v lo.

(** The builtin [max(a, b)] keeps its first argument unless the second
    compares strictly greater. *)
Definition py_max (a b : fnum) : fnum := if fltb a b then b else a.

(** [np.sum] over a Python list of numbers and [k * list] (repetition). *)
Definition np_sum (l : list Q) : Q := fold_left Qplus l 0%Q.

Definition list_times {A : Type} (k : nat) (l : list A) : list A :=
  List.concat (repeat l k).

(** ** Tensors *)

Record tensor : Type := mkTensor {
  shape : list nat;
  data : list fnum          (* entries in row-major order *)
}.

Definition ndim (t : tensor) : nat := length (shape t).

(** [torch.squeeze] and [np.squeeze]: all axes of size one are dropped, the
    entries are untouched. *)
Definition squeeze (t : tensor) : tensor :=
  {| shape := filter (fun d => negb (d =? 1)) (shape t); data := data t |}.

(** [img.flatten()]. *)
Definition flatten (t : tensor) : list fnum := data t.

(** [np.moveaxis(img, 0, 2)] on a rank-3 array of shape (c, h, w): the
    result has shape (h, w, c) and entry (i, j, k) is the old (k, i, j). *)
Definition moveaxis_0_2 (t : tensor) : tensor :=
  match shape t with
  | [c; h; w] =>
      {| shape := [h; w; c];
         data := flat_map (fun i =>
                   flat_map (fun j =>
                     map (fun k => nth (k * (h * w) + i * w + j) (data t) NaN)
                         (seq 0 c))
                     (seq 0 w))
                   (seq 0 h) |}
  | _ => t
  end.

(** ** Exceptions, the world, and the monad of the function body *)

Inductive exn : Type :=
| Exception (msg : string)   (* raise Exception(...) of the first loop *)
| IndexError                 (* list index out of range *)
| TypeError                  (* subscripting a bare Axes object *)
| ValueError                 (* plt.subplots with no column *)
| TransformError             (* raised inside invTrans()(...) *)
| HeatmapError               (* raised inside sns.heatmap(...) *)
| ImshowError.               (* raised inside axs[idx].imshow(img) *)

Inductive cmap : Type := Coolwarm | Viridis.

Definition range : Type := (fnum * fnum)%type.

(** Arguments of one [sns.heatmap] call.  [h_cbar] is the entry of [kwargs]
    under "cbar" ([None] when the key is absent) and [h_cbar_kws] the
    (shrink, pad) pair stored under "cbar_kws". *)
Record heatmap_args : Type := mkHeatmap {
  h_img : tensor;
  h_center : option fnum;
  h_cmap : cmap;
  h_vmin : option fnum;
  h_vmax : option fnum;
  h_cbar : option bool;
  h_cbar_kws : option (Q * Q)
}.

(** Calls issued to matplotlib, seaborn and stdout, in program order. *)
Inductive event : Type :=
| EvSubplots (ncols : nat) (width : Q) (width_ratios : list Q)
| EvSetTitle (idx : nat) (label : string)
| EvHeatmap (idx : nat) (a : heatmap_args) (raised : bool)
| EvPrint (msg : string)
| EvImshow (idx : nat) (img : tensor) (raised : bool)
| EvSetAxisOff (idx : nat)
| EvTightLayout.

(** The list object bound to the parameter [minmax] and the calls issued so
    far.  Both survive an exception. *)
Record world : Type := mkWorld {
  w_minmax : list range;
  w_trace : list event
}.

Inductive outcome (A : Type) : Type :=
| Returned (a : A)
| Raised (e : exn).
Arguments Returned {A} a.
Arguments Raised {A} e.

Definition M (A : Type) : Type := world -> outcome A * world.

Definition ret {A : Type} (a : A) : M A := fun w => (Returned a, w).

Definition raise {A : Type} (e : exn) : M A := fun w => (Raised e, w).

Definition bind {A B : Type} (m : M A) (k : A -> M B) : M B :=
  fun w =>
    match m w with
    | (Returned a, w') => k a w'
    | (Raised e, w') => (Raised e, w')
    end.

(** [try: m except: h] with a bare [except]. *)
Definition try_except {A : Type} (m : M A) (h : M A) : M A :=
  fun w =>
    match m w with
    | (Returned a, w') => (Returned a, w')
    | (Raised _, w') => h w'
    end.

Definition emit (e : event) : M unit :=
  fun w => (Returned tt, {| w_minmax := w_minmax w; w_trace := w_trace w ++ [e] |}).

(** [minmax.append(r)] mutates the list object in place. *)
Definition minmax_append (r : range) : M unit :=
  fun w => (Returned tt, {| w_minmax := w_minmax w ++ [r]; w_trace := w_trace w |}).

Definition read_minmax : M (list range) :=
  fun w => (Returned (w_minmax w), w).

(** [l[idx]] for a non-negative index. *)
Definition py_index {A : Type} (l : list A) (idx : nat) : M A :=
  match nth_error l idx with
  | Some x => ret x
  | None => raise IndexError
  end.

Declare Scope monad_scope.
Delimit Scope monad_scope with monad.
Notation "x <- m ;; k" := (bind m (fun x => k))
  (at level 61, m at next level, right associativity) : monad_scope.
Notation "m ;;; k" := (bind m (fun _ => k))
  (at level 61, right associativity) : monad_scope.
Local Open Scope monad_scope.

(** ** The function [generate_heatmap_fig] *)

(** Local variables carried by the first loop. *)
Record locals : Type := mkLocals {
  ratios : list Q;
  imgs : list tensor;
  g_vmax : fnum
}.

Definition np_min_m (arr : list fnum) : M fnum :=
  match np_min arr with Some v => ret v | None => raise ValueError end.

Definition np_max_m (arr : list fnum) : M fnum :=
  match np_max arr with Some v => ret v | None => raise ValueError end.

(** [fig, axs = plt.subplots(ncols=n, ...)]: matplotlib refuses a grid
    without columns; with the default [squeeze=True] it hands back a bare
    Axes for one column and an array of Axes for two or more. *)
Definition plt_subplots (ncols : nat) (width : Q) (rs : list Q) : M unit :=
  emit (EvSubplots ncols width rs) ;;;
  if ncols =? 0 then raise ValueError else ret tt.

(** [axs[idx]] *)
Definition axs_index (ncols idx : nat) : M unit :=
  if ncols =? 1 then raise TypeError
  else if idx <? ncols then ret tt else raise IndexError.

Definition zip3 {A B C : Type} (la : list A) (lb : list B) (lc : list C)
  : list (A * B * C) :=
  combine (combine la lb) lc.


(** ** The function [create_circular_mask] (lines 11-22)

    Sizes, centre and radius are integers.  [dist_from_center <= radius]
    compares a square root with the radius; over the reals this is
    [0 <= radius] and [dx^2 + dy^2 <= radius^2], which is how [dist_le]
    decides it. *)

Definition dist_le (dx dy radius : Z) : bool :=
  ((0 <=? radius) && (dx * dx + dy * dy <=? radius * radius))%Z.

(** [center = (int(w / 2), int(h / 2))] when no centre is given. *)
Definition mask_center (h w : nat) (center : option (Z * Z)) : Z * Z :=
  match center with
  | None => (Z.quot (Z.of_nat w) 2, Z.quot (Z.of_nat h) 2)
  | Some c => c
  end.

(** [radius = min(center[0], center[1], w - center[0], h - center[1])] when
    no radius is given. *)
Definition mask_radius (h w : nat) (center : Z * Z) (radius : option Z) : Z :=
  match radius with
  | None =>
      Z.min (Z.min (Z.min (fst center) (snd center))
                   (Z.of_nat w - fst center))
            (Z.of_nat h - snd center)
  | Some r => r
  end.

(** Rows are indexed by [Y = 0..h-1], columns by [X = 0..w-1]; the result is
    [torch.tensor(mask) == False], true outside the disc. *)
Definition create_circular_mask (h w : nat) (center : option (Z * Z))
    (radius : option Z) : list (list bool) :=
  let c := mask_center h w center in
  let r := mask_radius h w c radius in
  map (fun y =>
         map (fun x =>
                negb (dist_le (Z.of_nat x - fst c) (Z.of_nat y - snd c) r))
             (seq 0 w))
      (seq 0 h).

(** Entry (y, x) of a two-dimensional boolean array. *)
Definition mask_at (m : list (list bool)) (y x : nat) : option bool :=
  match nth_error m y with
  | Some row => nth_error row x
  | None => None
  end.

(** ** The function [lin_interp] (lines 25-33)

    [interpolator ij d] stands for [LinearNDInterpolator(ij, d,
    fill_value=0)]: [None] when the construction raises, otherwise the
    interpolant, evaluated at the points of an integer grid. *)

Inductive interp_result : Type :=
| Dense (t : tensor)
| InterpolatorError          (* raised by LinearNDInterpolator *)
| ReshapeError.              (* ValueError of [reshape] *)

Definition np_arange (n : nat) : list nat := seq 0 n.

(** [np.meshgrid(xs, ys)] with the default 'xy' indexing: two arrays of
    [len(ys)] rows and [len(xs)] columns. *)
Definition np_meshgrid (xs ys : list nat) : list (list nat) * list (list nat) :=
  (map (fun _ => xs) ys, map (fun y => map (fun _ => y) xs) ys).

Definition flatten2 {A : Type} (m : list (list A)) : list A := List.concat m.

(** [np.vstack([a, b]).T]: one row (a[p], b[p]) per position. *)
Definition vstack_T (a b : list nat) : list (nat * nat) := combine a b.

(** [arr.reshape(shape)]: the product of the shape must be the size. *)
Definition np_reshape (arr : list fnum) (sh : list nat) : option tensor :=
  if fold_right Nat.mul 1 sh =? length arr
  then Some {| shape := sh; data := arr |}
  else None.

Definition lin_interp
    (interpolator : list (fnum * fnum) -> list fnum ->
                    option (nat * nat -> fnum))
    (shape3 : nat * nat * nat) (xyd : list (fnum * fnum * fnum))
  : interp_result :=
  let '(k, m, n) := shape3 in
  let ij := map (fun row => (snd (fst row), fst (fst row))) xyd in
  let d := map snd xyd in
  match interpolator ij d with
  | None => InterpolatorError
  | Some f =>
      let '(grid_j, grid_i) := np_meshgrid (np_arange n) (np_arange m) in
      let grid_ij := vstack_T (flatten2 grid_i) (flatten2 grid_j) in
      match np_reshape (map f grid_ij) [k; m; n] with
      | Some disparity => Dense disparity
      | None => ReshapeError
      end
  end.

(** ** The function [generate_final_imgs] (lines 125-222)

    Its first loop is the one of [generate_heatmap_fig], line for line.  The
    rest also writes files, so it gets a trace of its own: every call to
    matplotlib, seaborn, [os] and [print], in program order. *)

Record final_heatmap_args : Type := mkFinalHeatmap {
  fh_img : tensor;
  fh_center : option fnum;
  fh_cmap : cmap;
  fh_vmin : option fnum;
  fh_vmax : option fnum;
  fh_cbar : option bool;       (* [cbar=cbar_enabled], or the literal [None] *)
  fh_shrink : option Q         (* [cbar_kws={"shrink": shrink}], when passed *)
}.

Inductive fcall : Type :=
| CSubplots (ncols : nat) (width : Q) (width_ratios : list Q)
| CMakedirs (path : string)
| CSetTitle (idx : nat) (label : string)
| CHeatmap (idx : nat) (a : final_heatmap_args)   (* on [axs[idx]] *)
| CFigure2                                        (* [plt.figure(2)] *)
| CAxes                                           (* [plt.axes()] *)
| CHeatmap2 (a : final_heatmap_args)              (* on [fig2.axes[0]] *)
| CSavefig (path : string)
| CClose
| CPrint (msg : string)
| CImshow (idx : nat) (img : tensor)
| CSetAxisOff (idx : nat)
| CImshow2 (img : tensor)
| CSetAxisOff2
| CTightLayout.

Inductive fexn : Type :=
| Plain (e : exn)            (* an exception of the kinds met before *)
| UnboundLocalError          (* reading [cbar_enabled] before assignment *)
| CallFailed (c : fcall).    (* raised inside the call [c] *)

Inductive fout (A : Type) : Type :=
| FRet (a : A)
| FRaise (e : fexn).
Arguments FRet {A} a.
Arguments FRaise {A} e.

(** The calls issued so far and the local variable [cbar_enabled]
    ([None] while it is unbound). *)
Record fworld : Type := mkFWorld {
  f_trace : list fcall;
  f_cbar_enabled : option bool
}.

Definition FM (A : Type) : Type := fworld -> fout A * fworld.

Definition fret {A : Type} (a : A) : FM A := fun w => (FRet a, w).

Definition fraise {A : Type} (e : fexn) : FM A := fun w => (FRaise e, w).

Definition fbind {A B : Type} (m : FM A) (k : A -> FM B) : FM B :=
  fun w =>
    match m w with
    | (FRet a, w') => k a w'
    | (FRaise e, w') => (FRaise e, w')
    end.

Definition ftry {A : Type} (m : FM A) (h : FM A) : FM A :=
  fun w =>
    match m w with
    | (FRet a, w') => (FRet a, w')
    | (FRaise _, w') => h w'
    end.

Definition femit (c : fcall) : FM unit :=
  fun w =>
    (FRet tt, {| f_trace := f_trace w ++ [c];
                 f_cbar_enabled := f_cbar_enabled w |}).

Definition set_cbar_enabled (b : bool) : FM unit :=
  fun w => (FRet tt, {| f_trace := f_trace w; f_cbar_enabled := Some b |}).

(** Reading the local variable. *)
Definition get_cbar_enabled : FM bool :=
  fun w =>
    match f_cbar_enabled w with
    | Some b => (FRet b, w)
    | None => (FRaise UnboundLocalError, w)
    end.

Definition fpy_index {A : Type} (l : list A) (idx : nat) : FM A :=
  match nth_error l idx with
  | Some x => fret x
  | None => fraise (Plain IndexError)
  end.

Definition faxs_index (ncols idx : nat) : FM unit :=
  if ncols =? 1 then fraise (Plain TypeError)
  else if idx <? ncols then fret tt else fraise (Plain IndexError).

(** [str(idx)] and the paths built with [format]. *)
Definition py_str (n : nat) : string :=
  DecimalString.NilEmpty.string_of_uint (Nat.to_uint n).

Definition img_folder : string := "kitti".

Definition fig_folder (figname : string) : string :=
  ("../datasets/final_imgs/" ++ img_folder ++ "/" ++ figname)%string.

Definition panel_path (figname : string) (idx : nat) : string :=
  ("../datasets/final_imgs/" ++ img_folder ++ "/" ++ figname ++ "/"
     ++ py_str idx ++ ".png")%string.

Definition full_path (figname : string) : string :=
  ("../datasets/final_imgs/" ++ img_folder ++ "/" ++ figname ++ "/"
     ++ "full.png")%string.

(** [if figname:] *)
Definition truthy (s : string) : bool :=
  match s with EmptyString => false | _ => true end.

Notation "x <-- m ;; k" := (fbind m (fun x => k))
  (at level 61, m at next level, right associativity) : monad_scope.
Notation "m ;;;; k" := (fbind m (fun _ => k))
  (at level 61, right associativity) : monad_scope.
Section Composer.

(** The collaborators that the function only calls.
    [trans shape entries] is [invTrans()] applied to a squeezed rank-3
    tensor: it keeps the shape and may raise ([None]).  The two oracles
    say whether a drawing call raises. *)
Variable trans : list nat -> list fnum -> option (list fnum).
Variable heatmap_raises : nat -> heatmap_args -> bool.
Variable imshow_raises : nat -> tensor -> bool.

Definition apply_trans (t : tensor) : M tensor :=
  match trans (shape t) (data t) with
  | Some d => ret {| shape := shape t; data := d |}
  | None => raise TransformError
  end.

(** Body of [for idx, tensor_img in enumerate(img_tensors)]
    (lines 57-84). *)
Definition first_loop_body (centers : list (option fnum))
    (colorbars : option (list bool)) (calculate_minmax : bool)
    (idx : nat) (tensor_img : tensor) (loc : locals) : M locals :=
  let vmax := NegInf in
  let vmin := PosInf in
  let tensor_squeezed := squeeze tensor_img in
  r <- (if ndim tensor_squeezed =? 2 then
          let img := squeeze tensor_img in
          flag_off <- match colorbars with
                      | None => ret false
                      | Some cb => b <- py_index cb idx ;; ret (negb b)
                      end ;;
          let ratios' :=
            ratios loc ++ [if flag_off : bool then 1%Q else 1.25%Q] in
          c <- py_index centers idx ;;
          match c with
          | None =>
              vmin' <- np_min_m (np_append (flatten img) vmin) ;;
              vmax' <- np_max_m (np_append (flatten img) vmax) ;;
              ret (img, vmin', vmax', ratios', py_max vmax' (g_vmax loc))
          | Some _ => ret (img, vmin, vmax, ratios', g_vmax loc)
          end
        else if ndim tensor_squeezed =? 3 then
          tensor_squeezed' <- apply_trans tensor_squeezed ;;
          let ratios' := ratios loc ++ [1%Q] in
          let img := moveaxis_0_2 tensor_squeezed' in
          ret (img, vmin, vmax, ratios', g_vmax loc)
        else
          raise (Exception "Tried to plot image with dims!=2 && dims!=3")) ;;
  let '(img, vmin, vmax, ratios', g') := r in
  (if calculate_minmax then minmax_append (vmin, vmax) else ret tt) ;;;
  ret {| ratios := ratios'; imgs := imgs loc ++ [img]; g_vmax := g' |}.

Fixpoint first_loop (centers : list (option fnum))
    (colorbars : option (list bool)) (calculate_minmax : bool)
    (idx : nat) (ts : list tensor) (loc : locals) : M locals :=
  match ts with
  | [] => ret loc
  | t :: rest =>
      loc' <- first_loop_body centers colorbars calculate_minmax idx t loc ;;
      first_loop centers colorbars calculate_minmax (S idx) rest loc'
  end.

(** The colour scale chosen for a rank-2 image (lines 94-106). *)
Definition color_scale (align_scales : bool) (g : fnum) (minmax : range)
    (center : option fnum) : option fnum * option fnum * cmap :=
  match center with
  | Some _ => (None, None, Coolwarm)
  | None =>
      if align_scales then (Some fzero, Some g, Viridis)
      else
        let '(vmin, vmax) := minmax in
        (Some (np_clip_lo vmin fzero), Some (np_clip_lo vmax fzero), Viridis)
  end.

(** Body of [for idx, data in enumerate(zip(imgs, minmax, centers))]
    (lines 89-118). *)
Definition second_loop_body (ncols : nat) (labels : list string)
    (colorbars : option (list bool)) (align_scales : bool) (g : fnum)
    (idx : nat) (d : tensor * range * option fnum) : M unit :=
  let '(img, minmax, center) := d in
  axs_index ncols idx ;;;
  label <- py_index labels idx ;;
  emit (EvSetTitle idx label) ;;;
  if ndim img =? 2 then
    let shrink := 0.7%Q in
    let '(vmin, vmax, cm) := color_scale align_scales g minmax center in
    try_except
      (kw <- match colorbars with
             | None => ret (None, None)
             | Some cb =>
                 b <- py_index cb idx ;; ret (Some b, Some (shrink, 0.15%Q))
             end ;;
       let a := mkHeatmap img center cm vmin vmax (fst kw) (snd kw) in
       emit (EvHeatmap idx a (heatmap_raises idx a)) ;;;
       if heatmap_raises idx a then raise HeatmapError else ret tt)
      (emit (EvPrint "Could not plot, skipping"))
  else
    emit (EvImshow idx img (imshow_raises idx img)) ;;;
    (if imshow_raises idx img then raise ImshowError else ret tt) ;;;
    emit (EvSetAxisOff idx).

Fixpoint second_loop (ncols : nat) (labels : list string)
    (colorbars : option (list bool)) (align_scales : bool) (g : fnum)
    (idx : nat) (ds : list (tensor * range * option fnum)) : M unit :=
  match ds with
  | [] => ret tt
  | d :: rest =>
      second_loop_body ncols labels colorbars align_scales g idx d ;;;
      second_loop ncols labels colorbars align_scales g (S idx) rest
  end.

(** Arguments of a call other than [minmax]. *)
Record call_args : Type := mkArgs {
  img_tensors : list tensor;
  labels : list string;
  centers : option (list (option fnum));
  align_scales : bool;
  colorbars : option (list bool)
}.

Definition centers_or_default (a : call_args) : list (option fnum) :=
  match centers a with
  | None => repeat None (length (img_tensors a))
  | Some cs => cs
  end.

Definition initial_locals : locals :=
  {| ratios := []; imgs := []; g_vmax := fzero |}.

(** Lines 47-121, run on the list object bound to [minmax]. *)
Definition generate_heatmap_fig_body (a : call_args) : M unit :=
  minmax0 <- read_minmax ;;
  let calculate_minmax := length minmax0 =? 0 in
  let cs := centers_or_default a in
  loc <- first_loop cs (colorbars a) calculate_minmax 0 (img_tensors a)
           initial_locals ;;
  let width := np_sum (list_times 5 (ratios loc)) in
  plt_subplots (length (ratios loc)) width (ratios loc) ;;;
  minmax <- read_minmax ;;
  second_loop (length (ratios loc)) (labels a) (colorbars a)
    (align_scales a) (g_vmax loc) 0 (zip3 (imgs loc) minmax cs) ;;;
  emit EvTightLayout.

(** The [minmax] parameter: left out by the caller, or a list object of
    the caller's. *)
Inductive minmax_arg : Type :=
| Omitted
| Passed (l : list range).

(** What outlives a call inside the interpreter: the list object created
    once for the default value [minmax=[]] of the signature. *)
Record heap : Type := mkHeap {
  default_minmax : list range
}.

Definition fresh_heap : heap := {| default_minmax := [] |}.

Record result : Type := mkResult {
  r_outcome : outcome unit;
  r_minmax : list range;     (* the list bound to [minmax], after the call *)
  r_trace : list event;
  r_heap : heap
}.

Definition generate_heatmap_fig (a : call_args) (mm : minmax_arg) (h : heap)
  : result :=
  let bound := match mm with Omitted => default_minmax h | Passed l => l end in
  let '(out, w) :=
    generate_heatmap_fig_body a {| w_minmax := bound; w_trace := [] |} in
  {| r_outcome := out;
     r_minmax := w_minmax w;
     r_trace := w_trace w;
     r_heap := match mm with
               | Omitted => {| default_minmax := w_minmax w |}
               | Passed _ => h
               end |}.


(** ** [generate_final_imgs]: the body *)

(** Whether a call to a library raises. *)
Variable fails : fcall -> bool.

(** Issue a call; it is recorded even when it raises. *)
Definition call (c : fcall) : FM unit :=
  femit c ;;;;
  if fails c then fraise (CallFailed c) else fret tt.

(** [plt.figure(2); plt.axes(); ...; plt.savefig(path); plt.close()] around
    the drawing [draw2] of one panel alone. *)
Definition save_panel (draw2 : FM unit) (path : string) : FM unit :=
  call CFigure2 ;;;;
  call CAxes ;;;;
  draw2 ;;;;
  call (CSavefig path) ;;;;
  call CClose.

(** Body of the second loop (lines 173-217). *)
Definition final_loop_body (ncols : nat) (lbls : list string)
    (cb : option (list bool)) (align : bool) (g : fnum)
    (savefigs : bool) (figname : string)
    (idx : nat) (d : tensor * range * option fnum) : FM unit :=
  let '(img, minmax, center) := d in
  faxs_index ncols idx ;;;;
  label <-- fpy_index lbls idx ;;
  call (CSetTitle idx label) ;;;;
  if ndim img =? 2 then
    let shrink := 0.7%Q in
    let '(vmin, vmax, cm) := color_scale align g minmax center in
    ftry
      ((match cb with
        | None => fret tt
        | Some l => b <-- fpy_index l idx ;; set_cbar_enabled b
        end) ;;;;
       cbar_enabled <-- get_cbar_enabled ;;
       call (CHeatmap idx
               (mkFinalHeatmap img center cm vmin vmax (Some cbar_enabled)
                  (Some shrink))) ;;;;
       if savefigs then
         save_panel
           (call (CHeatmap2
                    (mkFinalHeatmap img center cm vmin vmax None None)))
           (panel_path figname idx)
       else fret tt)
      (femit (CPrint "Could not plot, skipping"))
  else
    call (CImshow idx img) ;;;;
    call (CSetAxisOff idx) ;;;;
    if savefigs then
      save_panel (call (CImshow2 img) ;;;; call CSetAxisOff2)
        (panel_path figname idx)
    else fret tt.

Fixpoint final_loop (ncols : nat) (lbls : list string)
    (cb : option (list bool)) (align : bool) (g : fnum)
    (savefigs : bool) (figname : string)
    (idx : nat) (ds : list (tensor * range * option fnum)) : FM unit :=
  match ds with
  | [] => fret tt
  | d :: rest =>
      final_loop_body ncols lbls cb align g savefigs figname idx d ;;;;
      final_loop ncols lbls cb align g savefigs figname (S idx) rest
  end.

(** Lines 166-222, once the first loop has returned [loc] and left
    [minmax] in the list. *)
Definition final_rest (a : call_args) (savefigs : bool) (figname : string)
    (loc : locals) (minmax : list range) : FM unit :=
  let width := np_sum (list_times 5 (ratios loc)) in
  call (CSubplots (length (ratios loc)) width (ratios loc)) ;;;;
  (if length (ratios loc) =? 0 then fraise (Plain ValueError) else fret tt) ;;;;
  (if truthy figname then call (CMakedirs (fig_folder figname))
   else fret tt) ;;;;
  final_loop (length (ratios loc)) (labels a) (colorbars a) (align_scales a)
    (g_vmax loc) savefigs figname 0
    (zip3 (imgs loc) minmax (centers_or_default a)) ;;;;
  call CTightLayout ;;;;
  if truthy figname then call (CSavefig (full_path figname)) else fret tt.

(** The default list of this function's own signature. *)
Record final_heap : Type := mkFinalHeap {
  final_default_minmax : list range
}.

Record final_result : Type := mkFinalResult {
  fr_outcome : fout unit;
  fr_minmax : list range;
  fr_trace : list fcall;
  fr_heap : final_heap
}.

Definition final_bound (mm : minmax_arg) (h : final_heap) : list range :=
  match mm with Omitted => final_default_minmax h | Passed l => l end.

Definition generate_final_imgs (a : call_args) (savefigs : bool)
    (figname : string) (mm : minmax_arg) (h : final_heap) : final_result :=
  let bound := final_bound mm h in
  let calculate_minmax := length bound =? 0 in
  let '(out1, w1) :=
    first_loop (centers_or_default a) (colorbars a) calculate_minmax 0
      (img_tensors a) initial_locals {| w_minmax := bound; w_trace := [] |} in
  let '(out, tr) :=
    match out1 with
    | Raised e => (FRaise (Plain e), [])
    | Returned loc =>
        let '(out2, w2) :=
          final_rest a savefigs figname loc (w_minmax w1)
            {| f_trace := []; f_cbar_enabled := None |} in
        (out2, f_trace w2)
    end in
  {| fr_outcome := out;
     fr_minmax := w_minmax w1;
     fr_trace := tr;
     fr_heap := match mm with
                | Omitted => {| final_default_minmax := w_minmax w1 |}
                | Passed _ => h
                end |}.

(** ** What the two loops compute, in closed form

    The loops of the function are summarised by pure functions; the
    equations [first_loop_spec], [second_loop_spec] and
    [generate_heatmap_fig_spec] below prove that the summaries agree with
    the loops, and every later statement is about [generate_heatmap_fig]. *)

(** What one iteration of the first loop adds for a tensor that passes. *)
Record summary : Type := mkSummary {
  s_img : tensor;
  s_range : range;
  s_ratio : Q;
  s_tracked : bool          (* rank 2 and no centre: feeds [g_vmax] *)
}.

Definition summarise (cs : list (option fnum)) (cb : option (list bool))
    (idx : nat) (t : tensor) : outcome summary :=
  if ndim (squeeze t) =? 2 then
    match cb with
    | Some l =>
        match nth_error l idx with
        | None => Raised IndexError
        | Some b =>
            match nth_error cs idx with
            | None => Raised IndexError
            | Some (Some _) =>
                Returned (mkSummary (squeeze t) (PosInf, NegInf)
                            (if negb b then 1%Q else 1.25%Q) false)
            | Some None =>
                match np_min (np_append (data t) PosInf),
                      np_max (np_append (data t) NegInf) with
                | Some lo, Some hi =>
                    Returned (mkSummary (squeeze t) (lo, hi)
                                (if negb b then 1%Q else 1.25%Q) true)
                | _, _ => Raised ValueError
                end
            end
        end
    | None =>
        match nth_error cs idx with
        | None => Raised IndexError
        | Some (Some _) =>
            Returned (mkSummary (squeeze t) (PosInf, NegInf) 1.25%Q false)
        | Some None =>
            match np_min (np_append (data t) PosInf),
                  np_max (np_append (data t) NegInf) with
            | Some lo, Some hi =>
                Returned (mkSummary (squeeze t) (lo, hi) 1.25%Q true)
            | _, _ => Raised ValueError
            end
        end
    end
  else if ndim (squeeze t) =? 3 then
    match trans (shape (squeeze t)) (data t) with
    | Some d =>
        Returned (mkSummary
                    (moveaxis_0_2 {| shape := shape (squeeze t); data := d |})
                    (PosInf, NegInf) 1%Q false)
    | None => Raised TransformError
    end
  else Raised (Exception "Tried to plot image with dims!=2 && dims!=3").

Definition push (loc : locals) (s : summary) : locals :=
  {| ratios := ratios loc ++ [s_ratio s];
     imgs := imgs loc ++ [s_img s];
     g_vmax := if s_tracked s then py_max (snd (s_range s)) (g_vmax loc)
               else g_vmax loc |}.

(** Summaries of the tensors that pass, and the exception that stops the
    first loop, if any. *)
Fixpoint summaries (cs : list (option fnum)) (cb : option (list bool))
    (idx : nat) (ts : list tensor) : list summary * option exn :=
  match ts with
  | [] => ([], None)
  | t :: rest =>
      match summarise cs cb idx t with
      | Raised e => ([], Some e)
      | Returned s =>
          (s :: fst (summaries cs cb (S idx) rest),
           snd (summaries cs cb (S idx) rest))
      end
  end.

Definition heatmap_call (align : bool) (g : fnum) (img : tensor)
    (mm : range) (center : option fnum) (flag : option bool) : heatmap_args :=
  let sc := color_scale align g mm center in
  mkHeatmap img center (snd sc) (fst (fst sc)) (snd (fst sc)) flag
    (match flag with Some _ => Some (0.7%Q, 0.15%Q) | None => None end).

(** Calls issued by one iteration of the second loop, and the exception
    that leaves it, if any. *)
Definition draw (ncols : nat) (lbls : list string) (cb : option (list bool))
    (align : bool) (g : fnum) (idx : nat)
    (d : tensor * range * option fnum) : list event * option exn :=
  let img := fst (fst d) in
  let mm := snd (fst d) in
  let center := snd d in
  if ncols =? 1 then ([], Some TypeError)
  else if negb (idx <? ncols) then ([], Some IndexError)
  else
    match nth_error lbls idx with
    | None => ([], Some IndexError)
    | Some label =>
        if ndim img =? 2 then
          match cb with
          | None =>
              let a := heatmap_call align g img mm center None in
              (EvSetTitle idx label :: EvHeatmap idx a (heatmap_raises idx a)
                 :: (if heatmap_raises idx a
                     then [EvPrint "Could not plot, skipping"] else []),
               None)
          | Some l =>
              match nth_error l idx with
              | None =>
                  ([EvSetTitle idx label; EvPrint "Could not plot, skipping"],
                   None)
              | Some b =>
                  let a := heatmap_call align g img mm center (Some b) in
                  (EvSetTitle idx label
                     :: EvHeatmap idx a (heatmap_raises idx a)
                     :: (if heatmap_raises idx a
                         then [EvPrint "Could not plot, skipping"] else []),
                   None)
              end
          end
        else if imshow_raises idx img then
          ([EvSetTitle idx label; EvImshow idx img true], Some ImshowError)
        else
          ([EvSetTitle idx label; EvImshow idx img false; EvSetAxisOff idx],
           None)
    end.

Fixpoint draws (ncols : nat) (lbls : list string) (cb : option (list bool))
    (align : bool) (g : fnum) (idx : nat)
    (ds : list (tensor * range * option fnum)) : list event * option exn :=
  match ds with
  | [] => ([], None)
  | d :: rest =>
      match snd (draw ncols lbls cb align g idx d) with
      | Some e => (fst (draw ncols lbls cb align g idx d), Some e)
      | None =>
          (fst (draw ncols lbls cb align g idx d)
             ++ fst (draws ncols lbls cb align g (S idx) rest),
           snd (draws ncols lbls cb align g (S idx) rest))
      end
  end.

(** The list bound to [minmax], once the first loop is over. *)
Definition minmax_after (bound : list range) (ss : list summary) : list range :=
  if length bound =? 0 then bound ++ map s_range ss else bound.

(** The value of [g_vmax] once the first loop is over. *)
Definition g_of (ss : list summary) : fnum :=
  g_vmax (fold_left push ss initial_locals).


(** Outcome and trace of a whole call whose [minmax] is bound to a list
    holding [bound] on entry. *)
Definition closed_form (a : call_args) (bound : list range)
  : outcome unit * list event :=
  let cs := centers_or_default a in
  let ss := fst (summaries cs (colorbars a) 0 (img_tensors a)) in
  match snd (summaries cs (colorbars a) 0 (img_tensors a)) with
  | Some e => (Raised e, [])
  | None =>
      let loc := fold_left push ss initial_locals in
      let sub := EvSubplots (length (ratios loc))
                   (np_sum (list_times 5 (ratios loc))) (ratios loc) in
      if length (ratios loc) =? 0 then (Raised ValueError, [sub])
      else
        let dr := draws (length (ratios loc)) (labels a) (colorbars a)
                    (align_scales a) (g_vmax loc) 0
                    (zip3 (imgs loc) (minmax_after bound ss) cs) in
        match snd dr with
        | Some e => (Raised e, sub :: fst dr)
        | None => (Returned tt, sub :: fst dr ++ [EvTightLayout])
        end
  end.

(** The list that [minmax] is bound to on entry. *)
Definition bound_list (mm : minmax_arg) (h : heap) : list range :=
  match mm with Omitted => default_minmax h | Passed l => l end.
(** ** Vocabulary of the statements *)

Definition fle (a b : fnum) : Prop := fleb a b = true.

Definition nan_free (l : list fnum) : Prop :=
  Forall (fun x => is_nan x = false) l.


(** A non-centred scalar panel of the call: rank 2 after squeezing and no
    centre at its index. *)
Definition tracked_panel (a : call_args) (j : nat) (t : tensor) : Prop :=
  nth_error (img_tensors a) j = Some t /\ ndim (squeeze t) = 2 /\
  nth_error (centers_or_default a) j = Some None.

(** The colorbar flag of a panel, absent when the caller gives no flags. *)
Definition show_colorbar (a : call_args) (idx : nat) : option bool :=
  match colorbars a with None => None | Some l => nth_error l idx end.

(** No NaN among the entries of the non-centred scalar panels. *)
Definition tracked_nan_free (a : call_args) : Prop :=
  forall j t, tracked_panel a j t -> nan_free (data t).

(** The message of the exception raised for a tensor of unsupported rank. *)
Definition rank_message : string :=
  "Tried to plot image with dims!=2 && dims!=3".

(** The per-panel lists given by the caller reach every panel, and the
    de-normalisation of the colour panels does not raise. *)
Definition metadata_covers (a : call_args) : Prop :=
  (forall idx, idx < length (img_tensors a) ->
     nth_error (centers_or_default a) idx <> None) /\
  (forall l, colorbars a = Some l -> length (img_tensors a) <= length l).

Definition trans_succeeds (a : call_args) : Prop :=
  forall idx t, nth_error (img_tensors a) idx = Some t ->
    ndim (squeeze t) = 3 -> trans (shape (squeeze t)) (data t) <> None.

(** Indices of the panels that received a title, in order. *)
Definition titled (tr : list event) : list nat :=
  flat_map (fun e => match e with EvSetTitle i _ => [i] | _ => [] end) tr.

(** The (index, vmin, vmax) triples of the heatmap calls, in order. *)
Definition assignments (tr : list event)
  : list (nat * option fnum * option fnum) :=
  flat_map (fun e => match e with
                     | EvHeatmap i ha _ => [(i, h_vmin ha, h_vmax ha)]
                     | _ => []
                     end) tr.

(** A trace with the outcome of the heatmap calls and the log lines
    forgotten. *)
Definition erase_failures (tr : list event) : list event :=
  flat_map (fun e => match e with
                     | EvHeatmap i ha _ => [EvHeatmap i ha false]
                     | EvPrint _ => []
                     | _ => [e]
                     end) tr.

(** Every heatmap call that raised is directly followed by a log line. *)
Fixpoint logged (tr : list event) : bool :=
  match tr with
  | [] => true
  | EvHeatmap _ _ true :: rest =>
      match rest with
      | EvPrint _ :: _ => logged rest
      | _ => false
      end
  | _ :: rest => logged rest
  end.

(** A call whose panels, labels and per-panel lists fit together. *)
Definition well_formed_call (a : call_args) : Prop :=
  2 <= length (img_tensors a) /\
  (forall idx t, nth_error (img_tensors a) idx = Some t ->
     ndim (squeeze t) = 2 \/ ndim (squeeze t) = 3) /\
  length (img_tensors a) <= length (labels a) /\
  metadata_covers a /\ trans_succeeds a.

(** ** Concrete collaborators and inputs used in the examples *)

Definition trans_id (sh : list nat) (d : list fnum) : option (list fnum) :=
  Some d.

Definition never_raises {A : Type} (idx : nat) (x : A) : bool := false.

(** [imshow] raises on the panel of index 0 only. *)
Definition imshow_fails_at_0 (idx : nat) (img : tensor) : bool := idx =? 0.

(** [heatmap] raises on the panel of index 1 only. *)
Definition heatmap_fails_at_1 (idx : nat) (a : heatmap_args) : bool :=
  idx =? 1.

Definition fz (z : Z) : fnum := Fin (inject_Z z).

(** A 1 x 2 x 2 tensor, of rank 2 once squeezed. *)
Definition scalar_2x2 (e0 e1 e2 e3 : Z) : tensor :=
  {| shape := [1; 2; 2]; data := [fz e0; fz e1; fz e2; fz e3] |}.

(** A colour tensor of shape (3, 2, 2). *)
Definition colour_3x2x2 : tensor :=
  {| shape := [3; 2; 2];
     data := map fz [1; 2; 3; 4; 5; 6; 7; 8; 9; 10; 11; 12]%Z |}.

(** A tensor of rank 4 after squeezing. *)
Definition rank4 : tensor :=
  {| shape := [2; 2; 2; 2]; data := repeat (fz 0) 16 |}.

Definition two_labels : list string := ["left"; "right"]%string.

Definition args_of (ts : list tensor) (cs : option (list (option fnum)))
    (align : bool) (cb : option (list bool)) : call_args :=
  {| img_tensors := ts; labels := two_labels; centers := cs;
     align_scales := align; colorbars := cb |}.

Definition negative_panels : list tensor :=
  [scalar_2x2 (-3) (-1) (-2) (-1); scalar_2x2 (-4) (-2) (-3) (-2)].

Definition positive_panels : list tensor :=
  [scalar_2x2 1 2 3 4; scalar_2x2 5 6 7 8].

Definition other_panels : list tensor :=
  [scalar_2x2 10 20 30 40; scalar_2x2 50 60 70 80].

(** Heatmap calls expected in the examples. *)
Definition negative_call_0 : heatmap_args :=
  heatmap_call false fzero (squeeze (scalar_2x2 (-3) (-1) (-2) (-1)))
    (fz (-3), fz (-1)) None None.

Definition aligned_negative_call_0 : heatmap_args :=
  heatmap_call true fzero (squeeze (scalar_2x2 (-3) (-1) (-2) (-1)))
    (fz (-3), fz (-1)) None None.

Definition aligned_positive_call_0 : heatmap_args :=
  heatmap_call true (fz 8) (squeeze (scalar_2x2 1 2 3 4))
    (fz 1, fz 4) None None.

Definition centred_panels : list tensor :=
  [scalar_2x2 (-1) 0 1 0; scalar_2x2 1 2 3 4].

Definition centred_centers : option (list (option fnum)) :=
  Some [Some (fz 0); None].

Definition centred_call_0 (align : bool) : heatmap_args :=
  heatmap_call align (fz 4) (squeeze (scalar_2x2 (-1) 0 1 0))
    (PosInf, NegInf) (Some (fz 0)) None.

Definition short_ranges : list range := [(fz 0, fz 1)].

Definition short_ranges_call_0 : heatmap_args :=
  heatmap_call false (fz 8) (squeeze (scalar_2x2 1 2 3 4))
    (fz 0, fz 1) None None.

(** The ratio rule in the words of the specification: 1.25 if the panel
    requests a colorbar, else 1.0, and always 1.0 for a colour panel.  A
    panel requests a colorbar when its flag is present and true. *)
Definition spec_ratio (a : call_args) (idx : nat) (t : tensor) : Q :=
  if ndim (squeeze t) =? 3 then 1%Q
  else match show_colorbar a idx with
       | Some true => 1.25%Q
       | _ => 1%Q
       end.

Definition three_labels : list string := ["a"; "b"; "c"]%string.

Definition three_panels : list tensor :=
  [scalar_2x2 1 2 3 4; scalar_2x2 5 6 7 8; scalar_2x2 9 10 11 12].

Definition three_args : call_args :=
  {| img_tensors := three_panels; labels := three_labels; centers := None;
     align_scales := false; colorbars := None |}.

Definition three_call (t : tensor) (lo hi : Z) : heatmap_args :=
  heatmap_call false fzero (squeeze t) (fz lo, fz hi) None None.

Definition flagged_args : call_args :=
  args_of [scalar_2x2 1 2 3 4; scalar_2x2 5 6 7 8] None false
    (Some [false; true]).

Definition bad_rank_args : call_args :=
  args_of [scalar_2x2 1 2 3 4; rank4] None false None.

(** The default list after a run of calls that all leave [minmax] out. *)
Definition heap_after (calls : list call_args) (h : heap) : heap :=
  fold_left (fun h' a => r_heap (generate_heatmap_fig a Omitted h')) calls h.

(** Calls of [generate_final_imgs] that draw a heatmap, and calls that
    reach the file system or open the second figure. *)
Definition is_heatmap_call (c : fcall) : bool :=
  match c with CHeatmap _ _ | CHeatmap2 _ => true | _ => false end.

Definition is_export_call (c : fcall) : bool :=
  match c with
  | CMakedirs _ | CSavefig _ | CFigure2 | CAxes | CClose
  | CHeatmap2 _ | CImshow2 _ | CSetAxisOff2 => true
  | _ => false
  end.

(** An invariant of the world is kept by a computation. *)
Definition keeps {A : Type} (I : fworld -> Prop) (m : FM A) : Prop :=
  forall w, I w -> I (snd (m w)).
(** [cbar_enabled] is unbound and no heatmap call has been issued. *)
Definition unbound_and_no_heatmap (w : fworld) : Prop :=
  f_cbar_enabled w = None /\
  Forall (fun c => is_heatmap_call c = false) (f_trace w).


(** Every call issued so far satisfies [ok]. *)
Definition all_calls (ok : fcall -> bool) (w : fworld) : Prop :=
  Forall (fun c => ok c = true) (f_trace w).

(** The paths handed to [plt.savefig], in order. *)
Definition saved (tr : list fcall) : list string :=
  flat_map (fun c => match c with CSavefig p => [p] | _ => [] end) tr.

(** A computation returns from world [w], with a result and a final world
    that satisfy [post]. *)
Definition returns_with {A : Type} (m : FM A) (w : fworld)
    (post : A -> fworld -> Prop) : Prop :=
  exists x w', m w = (FRet x, w') /\ post x w'.

Definition record_call (c : fcall) (w : fworld) : fworld :=
  {| f_trace := f_trace w ++ [c]; f_cbar_enabled := f_cbar_enabled w |}.

(** Further inputs of the examples. *)
Definition grid_interpolator (ij : list (fnum * fnum)) (d : list fnum)
  : option (nat * nat -> fnum) :=
  Some (fun p => fz (Z.of_nat (10 * fst p + snd p))).

Definition never_fails (c : fcall) : bool := false.

Definition single_args : call_args :=
  {| img_tensors := [scalar_2x2 1 2 3 4]; labels := ["only"%string];
     centers := None; align_scales := false; colorbars := None |}.

Definition empty_final_heap : final_heap := {| final_default_minmax := [] |}.

Definition filled_heap : heap := {| default_minmax := [(fz 1, fz 4)] |}.

(** Three scalar panels with two labels only. *)
Definition three_label_short_args : call_args :=
  {| img_tensors := three_panels; labels := two_labels; centers := None;
     align_scales := false; colorbars := None |}.
(** * Properties *)

(** ** Order facts on [fnum] *)

Lemma fleb_Fin (x y : Q) : fleb (Fin x) (Fin y) = true <-> (x <= y)%Q.
Proof.
  simpl. rewrite Qle_alt.
  destruct (x ?= y)%Q; split; intros H; try reflexivity; try discriminate;
    try (intro K; discriminate).
  exfalso. apply H. reflexivity.
Qed.

Lemma fltb_Fin (x y : Q) : fltb (Fin x) (Fin y) = true <-> (x < y)%Q.
Proof.
  simpl. rewrite Qlt_alt.
  destruct (x ?= y)%Q; split; intros H; try reflexivity; discriminate.
Qed.

Lemma fleb_refl (a : fnum) : is_nan a = false -> fleb a a = true.
Proof.
  destruct a; simpl; intros H; try reflexivity; try discriminate.
  apply (proj2 (fleb_Fin q q)). apply Qle_refl.
Qed.

Lemma fleb_trans (a b c : fnum) :
  fleb a b = true -> fleb b c = true -> fleb a c = true.
Proof.
  destruct a, b, c; try (simpl; intros; reflexivity);
    try (simpl; intros; discriminate).
  rewrite !fleb_Fin. apply Qle_trans.
Qed.

Lemma fltb_fleb (a b : fnum) : fltb a b = true -> fleb a b = true.
Proof.
  destruct a, b; try (simpl; intros; reflexivity);
    try (simpl; intros; discriminate).
  rewrite fltb_Fin, fleb_Fin. apply Qlt_le_weak.
Qed.

Lemma not_fltb_fleb (a b : fnum) :
  is_nan a = false -> is_nan b = false -> fltb a b = false -> fleb b a = true.
Proof.
  destruct a, b; try (simpl; intros; reflexivity);
    try (simpl; intros; discriminate).
  intros _ _ H. apply fleb_Fin. apply Qnot_lt_le. intro K.
  apply fltb_Fin in K. congruence.
Qed.

Lemma fleb_not_nan_l (a b : fnum) : fleb a b = true -> is_nan a = false.
Proof. destruct a, b; simpl; intros; try reflexivity; discriminate. Qed.

Lemma fleb_not_nan_r (a b : fnum) : fleb a b = true -> is_nan b = false.
Proof. destruct a, b; simpl; intros; try reflexivity; discriminate. Qed.

(** ** Binary maximum and minimum away from NaN *)

Lemma np_maximum_cases (a b : fnum) :
  is_nan a = false -> is_nan b = false ->
  (np_maximum a b = a \/ np_maximum a b = b) /\
  fleb a (np_maximum a b) = true /\ fleb b (np_maximum a b) = true.
Proof.
  intros Ha Hb. unfold np_maximum. rewrite Ha, Hb.
  destruct (fltb a b) eqn:E.
  - repeat split; [now right | now apply fltb_fleb | now apply fleb_refl].
  - repeat split; [now left | now apply fleb_refl | now apply not_fltb_fleb].
Qed.

Lemma np_minimum_cases (a b : fnum) :
  is_nan a = false -> is_nan b = false ->
  (np_minimum a b = a \/ np_minimum a b = b) /\
  fleb (np_minimum a b) a = true /\ fleb (np_minimum a b) b = true.
Proof.
  intros Ha Hb. unfold np_minimum. rewrite Ha, Hb.
  destruct (fltb b a) eqn:E.
  - repeat split; [now right | now apply fltb_fleb | now apply fleb_refl].
  - repeat split; [now left | now apply fleb_refl | now apply not_fltb_fleb].
Qed.

Lemma py_max_cases (a b : fnum) :
  is_nan a = false -> is_nan b = false ->
  (py_max a b = a \/ py_max a b = b) /\
  fleb a (py_max a b) = true /\ fleb b (py_max a b) = true.
Proof.
  intros Ha Hb. unfold py_max.
  destruct (fltb a b) eqn:E.
  - repeat split; [now right | now apply fltb_fleb | now apply fleb_refl].
  - repeat split; [now left | now apply fleb_refl | now apply not_fltb_fleb].
Qed.

(** The clip at zero is monotone and lies above its argument. *)
Lemma np_clip_lo_mono (a b : fnum) :
  fleb a b = true -> fleb (np_clip_lo a fzero) (np_clip_lo b fzero) = true.
Proof.
  intros H.
  pose proof (fleb_not_nan_l _ _ H) as Ha.
  pose proof (fleb_not_nan_r _ _ H) as Hb.
  destruct (np_maximum_cases a fzero Ha eq_refl) as [[Ea | Ea] [La Za]];
  destruct (np_maximum_cases b fzero Hb eq_refl) as [[Eb | Eb] [Lb Zb]];
  unfold np_clip_lo.
  - rewrite Ea. apply (fleb_trans a b _ H Lb).
  - rewrite Ea. apply (fleb_trans a b _ H Lb).
  - rewrite Ea. exact Zb.
  - rewrite Ea, Eb. reflexivity.
Qed.

Lemma np_clip_lo_above (a : fnum) :
  is_nan a = false -> fleb a (np_clip_lo a fzero) = true.
Proof. intros H. apply (np_maximum_cases a fzero H eq_refl). Qed.

Lemma np_clip_lo_nonneg (a : fnum) :
  is_nan a = false -> fleb fzero (np_clip_lo a fzero) = true.
Proof. intros H. apply (np_maximum_cases a fzero H eq_refl). Qed.

Lemma np_clip_lo_id (a : fnum) :
  fleb fzero a = true -> np_clip_lo a fzero = a.
Proof.
  intros H. unfold np_clip_lo, np_maximum.
  rewrite (fleb_not_nan_r _ _ H). cbn [is_nan fzero].
  destruct (fltb a fzero) eqn:E; [| reflexivity].
  unfold fzero in *.
  destruct a; try discriminate.
  apply fltb_Fin in E. apply fleb_Fin in H.
  exfalso. exact (Qlt_not_le _ _ E H).
Qed.

(** ** Minimum and maximum of an array *)

Lemma fold_np_maximum_spec (rest : list fnum) (x : fnum) :
  nan_free (x :: rest) ->
  In (fold_left np_maximum rest x) (x :: rest) /\
  (forall y, In y (x :: rest) -> fleb y (fold_left np_maximum rest x) = true).
Proof.
  revert x. induction rest as [| z rest IH]; intros x Hn.
  - simpl. split; [now left |].
    intros y [<- | []]. apply fleb_refl. now inversion Hn.
  - inversion Hn as [| ? ? Hx Hr]; subst. inversion Hr as [| ? ? Hz Hr']; subst.
    destruct (np_maximum_cases x z Hx Hz) as [Hc [Lx Lz]].
    assert (Hm : is_nan (np_maximum x z) = false)
      by (destruct Hc as [-> | ->]; assumption).
    destruct (IH (np_maximum x z)) as [Hin Hub].
    { constructor; assumption. }
    simpl fold_left. split.
    + destruct Hin as [E | Hin].
      * rewrite <- E. destruct Hc as [-> | ->]; [now left | right; now left].
      * right; right; exact Hin.
    + intros y [<- | [<- | Hy]].
      * eapply fleb_trans; [exact Lx |]. apply Hub. now left.
      * eapply fleb_trans; [exact Lz |]. apply Hub. now left.
      * apply Hub. now right.
Qed.

Lemma fold_np_minimum_spec (rest : list fnum) (x : fnum) :
  nan_free (x :: rest) ->
  In (fold_left np_minimum rest x) (x :: rest) /\
  (forall y, In y (x :: rest) -> fleb (fold_left np_minimum rest x) y = true).
Proof.
  revert x. induction rest as [| z rest IH]; intros x Hn.
  - simpl. split; [now left |].
    intros y [<- | []]. apply fleb_refl. now inversion Hn.
  - inversion Hn as [| ? ? Hx Hr]; subst. inversion Hr as [| ? ? Hz Hr']; subst.
    destruct (np_minimum_cases x z Hx Hz) as [Hc [Lx Lz]].
    assert (Hm : is_nan (np_minimum x z) = false)
      by (destruct Hc as [-> | ->]; assumption).
    destruct (IH (np_minimum x z)) as [Hin Hlb].
    { constructor; assumption. }
    simpl fold_left. split.
    + destruct Hin as [E | Hin].
      * rewrite <- E. destruct Hc as [-> | ->]; [now left | right; now left].
      * right; right; exact Hin.
    + intros y [<- | [<- | Hy]].
      * eapply fleb_trans; [| exact Lx]. apply Hlb. now left.
      * eapply fleb_trans; [| exact Lz]. apply Hlb. now left.
      * apply Hlb. now right.
Qed.

(** [np.min] and [np.max] never see an empty array here: the sentinel is
    appended first. *)
Lemma np_min_append_some (d : list fnum) (v : fnum) :
  exists m, np_min (np_append d v) = Some m.
Proof. unfold np_append. destruct d; simpl; eexists; reflexivity. Qed.

Lemma np_max_append_some (d : list fnum) (v : fnum) :
  exists m, np_max (np_append d v) = Some m.
Proof. unfold np_append. destruct d; simpl; eexists; reflexivity. Qed.

Lemma np_max_append_spec (d : list fnum) (m : fnum) :
  nan_free d -> np_max (np_append d NegInf) = Some m ->
  In m (d ++ [NegInf]) /\ forall y, In y d -> fleb y m = true.
Proof.
  intros Hn H. unfold np_append in H.
  assert (Hn' : nan_free (d ++ [NegInf])).
  { apply Forall_app. split; [exact Hn | repeat constructor]. }
  destruct (d ++ [NegInf]) as [| x rest] eqn:E.
  - destruct d; discriminate.
  - simpl in H. injection H as <-.
    destruct (fold_np_maximum_spec rest x Hn') as [Hin Hub].
    split; [exact Hin |].
    intros y Hy. apply Hub. rewrite <- E. apply in_or_app. now left.
Qed.

Lemma np_min_append_spec (d : list fnum) (m : fnum) :
  nan_free d -> np_min (np_append d PosInf) = Some m ->
  In m (d ++ [PosInf]) /\ forall y, In y d -> fleb m y = true.
Proof.
  intros Hn H. unfold np_append in H.
  assert (Hn' : nan_free (d ++ [PosInf])).
  { apply Forall_app. split; [exact Hn | repeat constructor]. }
  destruct (d ++ [PosInf]) as [| x rest] eqn:E.
  - destruct d; discriminate.
  - simpl in H. injection H as <-.
    destruct (fold_np_minimum_spec rest x Hn') as [Hin Hlb].
    split; [exact Hin |].
    intros y Hy. apply Hlb. rewrite <- E. apply in_or_app. now left.
Qed.

(** ** The loops agree with their closed forms *)

Lemma first_loop_body_spec (cs : list (option fnum)) (cb : option (list bool))
    (calc : bool) (idx : nat) (t : tensor) (loc : locals) (w : world) :
  first_loop_body cs cb calc idx t loc w =
  match summarise cs cb idx t with
  | Raised e => (Raised e, w)
  | Returned s =>
      (Returned (push loc s),
       {| w_minmax := if calc then w_minmax w ++ [s_range s] else w_minmax w;
          w_trace := w_trace w |})
  end.
Proof.
  destruct w as [mm tr].
  unfold first_loop_body, summarise, bind, py_index, np_min_m, np_max_m,
    apply_trans, flatten, ret, raise.
  destruct (ndim (squeeze t) =? 2).
  - destruct cb as [l |].
    + destruct (nth_error l idx) as [b |]; [| reflexivity].
      destruct (nth_error cs idx) as [[c |] |]; try reflexivity.
      * destruct calc; reflexivity.
      * cbn [data squeeze].
        destruct (np_min (np_append (data t) PosInf)); [| reflexivity].
        destruct (np_max (np_append (data t) NegInf)); [| reflexivity].
        destruct calc; reflexivity.
    + destruct (nth_error cs idx) as [[c |] |]; try reflexivity.
      * destruct calc; reflexivity.
      * cbn [data squeeze].
        destruct (np_min (np_append (data t) PosInf)); [| reflexivity].
        destruct (np_max (np_append (data t) NegInf)); [| reflexivity].
        destruct calc; reflexivity.
  - destruct (ndim (squeeze t) =? 3); [| reflexivity].
    cbn [data squeeze shape].
    destruct (trans _ (data t)); [| reflexivity].
    destruct calc; reflexivity.
Qed.

Lemma first_loop_spec (cs : list (option fnum)) (cb : option (list bool))
    (calc : bool) (ts : list tensor) :
  forall (idx : nat) (loc : locals) (w : world),
  first_loop cs cb calc idx ts loc w =
  (match snd (summaries cs cb idx ts) with
   | None => Returned (fold_left push (fst (summaries cs cb idx ts)) loc)
   | Some e => Raised e
   end,
   {| w_minmax := if calc
                  then w_minmax w ++ map s_range (fst (summaries cs cb idx ts))
                  else w_minmax w;
      w_trace := w_trace w |}).
Proof.
  induction ts as [| t rest IH]; intros idx loc w.
  - destruct w as [mm tr]. cbn. rewrite app_nil_r.
    destruct calc; reflexivity.
  - cbn [first_loop summaries]. unfold bind at 1.
    rewrite first_loop_body_spec.
    destruct (summarise cs cb idx t) as [s | e].
    + rewrite IH. cbn [fst snd fold_left map w_minmax w_trace].
      destruct calc; [| reflexivity].
      rewrite <- app_assoc. reflexivity.
    + destruct w as [mm tr]. cbn. rewrite app_nil_r.
      destruct calc; reflexivity.
Qed.

Lemma second_loop_body_spec (ncols : nat) (lbls : list string)
    (cb : option (list bool)) (align : bool) (g : fnum) (idx : nat)
    (d : tensor * range * option fnum) (w : world) :
  second_loop_body ncols lbls cb align g idx d w =
  (match snd (draw ncols lbls cb align g idx d) with
   | None => Returned tt
   | Some e => Raised e
   end,
   {| w_minmax := w_minmax w;
      w_trace := w_trace w ++ fst (draw ncols lbls cb align g idx d) |}).
Proof.
  destruct w as [mm tr]. destruct d as [[img r] center].
  unfold second_loop_body, draw, axs_index, bind, py_index, try_except, emit,
    heatmap_call, ret, raise.
  cbn [fst snd w_minmax w_trace].
  destruct (ncols =? 1); [cbn; now rewrite app_nil_r |].
  destruct (idx <? ncols); cbn [negb]; [| cbn; now rewrite app_nil_r].
  destruct (nth_error lbls idx) as [label |]; [| cbn; now rewrite app_nil_r].
  cbn [fst snd w_minmax w_trace].
  destruct (ndim img =? 2).
  - destruct (color_scale align g r center) as [[vmin vmax] cm] eqn:Ecs.
    destruct cb as [l |].
    + destruct (nth_error l idx) as [b |];
        cbn [fst snd w_minmax w_trace].
      * destruct (heatmap_raises idx _);
          cbn [fst snd w_minmax w_trace]; rewrite <- !app_assoc; reflexivity.
      * rewrite <- !app_assoc; reflexivity.
    + cbn [fst snd w_minmax w_trace].
      destruct (heatmap_raises idx _);
        cbn [fst snd w_minmax w_trace]; rewrite <- !app_assoc; reflexivity.
  - destruct (imshow_raises idx img);
      cbn [fst snd w_minmax w_trace]; rewrite <- !app_assoc; reflexivity.
Qed.

Lemma second_loop_spec (ncols : nat) (lbls : list string)
    (cb : option (list bool)) (align : bool) (g : fnum)
    (ds : list (tensor * range * option fnum)) :
  forall (idx : nat) (w : world),
  second_loop ncols lbls cb align g idx ds w =
  (match snd (draws ncols lbls cb align g idx ds) with
   | None => Returned tt
   | Some e => Raised e
   end,
   {| w_minmax := w_minmax w;
      w_trace := w_trace w ++ fst (draws ncols lbls cb align g idx ds) |}).
Proof.
  induction ds as [| d rest IH]; intros idx w.
  - destruct w as [mm tr]. cbn. now rewrite app_nil_r.
  - cbn [second_loop draws]. unfold bind at 1.
    rewrite second_loop_body_spec.
    destruct (snd (draw ncols lbls cb align g idx d)) as [e |].
    + reflexivity.
    + rewrite IH. cbn [fst snd w_minmax w_trace].
      rewrite app_assoc. reflexivity.
Qed.

Lemma generate_heatmap_fig_spec (a : call_args) (mm : minmax_arg) (h : heap) :
  generate_heatmap_fig a mm h =
  {| r_outcome := fst (closed_form a (bound_list mm h));
     r_minmax :=
       minmax_after (bound_list mm h)
         (fst (summaries (centers_or_default a) (colorbars a) 0 (img_tensors a)));
     r_trace := snd (closed_form a (bound_list mm h));
     r_heap :=
       match mm with
       | Omitted =>
           {| default_minmax :=
                minmax_after (bound_list mm h)
                  (fst (summaries (centers_or_default a) (colorbars a) 0
                          (img_tensors a))) |}
       | Passed _ => h
       end |}.
Proof.
  unfold generate_heatmap_fig, generate_heatmap_fig_body, closed_form,
    minmax_after.
  fold (bound_list mm h). set (bound := bound_list mm h).
  unfold bind at 1. unfold read_minmax at 1. cbn [w_minmax w_trace].
  unfold bind at 1. rewrite first_loop_spec. cbn [w_minmax w_trace].
  destruct (snd (summaries (centers_or_default a) (colorbars a) 0
                   (img_tensors a))) as [e |].
  - cbn [fst snd]. destruct mm; reflexivity.
  - set (ss := fst (summaries (centers_or_default a) (colorbars a) 0
                      (img_tensors a))).
    set (loc := fold_left push ss initial_locals).
    unfold bind at 1. unfold plt_subplots, bind at 1, emit.
    cbn [w_minmax w_trace app].
    destruct (length (ratios loc) =? 0).
    + unfold raise. cbn [fst snd]. destruct mm; reflexivity.
    + unfold ret at 1. unfold bind at 1. unfold read_minmax.
      cbn [w_minmax w_trace].
      unfold bind at 1. rewrite second_loop_spec. cbn [w_minmax w_trace].
      destruct (snd (draws _ _ _ _ _ _ _)) as [e |].
      * cbn [fst snd app]. destruct mm; reflexivity.
      * unfold emit. cbn [fst snd app w_minmax w_trace].
        destruct mm; reflexivity.
Qed.

(** ** Facts on the summaries of the first loop *)

Lemma ratios_fold (ss : list summary) :
  forall loc, ratios (fold_left push ss loc) = ratios loc ++ map s_ratio ss.
Proof.
  induction ss as [| s ss IH]; intros loc; cbn.
  - now rewrite app_nil_r.
  - rewrite IH. cbn. now rewrite <- app_assoc.
Qed.

Lemma imgs_fold (ss : list summary) :
  forall loc, imgs (fold_left push ss loc) = imgs loc ++ map s_img ss.
Proof.
  induction ss as [| s ss IH]; intros loc; cbn.
  - now rewrite app_nil_r.
  - rewrite IH. cbn. now rewrite <- app_assoc.
Qed.

Lemma summaries_nth (cs : list (option fnum)) (cb : option (list bool))
    (ts : list tensor) :
  forall (idx i : nat) (s : summary),
  nth_error (fst (summaries cs cb idx ts)) i = Some s ->
  exists t, nth_error ts i = Some t /\ summarise cs cb (idx + i) t = Returned s.
Proof.
  induction ts as [| t rest IH]; intros idx i s H.
  - destruct i; discriminate.
  - cbn [summaries] in H.
    destruct (summarise cs cb idx t) as [s0 | e] eqn:E.
    + destruct i as [| i]; cbn in H.
      * injection H as <-. exists t. rewrite Nat.add_0_r. now split.
      * destruct (IH (S idx) i s H) as [t' [Ht Hs]].
        exists t'. split; [exact Ht |].
        now rewrite <- Nat.add_succ_comm.
    + destruct i; discriminate.
Qed.

Lemma summaries_length (cs : list (option fnum)) (cb : option (list bool))
    (ts : list tensor) :
  forall idx, snd (summaries cs cb idx ts) = None ->
  length (fst (summaries cs cb idx ts)) = length ts.
Proof.
  induction ts as [| t rest IH]; intros idx H; [reflexivity |].
  cbn [summaries] in *.
  destruct (summarise cs cb idx t); [| discriminate].
  cbn in *. now rewrite IH.
Qed.

Lemma summaries_length_le (cs : list (option fnum)) (cb : option (list bool))
    (ts : list tensor) :
  forall idx, length (fst (summaries cs cb idx ts)) <= length ts.
Proof.
  induction ts as [| t rest IH]; intros idx; [apply Nat.le_refl |].
  cbn [summaries].
  destruct (summarise cs cb idx t); cbn; [| lia].
  specialize (IH (S idx)). lia.
Qed.

Lemma ndim_moveaxis (sh : list nat) (d : list fnum) :
  length sh = 3 -> ndim (moveaxis_0_2 {| shape := sh; data := d |}) = 3.
Proof.
  intros H. destruct sh as [| c [| h0 [| w0 [| ? ?]]]]; try discriminate.
  reflexivity.
Qed.

(** A summary whose image has rank 2 comes from a rank-2 tensor, and its
    range is the sentinel pair or the extremes of the entries according to
    the centre. *)
Lemma summarise_scalar (cs : list (option fnum)) (cb : option (list bool))
    (idx : nat) (t : tensor) (s : summary) :
  summarise cs cb idx t = Returned s -> ndim (s_img s) = 2 ->
  ndim (squeeze t) = 2 /\ s_img s = squeeze t /\
  exists c, nth_error cs idx = Some c /\
    match c with
    | Some _ => s_tracked s = false /\ s_range s = (PosInf, NegInf)
    | None =>
        s_tracked s = true /\
        np_min (np_append (data t) PosInf) = Some (fst (s_range s)) /\
        np_max (np_append (data t) NegInf) = Some (snd (s_range s))
    end.
Proof.
  unfold summarise. intros H Hd.
  destruct (ndim (squeeze t) =? 2) eqn:E2.
  - apply Nat.eqb_eq in E2. split; [exact E2 |].
    destruct cb as [l |].
    + destruct (nth_error l idx) as [b |]; [| discriminate].
      destruct (nth_error cs idx) as [[c |] |]; [| | discriminate].
      * injection H as <-. cbn. split; [reflexivity |].
        exists (Some c). repeat split.
      * destruct (np_min _) as [lo |]; [| discriminate].
        destruct (np_max _) as [hi |]; [| discriminate].
        injection H as <-. cbn. split; [reflexivity |].
        exists None. repeat split.
    + destruct (nth_error cs idx) as [[c |] |]; [| | discriminate].
      * injection H as <-. cbn. split; [reflexivity |].
        exists (Some c). repeat split.
      * destruct (np_min _) as [lo |]; [| discriminate].
        destruct (np_max _) as [hi |]; [| discriminate].
        injection H as <-. cbn. split; [reflexivity |].
        exists None. repeat split.
  - destruct (ndim (squeeze t) =? 3) eqn:E3; [| discriminate].
    apply Nat.eqb_eq in E3.
    destruct (trans _ _) as [d |]; [| discriminate].
    injection H as <-. cbn [s_img] in Hd.
    rewrite ndim_moveaxis in Hd by exact E3. discriminate.
Qed.

(** ** Facts on the calls of the second loop *)

Lemma zip3_nth {A B C : Type} (la : list A) (lb : list B) (lc : list C)
    (i : nat) (x : A) (y : B) (z : C) :
  nth_error (zip3 la lb lc) i = Some (x, y, z) <->
  nth_error la i = Some x /\ nth_error lb i = Some y /\ nth_error lc i = Some z.
Proof.
  unfold zip3. revert la lb lc.
  induction i as [| i IH]; intros la lb lc.
  - destruct la, lb, lc; cbn; split; intros H;
      try discriminate; try (now destruct H as (H1 & H2 & H3)).
    + injection H as -> -> ->. auto.
    + destruct H as [H1 [H2 H3]]. congruence.
  - destruct la, lb, lc; cbn; split; intros H;
      try discriminate; try (now destruct H as (H1 & H2 & H3)).
    + now apply (IH la lb lc).
    + now apply (IH la lb lc).
Qed.

Lemma zip3_length {A B C : Type} (la : list A) (lb : list B) (lc : list C) :
  length (zip3 la lb lc) = Nat.min (Nat.min (length la) (length lb)) (length lc).
Proof. unfold zip3. now rewrite !length_combine. Qed.

(** Every heatmap call of the second loop is the call built by
    [heatmap_call] for the triple found at its index. *)
Lemma draws_heatmap_inv (ncols : nat) (lbls : list string)
    (cb : option (list bool)) (align : bool) (g : fnum)
    (ds : list (tensor * range * option fnum)) :
  forall (idx i : nat) (a : heatmap_args) (r : bool),
  In (EvHeatmap i a r) (fst (draws ncols lbls cb align g idx ds)) ->
  exists img mm c flag,
    idx <= i /\ nth_error ds (i - idx) = Some (img, mm, c) /\
    ndim img = 2 /\ a = heatmap_call align g img mm c flag /\
    r = heatmap_raises i a /\
    flag = match cb with None => None | Some l => nth_error l i end.
Proof.
  induction ds as [| d rest IH]; intros idx i a r H; [destruct H |].
  cbn [draws] in H.
  assert (Hd : In (EvHeatmap i a r) (fst (draw ncols lbls cb align g idx d)) \/
               In (EvHeatmap i a r)
                  (fst (draws ncols lbls cb align g (S idx) rest))).
  { destruct (snd (draw ncols lbls cb align g idx d)); cbn [fst] in H.
    - now left.
    - apply in_app_or in H. exact H. }
  clear H. destruct Hd as [H | H].
  - destruct d as [[img mm] c]. unfold draw in H. cbn [fst snd] in H.
    destruct (ncols =? 1); [destruct H |].
    destruct (negb (idx <? ncols)); [destruct H |].
    destruct (nth_error lbls idx) as [label |]; [| destruct H].
    destruct (ndim img =? 2) eqn:E2.
    + apply Nat.eqb_eq in E2.
      destruct cb as [l |].
      * destruct (nth_error l idx) as [b |] eqn:El; cbn [fst] in H.
        -- destruct H as [H | [H | H]]; try discriminate.
           ++ injection H as <- <- <-.
              exists img, mm, c, (Some b). rewrite Nat.sub_diag.
              repeat split; auto.
           ++ destruct (heatmap_raises idx _); [| destruct H].
              destruct H as [H | []]. discriminate.
        -- destruct H as [H | [H | []]]; discriminate.
      * cbn [fst] in H. destruct H as [H | [H | H]]; try discriminate.
        -- injection H as <- <- <-.
           exists img, mm, c, None. rewrite Nat.sub_diag.
           repeat split; auto.
        -- destruct (heatmap_raises idx _); [| destruct H].
           destruct H as [H | []]. discriminate.
    + destruct (imshow_raises idx img); cbn [fst] in H;
        repeat (destruct H as [H | H]; try discriminate); destruct H.
  - destruct (IH (S idx) i a r H) as [img [mm [c [flag [Hle [Hn Hrest]]]]]].
    exists img, mm, c, flag. split; [lia |]. split; [| exact Hrest].
    replace (i - idx) with (S (i - S idx)) by lia. exact Hn.
Qed.

(** ** Every heatmap call of a run, traced back to its panel *)

Lemma heatmap_event_inv (a : call_args) (mm : minmax_arg) (h : heap)
    (i : nat) (ha : heatmap_args) (r : bool) :
  In (EvHeatmap i ha r) (r_trace (generate_heatmap_fig a mm h)) ->
  let cs := centers_or_default a in
  let ss := fst (summaries cs (colorbars a) 0 (img_tensors a)) in
  snd (summaries cs (colorbars a) 0 (img_tensors a)) = None /\
  exists t s rng c,
    nth_error (img_tensors a) i = Some t /\
    nth_error ss i = Some s /\
    summarise cs (colorbars a) i t = Returned s /\
    ndim (squeeze t) = 2 /\ s_img s = squeeze t /\
    nth_error (minmax_after (bound_list mm h) ss) i = Some rng /\
    nth_error cs i = Some c /\
    ha = heatmap_call (align_scales a) (g_of ss) (squeeze t) rng c
           (show_colorbar a i).
Proof.
  intros H cs ss. rewrite generate_heatmap_fig_spec in H. cbn [r_trace] in H.
  unfold closed_form in H. fold cs in H. fold ss in H.
  destruct (snd (summaries cs (colorbars a) 0 (img_tensors a))) as [e |] eqn:Es;
    [destruct H |].
  split; [reflexivity |].
  set (loc := fold_left push ss initial_locals) in *.
  assert (Hin : In (EvHeatmap i ha r)
                  (fst (draws (length (ratios loc)) (labels a) (colorbars a)
                          (align_scales a) (g_vmax loc) 0
                          (zip3 (imgs loc) (minmax_after (bound_list mm h) ss)
                             cs)))).
  { destruct (length (ratios loc) =? 0); cbn [snd] in H.
    - destruct H as [H | []]. discriminate.
    - destruct (snd (draws _ _ _ _ _ _ _)); cbn [snd] in H.
      + destruct H as [H | H]; [discriminate | exact H].
      + destruct H as [H | H]; [discriminate |].
        apply in_app_or in H. destruct H as [H | [H | []]];
          [exact H | discriminate]. }
  clear H.
  apply draws_heatmap_inv in Hin.
  destruct Hin as [img [rng [c [flag [_ [Hn [Hd [Ha [_ Hf]]]]]]]]].
  rewrite Nat.sub_0_r in Hn. apply zip3_nth in Hn.
  destruct Hn as [Hi [Hr Hc]].
  unfold loc in Hi. rewrite imgs_fold in Hi. cbn [imgs initial_locals app] in Hi.
  rewrite nth_error_map in Hi.
  destruct (nth_error ss i) as [s |] eqn:Ess; [| discriminate].
  cbn in Hi. injection Hi as Hi.
  destruct (summaries_nth cs (colorbars a) (img_tensors a) 0 i s Ess)
    as [t [Ht Hs]].
  cbn [Nat.add] in Hs.
  assert (Hd' : ndim (s_img s) = 2) by (rewrite Hi; exact Hd).
  destruct (summarise_scalar _ _ _ _ _ Hs Hd') as [H2 [Himg _]].
  exists t, s, rng, c. repeat split; try assumption.
  rewrite Ha, <- Hi, Himg, Hf. reflexivity.
Qed.

(** ** The running maximum [g_vmax] *)

Lemma g_fold_spec (ss : list summary) :
  forall loc,
  is_nan (g_vmax loc) = false ->
  (forall s, In s ss -> s_tracked s = true -> is_nan (snd (s_range s)) = false) ->
  let g := g_vmax (fold_left push ss loc) in
  is_nan g = false /\ fleb (g_vmax loc) g = true /\
  (forall s, In s ss -> s_tracked s = true -> fleb (snd (s_range s)) g = true) /\
  (g = g_vmax loc \/
   exists s, In s ss /\ s_tracked s = true /\ g = snd (s_range s)).
Proof.
  induction ss as [| s ss IH]; intros loc Hg Hn.
  - cbn. split; [| split; [| split]];
      [exact Hg | now apply fleb_refl | | now left].
    intros s [].
  - cbn [fold_left].
    assert (Hstep : is_nan (g_vmax (push loc s)) = false /\
                    fleb (g_vmax loc) (g_vmax (push loc s)) = true /\
                    (s_tracked s = true ->
                     fleb (snd (s_range s)) (g_vmax (push loc s)) = true) /\
                    (g_vmax (push loc s) = g_vmax loc \/
                     (s_tracked s = true /\
                      g_vmax (push loc s) = snd (s_range s)))).
    { unfold push. cbn [g_vmax].
      destruct (s_tracked s) eqn:Et.
      - assert (Hs : is_nan (snd (s_range s)) = false)
          by (apply Hn; [now left | exact Et]).
        destruct (py_max_cases _ _ Hs Hg) as [Hc [L1 L2]].
        split; [| split; [| split]].
        + destruct Hc as [-> | ->]; assumption.
        + exact L2.
        + intros _. exact L1.
        + destruct Hc as [Hc | Hc]; [right | left]; auto.
      - split; [| split; [| split]];
          [exact Hg | now apply fleb_refl | discriminate | now left]. }
    destruct Hstep as [Hg' [Hle [Hs Hor]]].
    destruct (IH (push loc s) Hg') as [Hn' [Hle' [Hub Hat]]].
    { intros s' Hin. apply Hn. now right. }
    split; [| split; [| split]].
    + exact Hn'.
    + eapply fleb_trans; eassumption.
    + intros s' [<- | Hin] Ht.
      * eapply fleb_trans; [apply Hs; exact Ht | exact Hle'].
      * apply Hub; assumption.
    + destruct Hat as [Hat | [s' [Hin [Ht Hat]]]].
      * destruct Hor as [Hor | [Ht Hor]].
        -- left. now rewrite Hat.
        -- right. exists s. repeat split; [now left | exact Ht |].
           now rewrite Hat.
      * right. exists s'. repeat split; [now right | exact Ht | exact Hat].
Qed.

(** A tracked summary stores the extremes of its panel's entries. *)
Lemma summarise_tracked (cs : list (option fnum)) (cb : option (list bool))
    (idx : nat) (t : tensor) (s : summary) :
  summarise cs cb idx t = Returned s -> s_tracked s = true ->
  ndim (squeeze t) = 2 /\ nth_error cs idx = Some None /\
  np_min (np_append (data t) PosInf) = Some (fst (s_range s)) /\
  np_max (np_append (data t) NegInf) = Some (snd (s_range s)).
Proof.
  unfold summarise. intros H Ht.
  destruct (ndim (squeeze t) =? 2) eqn:E2.
  - apply Nat.eqb_eq in E2. split; [exact E2 |].
    destruct cb as [l |].
    + destruct (nth_error l idx) as [b |]; [| discriminate].
      destruct (nth_error cs idx) as [[c |] |]; [| | discriminate].
      * injection H as <-. discriminate.
      * destruct (np_min _) as [lo |]; [| discriminate].
        destruct (np_max _) as [hi |]; [| discriminate].
        injection H as <-. cbn. repeat split.
    + destruct (nth_error cs idx) as [[c |] |]; [| | discriminate].
      * injection H as <-. discriminate.
      * destruct (np_min _) as [lo |]; [| discriminate].
        destruct (np_max _) as [hi |]; [| discriminate].
        injection H as <-. cbn. repeat split.
  - destruct (ndim (squeeze t) =? 3); [| discriminate].
    destruct (trans _ _); [| discriminate].
    injection H as <-. discriminate.
Qed.

(** The first loop passes every tensor it summarises: a tracked panel of a
    run whose first loop completes has a tracked summary at its index. *)
Lemma summaries_total (cs : list (option fnum)) (cb : option (list bool))
    (ts : list tensor) :
  forall (idx i : nat) (t : tensor),
  snd (summaries cs cb idx ts) = None -> nth_error ts i = Some t ->
  exists s, nth_error (fst (summaries cs cb idx ts)) i = Some s /\
            summarise cs cb (idx + i) t = Returned s.
Proof.
  induction ts as [| t0 rest IH]; intros idx i t Hs Ht.
  - destruct i; discriminate.
  - cbn [summaries] in *.
    destruct (summarise cs cb idx t0) as [s0 | e] eqn:E; [| discriminate].
    cbn [fst snd] in *.
    destruct i as [| i]; cbn in Ht.
    + injection Ht as <-. exists s0. rewrite Nat.add_0_r. now split.
    + destruct (IH (S idx) i t Hs Ht) as [s [Hn Hsum]].
      exists s. split; [exact Hn |]. now rewrite <- Nat.add_succ_comm.
Qed.

(** Everything a successful iteration of the first loop records, by rank. *)
Lemma summarise_inv (cs : list (option fnum)) (cb : option (list bool))
    (idx : nat) (t : tensor) (s : summary) :
  summarise cs cb idx t = Returned s ->
  (ndim (squeeze t) = 2 /\ s_img s = squeeze t /\
   s_ratio s = match cb with
               | None => 1.25%Q
               | Some l => match nth_error l idx with
                           | Some false => 1%Q
                           | _ => 1.25%Q
                           end
               end /\
   exists c, nth_error cs idx = Some c /\
     match c with
     | Some _ => s_tracked s = false /\ s_range s = (PosInf, NegInf)
     | None =>
         s_tracked s = true /\
         np_min (np_append (data t) PosInf) = Some (fst (s_range s)) /\
         np_max (np_append (data t) NegInf) = Some (snd (s_range s))
     end) \/
  (ndim (squeeze t) = 3 /\ ndim (s_img s) = 3 /\ s_ratio s = 1%Q /\
   s_tracked s = false /\ s_range s = (PosInf, NegInf)).
Proof.
  unfold summarise. intros H.
  destruct (ndim (squeeze t) =? 2) eqn:E2.
  - apply Nat.eqb_eq in E2. left. split; [exact E2 |].
    destruct cb as [l |].
    + destruct (nth_error l idx) as [b |]; [| discriminate].
      destruct (nth_error cs idx) as [[c |] |]; [| | discriminate].
      * injection H as <-. cbn. repeat split; [now destruct b |].
        exists (Some c). repeat split.
      * destruct (np_min _) as [lo |]; [| discriminate].
        destruct (np_max _) as [hi |]; [| discriminate].
        injection H as <-. cbn. repeat split; [now destruct b |].
        exists None. repeat split.
    + destruct (nth_error cs idx) as [[c |] |]; [| | discriminate].
      * injection H as <-. cbn. repeat split.
        exists (Some c). repeat split.
      * destruct (np_min _) as [lo |]; [| discriminate].
        destruct (np_max _) as [hi |]; [| discriminate].
        injection H as <-. cbn. repeat split.
        exists None. repeat split.
  - destruct (ndim (squeeze t) =? 3) eqn:E3; [| discriminate].
    apply Nat.eqb_eq in E3. right.
    destruct (trans _ _) as [d |]; [| discriminate].
    injection H as <-. cbn. repeat split; [exact E3 |].
    now apply ndim_moveaxis.
Qed.

(** Extremes of a non-empty array of finite entries are finite entries of
    the array. *)
Lemma finite_nan_free (d : list fnum) :
  Forall (fun x => is_finite x = true) d -> nan_free d.
Proof.
  unfold nan_free. apply Forall_impl. intros x Hx. now destruct x.
Qed.

Lemma np_min_finite (d : list fnum) (m : fnum) :
  d <> [] -> Forall (fun x => is_finite x = true) d ->
  np_min (np_append d PosInf) = Some m ->
  is_finite m = true /\ In m d /\ forall x, In x d -> fleb m x = true.
Proof.
  intros Hne Hf Hm.
  destruct (np_min_append_spec d m (finite_nan_free d Hf) Hm) as [Hin Hlb].
  assert (Hd : In m d).
  { apply in_app_or in Hin. destruct Hin as [Hin | [<- | []]]; [exact Hin |].
    destruct d as [| x d']; [now elim Hne |].
    assert (Hx : is_finite x = true) by now inversion Hf.
    specialize (Hlb x (or_introl eq_refl)).
    destruct x; discriminate. }
  split; [| split; assumption].
  rewrite Forall_forall in Hf. now apply Hf.
Qed.

Lemma np_max_finite (d : list fnum) (m : fnum) :
  d <> [] -> Forall (fun x => is_finite x = true) d ->
  np_max (np_append d NegInf) = Some m ->
  is_finite m = true /\ In m d /\ forall x, In x d -> fleb x m = true.
Proof.
  intros Hne Hf Hm.
  destruct (np_max_append_spec d m (finite_nan_free d Hf) Hm) as [Hin Hub].
  assert (Hd : In m d).
  { apply in_app_or in Hin. destruct Hin as [Hin | [<- | []]]; [exact Hin |].
    destruct d as [| x d']; [now elim Hne |].
    assert (Hx : is_finite x = true) by now inversion Hf.
    specialize (Hub x (or_introl eq_refl)).
    destruct x; discriminate. }
  split; [| split; assumption].
  rewrite Forall_forall in Hf. now apply Hf.
Qed.

(** ** Centred panels *)

(** C7.  Every heatmap call issued for a scalar panel whose centre is set
    passes [vmin=None], [vmax=None] and the diverging colormap, whatever
    [align_scales], the ranges and the running maximum are. *)
Theorem centered_panel_scale (a : call_args) (mm : minmax_arg) (h : heap)
    (i : nat) (ha : heatmap_args) (r : bool) (c : fnum) :
  nth_error (centers_or_default a) i = Some (Some c) ->
  In (EvHeatmap i ha r) (r_trace (generate_heatmap_fig a mm h)) ->
  h_center ha = Some c /\ h_vmin ha = None /\ h_vmax ha = None /\
  h_cmap ha = Coolwarm.
Proof.
  intros Hc Hin.
  destruct (heatmap_event_inv a mm h i ha r Hin)
    as [_ [t [s [rng [c' [_ [_ [_ [_ [_ [_ [Hc' Ha]]]]]]]]]]]].
  rewrite Hc in Hc'. injection Hc' as <-.
  subst ha. unfold heatmap_call, color_scale. cbn. repeat split.
Qed.

(** ** The ranges recorded by the first loop *)

(** C10.  When the list bound to [minmax] is empty on entry, the entry
    recorded at an index is the sentinel pair (+inf, -inf) for a colour
    panel and for a centred scalar panel; for a non-centred scalar panel it
    is (np.min, np.max) of the entries, which for a non-empty array of
    finite entries are its finite least and greatest entries. *)
Theorem recorded_ranges (a : call_args) (mm : minmax_arg) (h : heap)
    (i : nat) (e : range) :
  bound_list mm h = [] ->
  nth_error (r_minmax (generate_heatmap_fig a mm h)) i = Some e ->
  exists t,
    nth_error (img_tensors a) i = Some t /\
    (ndim (squeeze t) = 2 \/ ndim (squeeze t) = 3) /\
    (ndim (squeeze t) = 3 -> e = (PosInf, NegInf)) /\
    (forall c, ndim (squeeze t) = 2 ->
       nth_error (centers_or_default a) i = Some (Some c) ->
       e = (PosInf, NegInf)) /\
    (ndim (squeeze t) = 2 ->
     nth_error (centers_or_default a) i = Some None ->
     np_min (np_append (data t) PosInf) = Some (fst e) /\
     np_max (np_append (data t) NegInf) = Some (snd e) /\
     (data t <> [] -> Forall (fun x => is_finite x = true) (data t) ->
      is_finite (fst e) = true /\ is_finite (snd e) = true /\
      In (fst e) (data t) /\ In (snd e) (data t) /\
      forall x, In x (data t) -> fle (fst e) x /\ fle x (snd e))).
Proof.
  intros Hb Hn. rewrite generate_heatmap_fig_spec in Hn. cbn [r_minmax] in Hn.
  rewrite Hb in Hn. unfold minmax_after in Hn. cbn in Hn.
  rewrite nth_error_map in Hn.
  destruct (nth_error (fst (summaries _ _ _ _)) i) as [s |] eqn:Es;
    [| discriminate].
  cbn in Hn. injection Hn as <-.
  destruct (summaries_nth _ _ _ 0 i s Es) as [t [Ht Hs]]. cbn [Nat.add] in Hs.
  exists t. split; [exact Ht |].
  destruct (summarise_inv _ _ _ _ _ Hs)
    as [[H2 [_ [_ [c [Hc Hcase]]]]] | [H3 [_ [_ [_ Hr]]]]].
  - split; [now left |]. split; [intros H3; congruence |]. split.
    + intros c' _ Hc'. rewrite Hc in Hc'. injection Hc' as ->.
      now destruct Hcase.
    + intros _ Hc'. rewrite Hc in Hc'. injection Hc' as ->.
      destruct Hcase as [_ [Hlo Hhi]].
      split; [exact Hlo |]. split; [exact Hhi |].
      intros Hne Hf.
      destruct (np_min_finite _ _ Hne Hf Hlo) as [F1 [I1 B1]].
      destruct (np_max_finite _ _ Hne Hf Hhi) as [F2 [I2 B2]].
      repeat split; try assumption; unfold fle; auto.
  - split; [now right |]. split; [intros _; exact Hr |]. split.
    + intros c' H2. congruence.
    + intros H2. congruence.
Qed.

(** ** Non-centred scalar panels and their summaries *)

Lemma tracked_summary_panel (a : call_args) (s : summary) :
  In s (fst (summaries (centers_or_default a) (colorbars a) 0 (img_tensors a))) ->
  s_tracked s = true ->
  exists j t, tracked_panel a j t /\
    np_min (np_append (data t) PosInf) = Some (fst (s_range s)) /\
    np_max (np_append (data t) NegInf) = Some (snd (s_range s)).
Proof.
  intros Hin Ht. apply In_nth_error in Hin. destruct Hin as [j Hj].
  destruct (summaries_nth _ _ _ 0 j s Hj) as [t [Hn Hs]]. cbn [Nat.add] in Hs.
  destruct (summarise_tracked _ _ _ _ _ Hs Ht) as [H2 [Hc [Hlo Hhi]]].
  exists j, t. unfold tracked_panel. repeat split; assumption.
Qed.

Lemma tracked_panel_summary (a : call_args) (j : nat) (t : tensor) :
  snd (summaries (centers_or_default a) (colorbars a) 0 (img_tensors a)) = None ->
  tracked_panel a j t ->
  exists s,
    nth_error (fst (summaries (centers_or_default a) (colorbars a) 0
                      (img_tensors a))) j = Some s /\
    s_tracked s = true /\
    np_min (np_append (data t) PosInf) = Some (fst (s_range s)) /\
    np_max (np_append (data t) NegInf) = Some (snd (s_range s)).
Proof.
  intros Hnone [Hn [H2 Hc]].
  destruct (summaries_total _ _ _ 0 j t Hnone Hn) as [s [Hj Hs]].
  cbn [Nat.add] in Hs. exists s. split; [exact Hj |].
  destruct (summarise_inv _ _ _ _ _ Hs)
    as [[_ [_ [_ [c [Hc' Hcase]]]]] | [H3 _]]; [| congruence].
  rewrite Hc in Hc'. injection Hc' as <-. exact Hcase.
Qed.

Lemma np_max_not_nan (d : list fnum) (m : fnum) :
  nan_free d -> np_max (np_append d NegInf) = Some m -> is_nan m = false.
Proof.
  intros Hn Hm. destruct (np_max_append_spec d m Hn Hm) as [Hin _].
  apply in_app_or in Hin. destruct Hin as [Hin | [<- | []]]; [| reflexivity].
  unfold nan_free in Hn. rewrite Forall_forall in Hn. now apply Hn.
Qed.

Lemma np_min_not_nan (d : list fnum) (m : fnum) :
  nan_free d -> np_min (np_append d PosInf) = Some m -> is_nan m = false.
Proof.
  intros Hn Hm. destruct (np_min_append_spec d m Hn Hm) as [Hin _].
  apply in_app_or in Hin. destruct Hin as [Hin | [<- | []]]; [| reflexivity].
  unfold nan_free in Hn. rewrite Forall_forall in Hn. now apply Hn.
Qed.

(** The running maximum after the first loop, for NaN-free tracked panels:
    it is at least zero, bounds every entry of every tracked panel, and is
    zero or one of those entries. *)
Lemma g_of_spec (a : call_args) :
  tracked_nan_free a ->
  snd (summaries (centers_or_default a) (colorbars a) 0 (img_tensors a)) = None ->
  let g := g_of (fst (summaries (centers_or_default a) (colorbars a) 0
                        (img_tensors a))) in
  fle fzero g /\
  (forall j t x, tracked_panel a j t -> In x (data t) -> fle x g) /\
  (g = fzero \/ exists j t, tracked_panel a j t /\ In g (data t)).
Proof.
  intros Hnf Hnone.
  set (ss := fst (summaries (centers_or_default a) (colorbars a) 0
                    (img_tensors a))).
  assert (Hnn : forall s, In s ss -> s_tracked s = true ->
                          is_nan (snd (s_range s)) = false).
  { intros s Hin Ht.
    destruct (tracked_summary_panel a s Hin Ht) as [j [t [Htp [_ Hhi]]]].
    exact (np_max_not_nan _ _ (Hnf j t Htp) Hhi). }
  destruct (g_fold_spec ss initial_locals eq_refl Hnn) as [_ [H0 [Hub Hat]]].
  cbn [g_vmax initial_locals] in H0, Hat. fold (g_of ss) in H0, Hub, Hat.
  cbn zeta. split; [exact H0 |]. split.
  - intros j t x Htp Hx.
    destruct (tracked_panel_summary a j t Hnone Htp) as [s [Hj [Ht [_ Hhi]]]].
    destruct (np_max_append_spec _ _ (Hnf j t Htp) Hhi) as [_ Hb].
    unfold fle. eapply fleb_trans; [apply Hb; exact Hx |].
    apply Hub; [| exact Ht]. eapply nth_error_In; exact Hj.
  - destruct Hat as [Hat | [s [Hin [Ht Hat]]]]; [now left |].
    right.
    destruct (tracked_summary_panel a s Hin Ht) as [j [t [Htp [_ Hhi]]]].
    exists j, t. split; [exact Htp |].
    destruct (np_max_append_spec _ _ (Hnf j t Htp) Hhi) as [Hm _].
    rewrite Hat. apply in_app_or in Hm.
    destruct Hm as [Hm | [Hm | []]]; [exact Hm |].
    exfalso. rewrite Hat, <- Hm in H0. discriminate.
Qed.

Lemma np_clip_lo_le (x hi : fnum) :
  fleb x hi = true -> fleb fzero hi = true ->
  fleb (np_clip_lo x fzero) hi = true.
Proof.
  intros Hx H0.
  destruct (np_maximum_cases x fzero (fleb_not_nan_l _ _ Hx) eq_refl)
    as [[E | E] _]; unfold np_clip_lo; rewrite E; assumption.
Qed.

(** ** Rendering range of a non-centred scalar panel *)

(** C1 (amended).  For a scalar panel without centre in a call whose ranges
    are computed, and NaN-free entries, the range passed to the heatmap is
    non-negative and contains every entry once the entry is clipped at
    zero: every entry is at most [vmax], and every non-negative entry is at
    least [vmin].  Without [align_scales] the range is the clipped
    (np.min, np.max) of the entries. *)
Theorem computed_range_covers_clipped_data (a : call_args) (mm : minmax_arg)
    (h : heap) (i : nat) (ha : heatmap_args) (r : bool) :
  bound_list mm h = [] ->
  tracked_nan_free a ->
  In (EvHeatmap i ha r) (r_trace (generate_heatmap_fig a mm h)) ->
  h_center ha = None ->
  exists t lo hi,
    nth_error (img_tensors a) i = Some t /\ h_img ha = squeeze t /\
    h_vmin ha = Some lo /\ h_vmax ha = Some hi /\
    fle fzero lo /\
    (align_scales a = false ->
     exists m M, np_min (np_append (data t) PosInf) = Some m /\
                 np_max (np_append (data t) NegInf) = Some M /\
                 lo = np_clip_lo m fzero /\ hi = np_clip_lo M fzero) /\
    forall x, In x (data t) ->
      fle x hi /\ fle lo (np_clip_lo x fzero) /\
      fle (np_clip_lo x fzero) hi /\ (fle fzero x -> fle lo x).
Proof.
  intros Hb Hnf Hin Hcen.
  destruct (heatmap_event_inv a mm h i ha r Hin)
    as [Hnone [t [s [rng [c [Ht [Hs [Hsum [H2 [Himg [Hr [Hc Ha]]]]]]]]]]]].
  assert (Ec : c = None) by (subst ha; exact Hcen). subst c.
  assert (Htp : tracked_panel a i t) by (repeat split; assumption).
  destruct (tracked_panel_summary a i t Hnone Htp) as [s' [Hs' [_ [Hlo Hhi]]]].
  rewrite Hs in Hs'. injection Hs' as <-.
  rewrite Hb in Hr. unfold minmax_after in Hr. cbn in Hr.
  rewrite nth_error_map, Hs in Hr. cbn in Hr. injection Hr as <-.
  pose proof (Hnf i t Htp) as Hd.
  destruct (np_min_append_spec _ _ Hd Hlo) as [_ Bm].
  destruct (np_max_append_spec _ _ Hd Hhi) as [_ BM].
  pose proof (np_min_not_nan _ _ Hd Hlo) as Nm.
  pose proof (np_max_not_nan _ _ Hd Hhi) as NM.
  unfold heatmap_call, color_scale in Ha.
  destruct (align_scales a) eqn:Eal.
  - destruct (g_of_spec a Hnf Hnone) as [G0 [Gub _]].
    exists t, fzero, (g_of (fst (summaries (centers_or_default a) (colorbars a)
                                   0 (img_tensors a)))).
    subst ha. cbn.
    repeat split; try reflexivity; try assumption; try discriminate.
    + exact (Gub i t x Htp H).
    + apply np_clip_lo_nonneg. exact (fleb_not_nan_l _ _ (Gub i t x Htp H)).
    + apply np_clip_lo_le; [exact (Gub i t x Htp H) | exact G0].
    + intros Hx. exact Hx.
  - destruct (s_range s) as [m M] eqn:Er. cbn [fst snd] in *.
    exists t, (np_clip_lo m fzero), (np_clip_lo M fzero).
    subst ha. cbn.
    split; [exact Ht |]. split; [reflexivity |]. split; [reflexivity |].
    split; [reflexivity |]. split; [now apply np_clip_lo_nonneg |].
    split; [intros _; exists m, M; repeat split; assumption |].
    intros x Hx. unfold fle. repeat split.
    + eapply fleb_trans; [apply BM; exact Hx | now apply np_clip_lo_above].
    + apply np_clip_lo_mono. now apply Bm.
    + apply np_clip_lo_mono. now apply BM.
    + intros H0. pose proof (np_clip_lo_mono m x (Bm x Hx)) as K.
      rewrite (np_clip_lo_id x H0) in K. exact K.
Qed.

(** ** Aligned scales *)

(** C2 (amended).  With [align_scales] set, every heatmap call for a scalar
    panel without centre passes [vmin = 0] and, as [vmax], the greatest of
    zero and the entries of all non-centred scalar panels of the call
    (NaN-free entries), whatever ranges the caller passed. *)
Theorem aligned_scale (a : call_args) (mm : minmax_arg) (h : heap)
    (i : nat) (ha : heatmap_args) (r : bool) :
  align_scales a = true ->
  tracked_nan_free a ->
  In (EvHeatmap i ha r) (r_trace (generate_heatmap_fig a mm h)) ->
  h_center ha = None ->
  h_vmin ha = Some fzero /\
  exists g, h_vmax ha = Some g /\ fle fzero g /\
    (forall j t x, tracked_panel a j t -> In x (data t) -> fle x g) /\
    (g = fzero \/ exists j t, tracked_panel a j t /\ In g (data t)).
Proof.
  intros Hal Hnf Hin Hcen.
  destruct (heatmap_event_inv a mm h i ha r Hin)
    as [Hnone [t [s [rng [c [_ [_ [_ [_ [_ [_ [_ Ha]]]]]]]]]]]].
  assert (Ec : c = None) by (subst ha; exact Hcen). subst c.
  unfold heatmap_call, color_scale in Ha. rewrite Hal in Ha.
  subst ha. cbn. split; [reflexivity |].
  eexists. split; [reflexivity |].
  exact (g_of_spec a Hnf Hnone).
Qed.

(** ** Width ratios *)

Lemma draws_no_subplots (ncols : nat) (lbls : list string)
    (cb : option (list bool)) (align : bool) (g : fnum)
    (ds : list (tensor * range * option fnum)) :
  forall (idx n : nat) (w : Q) (rs : list Q),
  ~ In (EvSubplots n w rs) (fst (draws ncols lbls cb align g idx ds)).
Proof.
  induction ds as [| d rest IH]; intros idx n w rs H; [destruct H |].
  cbn [draws] in H.
  assert (Hd : In (EvSubplots n w rs) (fst (draw ncols lbls cb align g idx d)) \/
               In (EvSubplots n w rs)
                  (fst (draws ncols lbls cb align g (S idx) rest))).
  { destruct (snd (draw ncols lbls cb align g idx d)); cbn [fst] in H.
    - now left.
    - apply in_app_or in H. exact H. }
  clear H. destruct Hd as [H | H]; [| exact (IH _ _ _ _ H)].
  destruct d as [[img mm] c]. unfold draw in H. cbn [fst snd] in H.
  destruct (ncols =? 1); [destruct H |].
  destruct (negb (idx <? ncols)); [destruct H |].
  destruct (nth_error lbls idx) as [label |]; [| destruct H].
  destruct (ndim img =? 2).
  - destruct cb as [l |].
    + destruct (nth_error l idx) as [b |]; cbn [fst] in H.
      * destruct H as [H | [H | H]]; try discriminate.
        destruct (heatmap_raises idx _); [| destruct H].
        destruct H as [H | []]. discriminate.
      * destruct H as [H | [H | []]]; discriminate.
    + cbn [fst] in H. destruct H as [H | [H | H]]; try discriminate.
      destruct (heatmap_raises idx _); [| destruct H].
      destruct H as [H | []]. discriminate.
  - destruct (imshow_raises idx img); cbn [fst] in H;
      repeat (destruct H as [H | H]; try discriminate); destruct H.
Qed.

(** C6 (amended).  The width ratios handed to [plt.subplots] hold one entry
    per panel: 1 for a colour panel and for a scalar panel whose colorbar
    flag is False, 1.25 for every other scalar panel, in particular for
    every scalar panel when the caller gives no colorbar flags. *)
Theorem width_ratio_rule (a : call_args) (mm : minmax_arg) (h : heap)
    (n : nat) (w : Q) (rs : list Q) :
  In (EvSubplots n w rs) (r_trace (generate_heatmap_fig a mm h)) ->
  n = length (img_tensors a) /\ length rs = n /\
  w = np_sum (list_times 5 rs) /\
  forall idx t, nth_error (img_tensors a) idx = Some t ->
    exists q, nth_error rs idx = Some q /\
      (ndim (squeeze t) = 3 -> q = 1%Q) /\
      (ndim (squeeze t) = 2 -> show_colorbar a idx = Some false -> q = 1%Q) /\
      (ndim (squeeze t) = 2 -> show_colorbar a idx <> Some false ->
       q = 1.25%Q).
Proof.
  intros H. rewrite generate_heatmap_fig_spec in H. cbn [r_trace] in H.
  unfold closed_form in H.
  set (cs := centers_or_default a) in *.
  set (ss := fst (summaries cs (colorbars a) 0 (img_tensors a))) in *.
  destruct (snd (summaries cs (colorbars a) 0 (img_tensors a))) as [e |] eqn:Es;
    [destruct H |].
  set (loc := fold_left push ss initial_locals) in *.
  assert (Hsub : EvSubplots n w rs =
                 EvSubplots (length (ratios loc))
                   (np_sum (list_times 5 (ratios loc))) (ratios loc)).
  { destruct (length (ratios loc) =? 0); cbn [snd] in H.
    - destruct H as [H | []]. now symmetry.
    - destruct (snd (draws _ _ _ _ _ _ _)); cbn [snd] in H.
      + destruct H as [H | H]; [now symmetry |].
        now apply draws_no_subplots in H.
      + destruct H as [H | H]; [now symmetry |].
        apply in_app_or in H. destruct H as [H | [H | []]];
          [now apply draws_no_subplots in H | discriminate]. }
  clear H. injection Hsub as -> -> ->.
  assert (Hrs : ratios loc = map s_ratio ss).
  { unfold loc. now rewrite ratios_fold. }
  assert (Hlen : length ss = length (img_tensors a))
    by (apply summaries_length; exact Es).
  rewrite Hrs, length_map, Hlen.
  repeat split; try reflexivity.
  intros idx t Ht.
  destruct (summaries_total cs (colorbars a) (img_tensors a) 0 idx t Es Ht)
    as [s [Hs Hsum]].
  cbn [Nat.add] in Hsum. fold ss in Hs.
  exists (s_ratio s). split.
  { rewrite nth_error_map, Hs. reflexivity. }
  unfold show_colorbar.
  destruct (summarise_inv _ _ _ _ _ Hsum)
    as [[H2 [_ [Hq _]]] | [H3 [_ [Hq _]]]].
  - split; [intros H3; congruence |]. rewrite Hq. split.
    + intros _ Hf. destruct (colorbars a); [| discriminate]. now rewrite Hf.
    + intros _ Hf. destruct (colorbars a) as [l |]; [| reflexivity].
      destruct (nth_error l idx) as [[|] |]; try reflexivity. now elim Hf.
  - split; [intros _; exact Hq |]. split; intros H2; congruence.
Qed.

(** ** Tensors of unsupported rank *)

Lemma summarise_bad_rank (cs : list (option fnum)) (cb : option (list bool))
    (idx : nat) (t : tensor) :
  ndim (squeeze t) <> 2 -> ndim (squeeze t) <> 3 ->
  summarise cs cb idx t = Raised (Exception rank_message).
Proof.
  intros H2 H3. unfold summarise.
  apply Nat.eqb_neq in H2. apply Nat.eqb_neq in H3.
  now rewrite H2, H3.
Qed.

Lemma summarise_raise_covered (cs : list (option fnum))
    (cb : option (list bool)) (idx : nat) (t : tensor) (e : exn) :
  nth_error cs idx <> None ->
  (forall l, cb = Some l -> nth_error l idx <> None) ->
  (ndim (squeeze t) = 3 -> trans (shape (squeeze t)) (data t) <> None) ->
  summarise cs cb idx t = Raised e -> e = Exception rank_message.
Proof.
  intros Hc Hb Htr. unfold summarise.
  destruct (np_min_append_some (data t) PosInf) as [lo Hlo].
  destruct (np_max_append_some (data t) NegInf) as [hi Hhi].
  rewrite Hlo, Hhi.
  destruct (ndim (squeeze t) =? 2).
  - destruct cb as [l |].
    + specialize (Hb l eq_refl).
      destruct (nth_error l idx); [| now elim Hb].
      destruct (nth_error cs idx) as [[c |] |]; try discriminate. now elim Hc.
    + destruct (nth_error cs idx) as [[c |] |]; try discriminate. now elim Hc.
  - destruct (ndim (squeeze t) =? 3) eqn:E3.
    + apply Nat.eqb_eq in E3. specialize (Htr E3).
      destruct (trans _ _); [discriminate | now elim Htr].
    + intros H. injection H as <-. reflexivity.
Qed.

Lemma summaries_stop (cs : list (option fnum)) (cb : option (list bool))
    (ts : list tensor) :
  forall (idx j : nat) (t : tensor) (e0 : exn),
  nth_error ts j = Some t -> summarise cs cb (idx + j) t = Raised e0 ->
  exists e, snd (summaries cs cb idx ts) = Some e.
Proof.
  induction ts as [| t0 rest IH]; intros idx j t e0 Hn Hs.
  - destruct j; discriminate.
  - cbn [summaries].
    destruct (summarise cs cb idx t0) as [s | e] eqn:E; [| now exists e].
    cbn [snd]. destruct j as [| j]; cbn in Hn.
    + injection Hn as <-. rewrite Nat.add_0_r in Hs. congruence.
    + rewrite <- Nat.add_succ_comm in Hs. exact (IH _ _ _ _ Hn Hs).
Qed.

Lemma summaries_error_kind (cs : list (option fnum)) (cb : option (list bool))
    (P : exn -> Prop) (ts : list tensor) :
  forall idx,
  (forall j t e, nth_error ts j = Some t ->
     summarise cs cb (idx + j) t = Raised e -> P e) ->
  forall e, snd (summaries cs cb idx ts) = Some e -> P e.
Proof.
  induction ts as [| t0 rest IH]; intros idx Hall e He; [discriminate |].
  cbn [summaries] in He.
  destruct (summarise cs cb idx t0) as [s | e1] eqn:E.
  - cbn [snd] in He. apply (IH (S idx)); [| exact He].
    intros j t e' Hn Hs. apply (Hall (S j) t e' Hn).
    now rewrite <- Nat.add_succ_comm.
  - cbn in He. injection He as <-.
    apply (Hall 0 t0 e1 eq_refl). now rewrite Nat.add_0_r.
Qed.

(** C8.  When some tensor has a rank other than 2 and 3 after squeezing, the
    call raises and issues no call at all to the plotting libraries; when
    moreover the per-panel lists reach every panel and the de-normalisation
    of colour panels succeeds, the exception is the one of the rank check. *)
Theorem bad_rank_raises (a : call_args) (mm : minmax_arg) (h : heap)
    (j : nat) (t : tensor) :
  nth_error (img_tensors a) j = Some t ->
  ndim (squeeze t) <> 2 -> ndim (squeeze t) <> 3 ->
  r_trace (generate_heatmap_fig a mm h) = [] /\
  (exists e, r_outcome (generate_heatmap_fig a mm h) = Raised e) /\
  (metadata_covers a -> trans_succeeds a ->
   r_outcome (generate_heatmap_fig a mm h) = Raised (Exception rank_message)).
Proof.
  intros Hn H2 H3. rewrite generate_heatmap_fig_spec. cbn [r_trace r_outcome].
  unfold closed_form.
  destruct (summaries_stop (centers_or_default a) (colorbars a) (img_tensors a)
              0 j t _ Hn (summarise_bad_rank _ _ _ t H2 H3)) as [e He].
  rewrite He. cbn [fst snd].
  split; [reflexivity |]. split; [now exists e |].
  intros [Hc Hb] Htr. f_equal.
  apply (summaries_error_kind (centers_or_default a) (colorbars a)
           (fun e => e = Exception rank_message) (img_tensors a) 0);
    [| exact He].
  intros k t' e' Hk Hs. cbn [Nat.add] in Hs.
  assert (Hlt : k < length (img_tensors a))
    by (apply nth_error_Some; congruence).
  apply (summarise_raise_covered _ _ _ _ _ (Hc k Hlt)) in Hs; [exact Hs | |].
  - intros l Hl. apply nth_error_Some. specialize (Hb l Hl). lia.
  - intros E3. exact (Htr k t' Hk E3).
Qed.

(** ** Passing the computed ranges back *)

Lemma minmax_after_idem (ss : list summary) :
  minmax_after (minmax_after [] ss) ss = minmax_after [] ss.
Proof.
  unfold minmax_after. cbn [length Nat.eqb app].
  destruct (map s_range ss) as [| r rs] eqn:E; reflexivity.
Qed.

Lemma closed_form_bound (a : call_args) (b1 b2 : list range) :
  minmax_after b1
    (fst (summaries (centers_or_default a) (colorbars a) 0 (img_tensors a))) =
  minmax_after b2
    (fst (summaries (centers_or_default a) (colorbars a) 0 (img_tensors a))) ->
  closed_form a b1 = closed_form a b2.
Proof. intros H. unfold closed_form. now rewrite H. Qed.

(** C4.  The list left in [minmax] by a call that received an empty list,
    passed to a second call on the same tensors and arguments, is left
    unchanged and yields the same outcome, the same calls to the plotting
    libraries and hence the same (vmin, vmax) for every panel. *)
Theorem ranges_round_trip (a : call_args) (h : heap) :
  r_minmax (generate_heatmap_fig a
              (Passed (r_minmax (generate_heatmap_fig a (Passed []) h))) h) =
  r_minmax (generate_heatmap_fig a (Passed []) h) /\
  r_outcome (generate_heatmap_fig a
               (Passed (r_minmax (generate_heatmap_fig a (Passed []) h))) h) =
  r_outcome (generate_heatmap_fig a (Passed []) h) /\
  r_trace (generate_heatmap_fig a
             (Passed (r_minmax (generate_heatmap_fig a (Passed []) h))) h) =
  r_trace (generate_heatmap_fig a (Passed []) h) /\
  assignments
    (r_trace (generate_heatmap_fig a
                (Passed (r_minmax (generate_heatmap_fig a (Passed []) h))) h)) =
  assignments (r_trace (generate_heatmap_fig a (Passed []) h)).
Proof.
  rewrite (generate_heatmap_fig_spec a (Passed []) h).
  cbn [r_minmax r_outcome r_trace bound_list].
  rewrite generate_heatmap_fig_spec.
  cbn [r_minmax r_outcome r_trace bound_list].
  rewrite minmax_after_idem.
  rewrite (closed_form_bound a (minmax_after [] _) []) by apply minmax_after_idem.
  repeat split.
Qed.

(** ** Ranges of the wrong length *)

Lemma summarise_ok (cs : list (option fnum)) (cb : option (list bool))
    (idx : nat) (t : tensor) :
  ndim (squeeze t) = 2 \/ ndim (squeeze t) = 3 ->
  nth_error cs idx <> None ->
  (forall l, cb = Some l -> nth_error l idx <> None) ->
  (ndim (squeeze t) = 3 -> trans (shape (squeeze t)) (data t) <> None) ->
  exists s, summarise cs cb idx t = Returned s.
Proof.
  intros Hr Hc Hb Htr.
  destruct (summarise cs cb idx t) as [s | e] eqn:E; [now exists s |].
  pose proof (summarise_raise_covered _ _ _ _ _ Hc Hb Htr E) as ->.
  exfalso. unfold summarise in E.
  destruct (np_min_append_some (data t) PosInf) as [lo Hlo].
  destruct (np_max_append_some (data t) NegInf) as [hi Hhi].
  rewrite Hlo, Hhi in E.
  destruct Hr as [Hr | Hr]; rewrite Hr in E; cbn [Nat.eqb] in E.
  - destruct cb as [l |].
    + destruct (nth_error l idx); [| discriminate].
      destruct (nth_error cs idx) as [[c |] |]; discriminate.
    + destruct (nth_error cs idx) as [[c |] |]; discriminate.
  - destruct (trans _ _); discriminate.
Qed.

Lemma well_formed_first_loop (a : call_args) :
  well_formed_call a ->
  snd (summaries (centers_or_default a) (colorbars a) 0 (img_tensors a)) = None.
Proof.
  intros [_ [Hrank [_ [[Hc Hb] Htr]]]].
  destruct (snd (summaries _ _ _ _)) as [e |] eqn:E; [| reflexivity].
  exfalso.
  apply (summaries_error_kind (centers_or_default a) (colorbars a)
           (fun _ => False) (img_tensors a) 0) with (e := e); [| exact E].
  intros j t e' Hn Hs. cbn [Nat.add] in Hs.
  assert (Hlt : j < length (img_tensors a))
    by (apply nth_error_Some; congruence).
  destruct (summarise_ok (centers_or_default a) (colorbars a) j t
              (Hrank j t Hn) (Hc j Hlt)) as [s Hs'].
  - intros l Hl. apply nth_error_Some. specialize (Hb l Hl). lia.
  - intros E3. exact (Htr j t Hn E3).
  - congruence.
Qed.

(** With enough axes and labels and an [imshow] that does not raise, the
    second loop handles every triple it is given. *)
Lemma draws_complete (ncols : nat) (lbls : list string)
    (cb : option (list bool)) (align : bool) (g : fnum)
    (ds : list (tensor * range * option fnum)) :
  (forall i img, imshow_raises i img = false) ->
  ncols <> 1 ->
  forall idx,
  idx + length ds <= ncols -> idx + length ds <= length lbls ->
  snd (draws ncols lbls cb align g idx ds) = None /\
  titled (fst (draws ncols lbls cb align g idx ds)) = seq idx (length ds).
Proof.
  intros Him Hn1.
  induction ds as [| d rest IH]; intros idx Hc Hl; [now split |].
  cbn [length] in Hc, Hl.
  destruct (IH (S idx)) as [Hs Ht]; [lia | lia |].
  assert (Hd : snd (draw ncols lbls cb align g idx d) = None /\
               titled (fst (draw ncols lbls cb align g idx d)) = [idx]).
  { destruct d as [[img mm] c]. unfold draw. cbn [fst snd].
    apply Nat.eqb_neq in Hn1. rewrite Hn1.
    assert (Hlt : (idx <? ncols) = true) by (apply Nat.ltb_lt; lia).
    rewrite Hlt. cbn [negb].
    destruct (nth_error lbls idx) as [label |] eqn:El.
    2:{ apply nth_error_None in El. lia. }
    destruct (ndim img =? 2).
    - destruct cb as [l |].
      + destruct (nth_error l idx) as [b |]; cbn [fst snd]; [| now split].
        destruct (heatmap_raises idx _); now split.
      + cbn [fst snd]. destruct (heatmap_raises idx _); now split.
    - rewrite Him. now split. }
  destruct Hd as [Hd1 Hd2].
  cbn [draws]. rewrite Hd1. cbn [fst snd]. split; [exact Hs |].
  unfold titled in *. rewrite flat_map_app, Hd2, Ht. reflexivity.
Qed.

(** C3 (amended).  A non-empty [minmax] list is used as it is, whatever its
    length: on a well-formed call whose [imshow] does not raise, the call
    returns, the list is left untouched, and exactly the panels up to the
    shorter of the two lengths are handled by the second loop. *)
Theorem mismatched_ranges_accepted (a : call_args) (l : list range) (h : heap) :
  l <> [] ->
  well_formed_call a ->
  (forall i img, imshow_raises i img = false) ->
  r_outcome (generate_heatmap_fig a (Passed l) h) = Returned tt /\
  r_minmax (generate_heatmap_fig a (Passed l) h) = l /\
  titled (r_trace (generate_heatmap_fig a (Passed l) h)) =
  seq 0 (Nat.min (length (img_tensors a)) (length l)).
Proof.
  intros Hne Hwf Him.
  pose proof (well_formed_first_loop a Hwf) as Hnone.
  destruct Hwf as [Hn2 [_ [Hlab [[Hc _] _]]]].
  rewrite generate_heatmap_fig_spec. cbn [r_outcome r_minmax r_trace bound_list].
  assert (Hmm : forall ss, minmax_after l ss = l).
  { intros ss. unfold minmax_after. destruct l; [now elim Hne | reflexivity]. }
  rewrite Hmm. unfold closed_form. rewrite Hnone, Hmm.
  set (cs := centers_or_default a) in *.
  set (ss := fst (summaries cs (colorbars a) 0 (img_tensors a))).
  assert (Hlen : length ss = length (img_tensors a))
    by (apply summaries_length; exact Hnone).
  rewrite ratios_fold, imgs_fold. cbn [ratios imgs initial_locals app].
  rewrite length_map, Hlen.
  assert (Hcs : length (img_tensors a) <= length cs).
  { destruct (Nat.le_gt_cases (length (img_tensors a)) (length cs)) as [K | K];
      [exact K |].
    exfalso.
    assert (Hlt : length cs < length (img_tensors a)) by lia.
    apply (Hc (length cs) Hlt). apply nth_error_None. apply Nat.le_refl. }
  assert (Hz : length (zip3 (map s_img ss) l cs) =
               Nat.min (length (img_tensors a)) (length l)).
  { rewrite zip3_length, length_map, Hlen. lia. }
  destruct (length (img_tensors a) =? 0) eqn:E0.
  { apply Nat.eqb_eq in E0. lia. }
  destruct (draws_complete (length (img_tensors a)) (labels a) (colorbars a)
              (align_scales a)
              (g_vmax (fold_left push ss initial_locals))
              (zip3 (map s_img ss) l cs) Him) with (idx := 0)
    as [Hs Ht]; try lia.
  rewrite Hs. cbn [fst snd].
  split; [reflexivity |]. split; [reflexivity |].
  unfold titled in *. cbn [flat_map app]. rewrite flat_map_app, Ht, Hz.
  cbn. now rewrite app_nil_r.
Qed.

(** ** Every scalar panel of a well-formed call is drawn

    The statements above speak of the heatmap calls found in the trace.
    This complement shows that they are there: on a well-formed call with
    computed ranges, each rank-2 panel gets its heatmap call. *)

Lemma draws_heatmap_exists (ncols : nat) (lbls : list string)
    (cb : option (list bool)) (align : bool) (g : fnum)
    (ds : list (tensor * range * option fnum)) :
  (forall i img, imshow_raises i img = false) ->
  ncols <> 1 ->
  forall idx,
  idx + length ds <= ncols -> idx + length ds <= length lbls ->
  (forall l, cb = Some l -> idx + length ds <= length l) ->
  forall k img mm c,
  nth_error ds k = Some (img, mm, c) -> ndim img = 2 ->
  exists ha r,
    In (EvHeatmap (idx + k) ha r) (fst (draws ncols lbls cb align g idx ds)).
Proof.
  intros Him Hn1.
  induction ds as [| d rest IH]; intros idx Hc Hl Hb k img mm c Hk Hd.
  - destruct k; discriminate.
  - cbn [length] in Hc, Hl, Hb.
    destruct (draws_complete ncols lbls cb align g [d] Him Hn1 idx)
      as [Hs _]; cbn [length]; try lia.
    cbn [draws] in Hs.
    destruct (snd (draw ncols lbls cb align g idx d)) eqn:Ed; [discriminate |].
    cbn [draws]. rewrite Ed. cbn [fst].
    destruct k as [| k]; cbn in Hk.
    + injection Hk as ->. rewrite Nat.add_0_r.
      unfold draw. cbn [fst snd].
      apply Nat.eqb_neq in Hn1. rewrite Hn1.
      assert (Hlt : (idx <? ncols) = true) by (apply Nat.ltb_lt; lia).
      rewrite Hlt. cbn [negb].
      destruct (nth_error lbls idx) as [label |] eqn:El.
      2:{ apply nth_error_None in El. lia. }
      apply Nat.eqb_eq in Hd. rewrite Hd.
      destruct cb as [l |].
      * specialize (Hb l eq_refl).
        destruct (nth_error l idx) as [b |] eqn:Eb.
        2:{ apply nth_error_None in Eb. lia. }
        eexists. eexists. cbn [fst]. right. left. reflexivity.
      * eexists. eexists. cbn [fst]. right. left. reflexivity.
    + destruct (IH (S idx)) with (k := k) (img := img) (mm := mm) (c := c)
        as [ha [r Hin]]; try assumption; try lia.
      { intros l Hl'. specialize (Hb l Hl'). lia. }
      exists ha, r. apply in_or_app. right.
      replace (idx + S k) with (S idx + k) by lia. exact Hin.
Qed.

Lemma scalar_panel_drawn (a : call_args) (mm : minmax_arg) (h : heap)
    (i : nat) (t : tensor) :
  well_formed_call a ->
  (forall j img, imshow_raises j img = false) ->
  bound_list mm h = [] ->
  nth_error (img_tensors a) i = Some t -> ndim (squeeze t) = 2 ->
  exists ha r, In (EvHeatmap i ha r) (r_trace (generate_heatmap_fig a mm h)).
Proof.
  intros Hwf Him Hb Ht H2.
  pose proof (well_formed_first_loop a Hwf) as Hnone.
  destruct Hwf as [Hn2 [_ [Hlab [[Hc Hcb] _]]]].
  rewrite generate_heatmap_fig_spec. cbn [r_trace].
  unfold closed_form. rewrite Hnone, Hb.
  set (cs := centers_or_default a) in *.
  set (ss := fst (summaries cs (colorbars a) 0 (img_tensors a))) in *.
  assert (Hlen : length ss = length (img_tensors a))
    by (apply summaries_length; exact Hnone).
  rewrite ratios_fold, imgs_fold. cbn [ratios imgs initial_locals app].
  rewrite length_map, Hlen.
  unfold minmax_after. cbn [length Nat.eqb app].
  destruct (length (img_tensors a) =? 0) eqn:E0.
  { apply Nat.eqb_eq in E0. lia. }
  assert (Hcs : length (img_tensors a) <= length cs).
  { destruct (Nat.le_gt_cases (length (img_tensors a)) (length cs)) as [K | K];
      [exact K |].
    exfalso. apply (Hc (length cs) K). apply nth_error_None. apply Nat.le_refl. }
  assert (Hz : length (zip3 (map s_img ss) (map s_range ss) cs) =
               length (img_tensors a)).
  { rewrite zip3_length, !length_map, Hlen. lia. }
  assert (Hi : i < length (img_tensors a))
    by (apply nth_error_Some; congruence).
  destruct (summaries_total cs (colorbars a) (img_tensors a) 0 i t Hnone Ht)
    as [s [Hs Hsum]].
  cbn [Nat.add] in Hsum. fold ss in Hs.
  destruct (summarise_inv _ _ _ _ _ Hsum)
    as [[_ [Himg _]] | [H3 _]]; [| congruence].
  destruct (nth_error cs i) as [c |] eqn:Ec.
  2:{ apply nth_error_None in Ec. lia. }
  assert (Hk : nth_error (zip3 (map s_img ss) (map s_range ss) cs) i =
               Some (s_img s, s_range s, c)).
  { apply zip3_nth. rewrite !nth_error_map, Hs. repeat split. exact Ec. }
  destruct (draws_heatmap_exists (length (img_tensors a)) (labels a)
              (colorbars a) (align_scales a)
              (g_vmax (fold_left push ss initial_locals))
              (zip3 (map s_img ss) (map s_range ss) cs) Him)
    with (idx := 0) (k := i) (img := s_img s) (mm := s_range s) (c := c)
    as [ha [r Hin]]; try lia; try assumption.
  { intros l Hl. specialize (Hcb l Hl). lia. }
  { rewrite Himg. exact H2. }
  cbn [Nat.add] in Hin. exists ha, r.
  destruct (snd (draws _ _ _ _ _ _ _)); cbn [snd].
  - right. exact Hin.
  - right. apply in_or_app. left. exact Hin.
Qed.

(** * Further properties of [generate_heatmap_fig] *)

(** ** Ranges given by the caller *)

(** Ranges passed by the caller are clipped at zero like computed ones: a
    scalar panel without centre, drawn without [align_scales], gets the
    caller's pair at its index with both ends raised to zero if negative. *)
Theorem explicit_ranges_clipped (a : call_args) (l : list range) (h : heap)
    (i : nat) (ha : heatmap_args) (r : bool) :
  l <> [] -> align_scales a = false ->
  In (EvHeatmap i ha r) (r_trace (generate_heatmap_fig a (Passed l) h)) ->
  h_center ha = None ->
  exists lo hi,
    nth_error l i = Some (lo, hi) /\
    h_vmin ha = Some (np_clip_lo lo fzero) /\
    h_vmax ha = Some (np_clip_lo hi fzero).
Proof.
  intros Hne Hal Hin Hcen.
  destruct (heatmap_event_inv a (Passed l) h i ha r Hin)
    as [_ [t [s [rng [c [_ [_ [_ [_ [_ [Hr [_ Ha]]]]]]]]]]]].
  assert (Ec : c = None) by (subst ha; exact Hcen). subst c.
  cbn [bound_list] in Hr. unfold minmax_after in Hr.
  destruct l as [| r0 l']; [now elim Hne |]. cbn [length Nat.eqb] in Hr.
  destruct rng as [lo hi]. exists lo, hi. split; [exact Hr |].
  subst ha. unfold heatmap_call, color_scale. rewrite Hal. cbn. now split.
Qed.

(** A non-empty list passed by the caller is never modified, whatever the
    outcome of the call, and the default list is left alone. *)
Theorem passed_ranges_untouched (a : call_args) (l : list range) (h : heap) :
  l <> [] ->
  r_minmax (generate_heatmap_fig a (Passed l) h) = l /\
  r_heap (generate_heatmap_fig a (Passed l) h) = h.
Proof.
  intros Hne. rewrite generate_heatmap_fig_spec. cbn [r_minmax r_heap bound_list].
  split; [| reflexivity].
  unfold minmax_after. destruct l; [now elim Hne | reflexivity].
Qed.

(** ** The default list over several calls *)

Lemma omitted_call_keeps_default (a : call_args) (h : heap) :
  default_minmax h <> [] ->
  r_heap (generate_heatmap_fig a Omitted h) = h.
Proof.
  intros Hne. rewrite generate_heatmap_fig_spec. cbn [r_heap bound_list].
  unfold minmax_after. destruct h as [d]. cbn [default_minmax] in *.
  destruct d; [now elim Hne | reflexivity].
Qed.

(** Once the default list is non-empty it never changes again: no later
    call that leaves [minmax] out computes or records a range. *)
Theorem default_list_frozen (calls : list call_args) (h : heap) :
  default_minmax h <> [] -> heap_after calls h = h.
Proof.
  revert h. induction calls as [| a calls IH]; intros h Hne; [reflexivity |].
  unfold heap_after in *. cbn [fold_left].
  rewrite omitted_call_keeps_default by exact Hne. now apply IH.
Qed.

(** A call that leaves [minmax] out, finds the default list empty and
    returns has filled the default list with one range per tensor; the list
    is then non-empty. *)
Theorem returning_call_fills_default (a : call_args) (h : heap) :
  default_minmax h = [] ->
  r_outcome (generate_heatmap_fig a Omitted h) = Returned tt ->
  length (default_minmax (r_heap (generate_heatmap_fig a Omitted h))) =
  length (img_tensors a) /\
  default_minmax (r_heap (generate_heatmap_fig a Omitted h)) <> [].
Proof.
  intros Hd Hout. rewrite generate_heatmap_fig_spec in *.
  cbn [r_outcome r_heap bound_list default_minmax] in *.
  rewrite Hd in *. unfold closed_form in Hout.
  destruct (snd (summaries _ _ _ _)) as [e |] eqn:Es; [discriminate |].
  pose proof (summaries_length _ _ _ _ Es) as Hlen.
  rewrite ratios_fold in Hout. cbn [ratios initial_locals app] in Hout.
  rewrite length_map, Hlen in Hout.
  unfold minmax_after. cbn [length Nat.eqb app]. rewrite length_map, Hlen.
  split; [reflexivity |].
  destruct (length (img_tensors a) =? 0) eqn:E0; [discriminate |].
  apply Nat.eqb_neq in E0. intros K.
  apply (f_equal (@length range)) in K. rewrite length_map, Hlen in K.
  cbn in K. contradiction.
Qed.

(** ** The figure width *)

Lemma np_sum_from (l : list Q) (q : Q) :
  (fold_left Qplus l q == q + fold_left Qplus l 0)%Q.
Proof.
  revert q. induction l as [| x l IH]; intros q; cbn [fold_left].
  - now rewrite Qplus_0_r.
  - rewrite (IH (q + x)%Q), (IH (0 + x)%Q).
    rewrite Qplus_0_l, Qplus_assoc. reflexivity.
Qed.

Lemma np_sum_app (l1 l2 : list Q) :
  (np_sum (l1 ++ l2) == np_sum l1 + np_sum l2)%Q.
Proof.
  unfold np_sum. rewrite fold_left_app. apply np_sum_from.
Qed.

Lemma np_sum_list_times (k : nat) (l : list Q) :
  (np_sum (list_times k l) == inject_Z (Z.of_nat k) * np_sum l)%Q.
Proof.
  unfold list_times. induction k as [| k IH].
  - cbn. now rewrite Qmult_0_l.
  - cbn [repeat List.concat]. rewrite np_sum_app, IH.
    rewrite Nat2Z.inj_succ. unfold Z.succ. rewrite inject_Z_plus.
    rewrite Qmult_plus_distr_l, Qmult_1_l, Qplus_comm. reflexivity.
Qed.

(** [np.sum(5 * ratios)] repeats the list five times before summing; the
    width handed to [plt.subplots] is five times the sum of the ratios. *)
Theorem figure_width (a : call_args) (mm : minmax_arg) (h : heap)
    (n : nat) (w : Q) (rs : list Q) :
  In (EvSubplots n w rs) (r_trace (generate_heatmap_fig a mm h)) ->
  (w == 5 * np_sum rs)%Q.
Proof.
  intros H. rewrite generate_heatmap_fig_spec in H. cbn [r_trace] in H.
  unfold closed_form in H.
  destruct (snd (summaries _ _ _ _)) as [e |]; [destruct H |].
  set (loc := fold_left push _ initial_locals) in *.
  assert (Hsub : EvSubplots n w rs =
                 EvSubplots (length (ratios loc))
                   (np_sum (list_times 5 (ratios loc))) (ratios loc)).
  { destruct (length _ =? 0); cbn [snd] in H.
    - destruct H as [H | []]. now symmetry.
    - destruct (snd (draws _ _ _ _ _ _ _)); cbn [snd] in H.
      + destruct H as [H | H]; [now symmetry |].
        now apply draws_no_subplots in H.
      + destruct H as [H | H]; [now symmetry |].
        apply in_app_or in H. destruct H as [H | [H | []]];
          [now apply draws_no_subplots in H | discriminate]. }
  injection Hsub as _ -> ->.
  apply (np_sum_list_times 5).
Qed.

(** ** A single panel *)

(** With exactly one tensor [plt.subplots] hands back a bare Axes, so the
    first [axs[idx]] raises TypeError: the figure is created and nothing is
    titled or drawn. *)
Theorem single_panel_raises (a : call_args) (mm : minmax_arg) (h : heap)
    (t : tensor) :
  img_tensors a = [t] ->
  ndim (squeeze t) = 2 \/ ndim (squeeze t) = 3 ->
  metadata_covers a -> trans_succeeds a ->
  r_outcome (generate_heatmap_fig a mm h) = Raised TypeError /\
  exists w rs, r_trace (generate_heatmap_fig a mm h) = [EvSubplots 1 w rs].
Proof.
  intros Ht Hrank [Hc Hb] Htr.
  rewrite generate_heatmap_fig_spec. cbn [r_outcome r_trace].
  unfold closed_form. rewrite Ht. cbn [summaries].
  destruct (summarise_ok (centers_or_default a) (colorbars a) 0 t Hrank)
    as [s Hs].
  { apply Hc. rewrite Ht. cbn. lia. }
  { intros l Hl. apply nth_error_Some. specialize (Hb l Hl).
    rewrite Ht in Hb. cbn in Hb. lia. }
  { intros E3. apply (Htr 0 t); [now rewrite Ht | exact E3]. }
  rewrite Hs. cbn [fst snd fold_left].
  change (ratios (push initial_locals s)) with [s_ratio s].
  change (imgs (push initial_locals s)) with [s_img s].
  cbn [length Nat.eqb].
  assert (Hcs : exists c cs', centers_or_default a = c :: cs').
  { destruct (centers_or_default a) as [| c cs'] eqn:E; [| now eauto].
    exfalso. apply (Hc 0); [rewrite Ht; cbn; lia | reflexivity]. }
  destruct Hcs as [c [cs' Ecs]]. rewrite Ecs.
  assert (Hmm : exists r0 rest, minmax_after (bound_list mm h) [s] = r0 :: rest).
  { unfold minmax_after. destruct (bound_list mm h) as [| r0 rest]; cbn; eauto. }
  destruct Hmm as [r0 [rest Emm]]. rewrite Emm.
  unfold zip3. cbn [combine draws]. unfold draw. cbn [Nat.eqb fst snd].
  split; [reflexivity |]. eexists. eexists. reflexivity.
Qed.

(** ** Order of the panels *)

Lemma draw_titled (ncols : nat) (lbls : list string) (cb : option (list bool))
    (align : bool) (g : fnum) (idx : nat) (d : tensor * range * option fnum) :
  (titled (fst (draw ncols lbls cb align g idx d)) = [idx]) \/
  (titled (fst (draw ncols lbls cb align g idx d)) = [] /\
   snd (draw ncols lbls cb align g idx d) <> None).
Proof.
  destruct d as [[img mm] c]. unfold draw. cbn [fst snd].
  destruct (ncols =? 1); [right; now split |].
  destruct (negb (idx <? ncols)); [right; now split |].
  destruct (nth_error lbls idx) as [label |]; [| right; now split].
  left. destruct (ndim img =? 2).
  - destruct cb as [l |].
    + destruct (nth_error l idx) as [b |]; cbn [fst]; [| reflexivity].
      destruct (heatmap_raises idx _); reflexivity.
    + cbn [fst]. destruct (heatmap_raises idx _); reflexivity.
  - destruct (imshow_raises idx img); reflexivity.
Qed.

Lemma draws_titled (ncols : nat) (lbls : list string) (cb : option (list bool))
    (align : bool) (g : fnum) (ds : list (tensor * range * option fnum)) :
  forall idx, exists k,
    k <= length ds /\
    titled (fst (draws ncols lbls cb align g idx ds)) = seq idx k.
Proof.
  induction ds as [| d rest IH]; intros idx.
  - exists 0. now split.
  - cbn [draws length].
    destruct (draw_titled ncols lbls cb align g idx d) as [Ht | [Ht Hs]].
    + destruct (snd (draw ncols lbls cb align g idx d)); cbn [fst].
      * exists 1. split; [lia | exact Ht].
      * destruct (IH (S idx)) as [k [Hk Hseq]].
        exists (S k). split; [lia |].
        unfold titled in *. rewrite flat_map_app, Ht, Hseq. reflexivity.
    + destruct (snd (draw ncols lbls cb align g idx d)); [| now elim Hs].
      cbn [fst]. exists 0. split; [lia | exact Ht].
Qed.

(** The second loop titles the panels in index order, without gap or
    repetition: the titled indices are 0, 1, ..., k-1 for some k that does
    not exceed the number of tensors. *)
Theorem panels_titled_in_order (a : call_args) (mm : minmax_arg) (h : heap) :
  exists k,
    k <= length (img_tensors a) /\
    titled (r_trace (generate_heatmap_fig a mm h)) = seq 0 k.
Proof.
  rewrite generate_heatmap_fig_spec. cbn [r_trace]. unfold closed_form.
  destruct (snd (summaries _ _ _ _)) as [e |] eqn:Es.
  { exists 0. split; [lia | reflexivity]. }
  pose proof (summaries_length _ _ _ _ Es) as Hlen.
  rewrite imgs_fold. cbn [imgs initial_locals app].
  destruct (length _ =? 0).
  { exists 0. split; [lia | reflexivity]. }
  match goal with
  | |- context [draws ?n ?l ?cb ?al ?g 0 ?ds] =>
      destruct (draws_titled n l cb al g ds 0) as [k [Hk Hseq]];
      assert (Hz : length ds <= length (img_tensors a))
  end.
  { rewrite zip3_length, length_map, Hlen. lia. }
  exists k. split; [lia |].
  destruct (snd (draws _ _ _ _ _ _ _)); cbn [snd].
  - exact Hseq.
  - unfold titled in *. cbn [flat_map app]. rewrite flat_map_app, Hseq.
    cbn. now rewrite app_nil_r.
Qed.

(** ** What each drawing call receives *)

Lemma draws_imshow_inv (ncols : nat) (lbls : list string)
    (cb : option (list bool)) (align : bool) (g : fnum)
    (ds : list (tensor * range * option fnum)) :
  forall (idx i : nat) (img : tensor) (r : bool),
  In (EvImshow i img r) (fst (draws ncols lbls cb align g idx ds)) ->
  exists mm c,
    idx <= i /\ nth_error ds (i - idx) = Some (img, mm, c) /\ ndim img <> 2.
Proof.
  induction ds as [| d rest IH]; intros idx i img r H; [destruct H |].
  cbn [draws] in H.
  assert (Hd : In (EvImshow i img r) (fst (draw ncols lbls cb align g idx d)) \/
               In (EvImshow i img r)
                  (fst (draws ncols lbls cb align g (S idx) rest))).
  { destruct (snd (draw ncols lbls cb align g idx d)); cbn [fst] in H.
    - now left.
    - apply in_app_or in H. exact H. }
  clear H. destruct Hd as [H | H].
  - destruct d as [[img0 mm] c]. unfold draw in H. cbn [fst snd] in H.
    destruct (ncols =? 1); [destruct H |].
    destruct (negb (idx <? ncols)); [destruct H |].
    destruct (nth_error lbls idx) as [label |]; [| destruct H].
    destruct (ndim img0 =? 2) eqn:E2.
    + destruct cb as [l |].
      * destruct (nth_error l idx) as [b |]; cbn [fst] in H.
        -- destruct H as [H | [H | H]]; try discriminate.
           destruct (heatmap_raises idx _); [| destruct H].
           destruct H as [H | []]. discriminate.
        -- destruct H as [H | [H | []]]; discriminate.
      * cbn [fst] in H. destruct H as [H | [H | H]]; try discriminate.
        destruct (heatmap_raises idx _); [| destruct H].
        destruct H as [H | []]. discriminate.
    + apply Nat.eqb_neq in E2.
      destruct (imshow_raises idx img0); cbn [fst] in H.
      * destruct H as [H | [H | []]]; try discriminate.
        injection H as <- <- _. exists mm, c. rewrite Nat.sub_diag.
        repeat split; auto.
      * destruct H as [H | [H | [H | []]]]; try discriminate.
        injection H as <- <- _. exists mm, c. rewrite Nat.sub_diag.
        repeat split; auto.
  - destruct (IH (S idx) i img r H) as [mm [c [Hle [Hn Hd]]]].
    exists mm, c. split; [lia |]. split; [| exact Hd].
    replace (i - idx) with (S (i - S idx)) by lia. exact Hn.
Qed.

Lemma summarise_colour (cs : list (option fnum)) (cb : option (list bool))
    (idx : nat) (t : tensor) (s : summary) :
  summarise cs cb idx t = Returned s -> ndim (s_img s) <> 2 ->
  ndim (squeeze t) = 3 /\
  exists d, trans (shape (squeeze t)) (data t) = Some d /\
            s_img s = moveaxis_0_2 {| shape := shape (squeeze t); data := d |}.
Proof.
  unfold summarise. intros H Hd.
  destruct (ndim (squeeze t) =? 2) eqn:E2.
  - apply Nat.eqb_eq in E2. exfalso. apply Hd.
    destruct cb as [l |].
    + destruct (nth_error l idx) as [b |]; [| discriminate].
      destruct (nth_error cs idx) as [[c |] |]; [| | discriminate].
      * injection H as <-. exact E2.
      * destruct (np_min _); [| discriminate].
        destruct (np_max _); [| discriminate].
        injection H as <-. exact E2.
    + destruct (nth_error cs idx) as [[c |] |]; [| | discriminate].
      * injection H as <-. exact E2.
      * destruct (np_min _); [| discriminate].
        destruct (np_max _); [| discriminate].
        injection H as <-. exact E2.
  - destruct (ndim (squeeze t) =? 3) eqn:E3; [| discriminate].
    apply Nat.eqb_eq in E3. split; [exact E3 |].
    destruct (trans _ _) as [d |]; [| discriminate].
    injection H as <-. exists d. now split.
Qed.

(** A heatmap is only ever drawn for a tensor of rank 2, from its squeezed
    entries as they are; [imshow] is only ever called for a tensor of
    rank 3, on its de-normalised entries with the channel axis moved last. *)
Theorem drawing_calls_match_rank (a : call_args) (mm : minmax_arg) (h : heap)
    (i : nat) :
  (forall ha r,
     In (EvHeatmap i ha r) (r_trace (generate_heatmap_fig a mm h)) ->
     exists t, nth_error (img_tensors a) i = Some t /\
               ndim (squeeze t) = 2 /\ h_img ha = squeeze t) /\
  (forall img r,
     In (EvImshow i img r) (r_trace (generate_heatmap_fig a mm h)) ->
     exists t d, nth_error (img_tensors a) i = Some t /\
                 ndim (squeeze t) = 3 /\
                 trans (shape (squeeze t)) (data t) = Some d /\
                 img = moveaxis_0_2 {| shape := shape (squeeze t); data := d |}).
Proof.
  split.
  - intros ha r Hin.
    destruct (heatmap_event_inv a mm h i ha r Hin)
      as [_ [t [s [rng [c [Ht [_ [_ [H2 [_ [_ [_ Ha]]]]]]]]]]]].
    exists t. subst ha. now repeat split.
  - intros img r H. rewrite generate_heatmap_fig_spec in H. cbn [r_trace] in H.
    unfold closed_form in H.
    destruct (snd (summaries _ _ _ _)) as [e |] eqn:Es; [destruct H |].
    set (ss := fst (summaries _ _ _ _)) in *.
    set (loc := fold_left push ss initial_locals) in *.
    assert (Hin : In (EvImshow i img r)
                    (fst (draws (length (ratios loc)) (labels a) (colorbars a)
                            (align_scales a) (g_vmax loc) 0
                            (zip3 (imgs loc)
                               (minmax_after (bound_list mm h) ss)
                               (centers_or_default a))))).
    { destruct (length (ratios loc) =? 0); cbn [snd] in H.
      - destruct H as [H | []]. discriminate.
      - destruct (snd (draws _ _ _ _ _ _ _)); cbn [snd] in H.
        + destruct H as [H | H]; [discriminate | exact H].
        + destruct H as [H | H]; [discriminate |].
          apply in_app_or in H. destruct H as [H | [H | []]];
            [exact H | discriminate]. }
    clear H. apply draws_imshow_inv in Hin.
    destruct Hin as [rng [c [_ [Hn Hd]]]].
    rewrite Nat.sub_0_r in Hn. apply zip3_nth in Hn. destruct Hn as [Hi _].
    unfold loc in Hi. rewrite imgs_fold in Hi.
    cbn [imgs initial_locals app] in Hi. rewrite nth_error_map in Hi.
    destruct (nth_error ss i) as [s |] eqn:Ess; [| discriminate].
    cbn in Hi. injection Hi as <-.
    destruct (summaries_nth _ _ _ 0 i s Ess) as [t [Ht Hs]].
    cbn [Nat.add] in Hs.
    destruct (summarise_colour _ _ _ _ _ Hs Hd) as [H3 [d [Hd' Himg]]].
    exists t, d. now repeat split.
Qed.

(** * Properties of [generate_final_imgs] *)

(** ** Invariants through the monad *)

Lemma keeps_fret {A : Type} (I : fworld -> Prop) (a : A) : keeps I (fret a).
Proof. intros w H. exact H. Qed.

Lemma keeps_fraise {A : Type} (I : fworld -> Prop) (e : fexn) :
  keeps I (@fraise A e).
Proof. intros w H. exact H. Qed.

Lemma keeps_fbind {A B : Type} (I : fworld -> Prop) (m : FM A)
    (k : A -> FM B) :
  keeps I m -> (forall x, keeps I (k x)) -> keeps I (fbind m k).
Proof.
  intros Hm Hk w H. unfold fbind. specialize (Hm w H).
  destruct (m w) as [[x | e] w']; cbn [snd] in *; [| exact Hm].
  now apply Hk.
Qed.

Lemma keeps_ftry {A : Type} (I : fworld -> Prop) (m h : FM A) :
  keeps I m -> keeps I h -> keeps I (ftry m h).
Proof.
  intros Hm Hh w H. unfold ftry. specialize (Hm w H).
  destruct (m w) as [[x | e] w']; cbn [snd] in *; [exact Hm |].
  now apply Hh.
Qed.

Lemma keeps_fpy_index {A : Type} (I : fworld -> Prop) (l : list A) (i : nat) :
  keeps I (fpy_index l i).
Proof.
  unfold fpy_index. destruct (nth_error l i); [apply keeps_fret | apply keeps_fraise].
Qed.

Lemma keeps_faxs_index (I : fworld -> Prop) (ncols i : nat) :
  keeps I (faxs_index ncols i).
Proof.
  unfold faxs_index. destruct (ncols =? 1); [apply keeps_fraise |].
  destruct (i <? ncols); [apply keeps_fret | apply keeps_fraise].
Qed.

Lemma keeps_final_loop (I : fworld -> Prop) (ncols : nat)
    (lbls : list string) (cb : option (list bool)) (align : bool) (g : fnum)
    (savefigs : bool) (figname : string) :
  (forall idx d,
     keeps I (final_loop_body ncols lbls cb align g savefigs figname idx d)) ->
  forall ds idx,
  keeps I (final_loop ncols lbls cb align g savefigs figname idx ds).
Proof.
  intros Hbody ds. induction ds as [| d rest IH]; intros idx; cbn [final_loop].
  - apply keeps_fret.
  - apply keeps_fbind; [apply Hbody | intros _; apply IH].
Qed.

(** The trace of a whole call is the trace after [final_rest], or empty
    when the first loop raises. *)
Lemma final_trace_invariant (I : fworld -> Prop) (a : call_args)
    (savefigs : bool) (figname : string) (mm : minmax_arg) (h : final_heap) :
  I {| f_trace := []; f_cbar_enabled := None |} ->
  (forall loc minmax, keeps I (final_rest a savefigs figname loc minmax)) ->
  exists w, I w /\
    fr_trace (generate_final_imgs a savefigs figname mm h) = f_trace w.
Proof.
  intros H0 Hk. unfold generate_final_imgs.
  destruct (first_loop _ _ _ _ _ _ _) as [[loc | e] w1].
  - specialize (Hk loc (w_minmax w1) _ H0).
    destruct (final_rest a savefigs figname loc (w_minmax w1) _) as [out2 w2].
    cbn [snd fr_trace] in *. now exists w2.
  - cbn [fr_trace]. now exists {| f_trace := []; f_cbar_enabled := None |}.
Qed.

(** ** Without colorbar flags no heatmap is drawn *)

Lemma keeps_call_no_heatmap (c : fcall) :
  is_heatmap_call c = false -> keeps unbound_and_no_heatmap (call c).
Proof.
  intros Hc w [Hu Hf]. unfold call, fbind, femit.
  destruct (fails c); cbn [snd f_trace f_cbar_enabled]; split; try exact Hu;
    apply Forall_app; split; try exact Hf; now repeat constructor.
Qed.

Lemma keeps_save_panel_no_heatmap (draw2 : FM unit) (path : string) :
  keeps unbound_and_no_heatmap draw2 ->
  keeps unbound_and_no_heatmap (save_panel draw2 path).
Proof.
  intros Hd. unfold save_panel.
  apply keeps_fbind; [now apply keeps_call_no_heatmap | intros _].
  apply keeps_fbind; [now apply keeps_call_no_heatmap | intros _].
  apply keeps_fbind; [exact Hd | intros _].
  apply keeps_fbind; [now apply keeps_call_no_heatmap | intros _].
  now apply keeps_call_no_heatmap.
Qed.

Lemma keeps_body_no_flags (ncols : nat) (lbls : list string) (align : bool)
    (g : fnum) (savefigs : bool) (figname : string) (idx : nat)
    (d : tensor * range * option fnum) :
  keeps unbound_and_no_heatmap
    (final_loop_body ncols lbls None align g savefigs figname idx d).
Proof.
  destruct d as [[img mm] c]. unfold final_loop_body.
  apply keeps_fbind; [apply keeps_faxs_index | intros _].
  apply keeps_fbind; [apply keeps_fpy_index | intros label].
  apply keeps_fbind; [now apply keeps_call_no_heatmap | intros _].
  destruct (ndim img =? 2).
  - destruct (color_scale align g mm c) as [[vmin vmax] cm].
    intros w [Hu Hf]. unfold ftry, fbind, fret, get_cbar_enabled.
    rewrite Hu. unfold femit. cbn [snd f_trace f_cbar_enabled].
    split; [exact Hu |]. apply Forall_app. split; [exact Hf |].
    now repeat constructor.
  - apply keeps_fbind; [now apply keeps_call_no_heatmap | intros _].
    apply keeps_fbind; [now apply keeps_call_no_heatmap | intros _].
    destruct savefigs; [| apply keeps_fret].
    apply keeps_save_panel_no_heatmap.
    apply keeps_fbind; [now apply keeps_call_no_heatmap | intros _].
    now apply keeps_call_no_heatmap.
Qed.

(** When the caller gives no colorbar flags, [cbar_enabled] is never
    assigned: reading it raises inside the [try], so no heatmap is ever
    drawn, neither on the figure nor for a file. *)
Theorem final_no_flags_no_heatmap (a : call_args) (savefigs : bool)
    (figname : string) (mm : minmax_arg) (h : final_heap) (c : fcall) :
  colorbars a = None ->
  In c (fr_trace (generate_final_imgs a savefigs figname mm h)) ->
  is_heatmap_call c = false.
Proof.
  intros Hcb Hin.
  destruct (final_trace_invariant unbound_and_no_heatmap a savefigs figname
              mm h) as [w [[_ Hf] Htr]].
  - split; [reflexivity | constructor].
  - intros loc minmax. unfold final_rest. rewrite Hcb.
    apply keeps_fbind; [now apply keeps_call_no_heatmap | intros _].
    apply keeps_fbind.
    { destruct (_ =? 0); [apply keeps_fraise | apply keeps_fret]. }
    intros _. apply keeps_fbind.
    { destruct (truthy figname);
        [now apply keeps_call_no_heatmap | apply keeps_fret]. }
    intros _. apply keeps_fbind.
    { apply keeps_final_loop. intros idx d. apply keeps_body_no_flags. }
    intros _. apply keeps_fbind; [now apply keeps_call_no_heatmap | intros _].
    destruct (truthy figname);
      [now apply keeps_call_no_heatmap | apply keeps_fret].
  - rewrite Htr in Hin. rewrite Forall_forall in Hf. now apply Hf.
Qed.

(** ** Nothing is exported unless asked for *)

Lemma keeps_call_ok (ok : fcall -> bool) (c : fcall) :
  ok c = true -> keeps (all_calls ok) (call c).
Proof.
  intros Hc w Hf. unfold call, fbind, femit, all_calls in *.
  destruct (fails c); cbn [snd f_trace];
    apply Forall_app; split; try exact Hf; now repeat constructor.
Qed.

Lemma keeps_femit_ok (ok : fcall -> bool) (c : fcall) :
  ok c = true -> keeps (all_calls ok) (femit c).
Proof.
  intros Hc w Hf. unfold femit, all_calls in *. cbn [snd f_trace].
  apply Forall_app; split; [exact Hf | now repeat constructor].
Qed.

Lemma keeps_set_cbar_ok (ok : fcall -> bool) (b : bool) :
  keeps (all_calls ok) (set_cbar_enabled b).
Proof. intros w Hf. exact Hf. Qed.

Lemma keeps_get_cbar_ok (ok : fcall -> bool) :
  keeps (all_calls ok) get_cbar_enabled.
Proof.
  intros w Hf. unfold get_cbar_enabled.
  destruct (f_cbar_enabled w); exact Hf.
Qed.

Lemma keeps_body_no_export (ncols : nat) (lbls : list string)
    (cb : option (list bool)) (align : bool) (g : fnum) (figname : string)
    (idx : nat) (d : tensor * range * option fnum) :
  keeps (all_calls (fun c => negb (is_export_call c)))
    (final_loop_body ncols lbls cb align g false figname idx d).
Proof.
  destruct d as [[img mm] c]. unfold final_loop_body.
  apply keeps_fbind; [apply keeps_faxs_index | intros _].
  apply keeps_fbind; [apply keeps_fpy_index | intros label].
  apply keeps_fbind; [now apply keeps_call_ok | intros _].
  destruct (ndim img =? 2).
  - destruct (color_scale align g mm c) as [[vmin vmax] cm].
    apply keeps_ftry; [| now apply keeps_femit_ok].
    apply keeps_fbind.
    { destruct cb as [l |]; [| apply keeps_fret].
      apply keeps_fbind; [apply keeps_fpy_index | intros b].
      apply keeps_set_cbar_ok. }
    intros _. apply keeps_fbind; [apply keeps_get_cbar_ok | intros b].
    apply keeps_fbind; [now apply keeps_call_ok | intros _].
    apply keeps_fret.
  - apply keeps_fbind; [now apply keeps_call_ok | intros _].
    apply keeps_fbind; [now apply keeps_call_ok | intros _].
    apply keeps_fret.
Qed.

(** With [savefigs=False] and an empty [figname] the call never touches the
    file system and never opens the second figure. *)
Theorem final_no_export (a : call_args) (mm : minmax_arg) (h : final_heap)
    (c : fcall) :
  In c (fr_trace (generate_final_imgs a false EmptyString mm h)) ->
  is_export_call c = false.
Proof.
  intros Hin.
  destruct (final_trace_invariant
              (all_calls (fun c => negb (is_export_call c)))
              a false EmptyString mm h) as [w [Hf Htr]].
  - constructor.
  - intros loc minmax. unfold final_rest. cbn [truthy].
    apply keeps_fbind; [now apply keeps_call_ok | intros _].
    apply keeps_fbind.
    { destruct (_ =? 0); [apply keeps_fraise | apply keeps_fret]. }
    intros _. apply keeps_fbind; [apply keeps_fret | intros _].
    apply keeps_fbind.
    { apply keeps_final_loop. intros idx d. apply keeps_body_no_export. }
    intros _. apply keeps_fbind; [now apply keeps_call_ok | intros _].
    apply keeps_fret.
  - rewrite Htr in Hin. unfold all_calls in Hf. rewrite Forall_forall in Hf.
    apply negb_true_iff. now apply Hf.
Qed.

(** ** A tensor of unsupported rank *)


(** ** The files written *)

Lemma saved_app (l1 l2 : list fcall) : saved (l1 ++ l2) = saved l1 ++ saved l2.
Proof. unfold saved. apply flat_map_app. Qed.

Lemma rw_fret {A : Type} (x : A) (w : fworld) (post : A -> fworld -> Prop) :
  post x w -> returns_with (fret x) w post.
Proof. intros H. exists x, w. now split. Qed.

Lemma rw_fbind {A B : Type} (m : FM A) (k : A -> FM B) (w : fworld)
    (post : B -> fworld -> Prop) :
  returns_with m w (fun x w' => returns_with (k x) w' post) ->
  returns_with (fbind m k) w post.
Proof.
  intros [x [w' [E [y [w'' [E' H]]]]]]. exists y, w''.
  unfold fbind. rewrite E. now split.
Qed.

Lemma rw_ftry {A : Type} (m h : FM A) (w : fworld)
    (post : A -> fworld -> Prop) :
  returns_with m w post -> returns_with (ftry m h) w post.
Proof.
  intros [x [w' [E H]]]. exists x, w'. unfold ftry. rewrite E. now split.
Qed.

Lemma rw_call (c : fcall) (w : fworld) (post : unit -> fworld -> Prop) :
  fails c = false -> post tt (record_call c w) -> returns_with (call c) w post.
Proof.
  intros Hf H. exists tt, (record_call c w).
  unfold call, fbind, femit. rewrite Hf. now split.
Qed.

Lemma rw_fpy_index {A : Type} (l : list A) (i : nat) (x : A) (w : fworld)
    (post : A -> fworld -> Prop) :
  nth_error l i = Some x -> post x w -> returns_with (fpy_index l i) w post.
Proof.
  intros E H. exists x, w. unfold fpy_index. rewrite E. now split.
Qed.

Lemma rw_faxs_index (ncols i : nat) (w : fworld)
    (post : unit -> fworld -> Prop) :
  ncols <> 1 -> i < ncols -> post tt w ->
  returns_with (faxs_index ncols i) w post.
Proof.
  intros Hn Hi H. exists tt, w. unfold faxs_index.
  apply Nat.eqb_neq in Hn. apply Nat.ltb_lt in Hi. rewrite Hn, Hi. now split.
Qed.

Lemma rw_set_cbar (b : bool) (w : fworld) (post : unit -> fworld -> Prop) :
  post tt {| f_trace := f_trace w; f_cbar_enabled := Some b |} ->
  returns_with (set_cbar_enabled b) w post.
Proof. intros H. eexists. eexists. split; [reflexivity | exact H]. Qed.

Lemma rw_get_cbar (b : bool) (w : fworld) (post : bool -> fworld -> Prop) :
  f_cbar_enabled w = Some b -> post b w ->
  returns_with get_cbar_enabled w post.
Proof.
  intros E H. exists b, w. unfold get_cbar_enabled. rewrite E. now split.
Qed.

Lemma saved_record (c : fcall) (w : fworld) :
  saved (f_trace (record_call c w)) =
  saved (f_trace w) ++ match c with CSavefig p => [p] | _ => [] end.
Proof. unfold record_call. cbn [f_trace]. rewrite saved_app. cbn. now rewrite app_nil_r. Qed.

Lemma final_body_saves (ncols : nat) (lbls : list string) (l : list bool)
    (align : bool) (g : fnum) (figname : string) (idx : nat)
    (d : tensor * range * option fnum) (w : fworld) :
  (forall c, fails c = false) ->
  ncols <> 1 -> idx < ncols -> idx < length lbls -> idx < length l ->
  returns_with
    (final_loop_body ncols lbls (Some l) align g true figname idx d) w
    (fun _ w' =>
       saved (f_trace w') = saved (f_trace w) ++ [panel_path figname idx]).
Proof.
  intros Hf Hn1 Hc Hl Hb. destruct d as [[img mm] c].
  destruct (nth_error lbls idx) as [label |] eqn:El.
  2:{ apply nth_error_None in El. lia. }
  destruct (nth_error l idx) as [b |] eqn:Eb.
  2:{ apply nth_error_None in Eb. lia. }
  unfold final_loop_body.
  apply rw_fbind, rw_faxs_index; try assumption.
  apply rw_fbind, (rw_fpy_index _ _ label); [exact El |].
  apply rw_fbind, rw_call; [apply Hf |].
  destruct (ndim img =? 2).
  - destruct (color_scale align g mm c) as [[vmin vmax] cm].
    apply rw_ftry.
    apply rw_fbind, rw_fbind, (rw_fpy_index _ _ b); [exact Eb |].
    apply rw_set_cbar.
    apply rw_fbind, (rw_get_cbar b); [reflexivity |].
    apply rw_fbind, rw_call; [apply Hf |].
    unfold save_panel.
    apply rw_fbind, rw_call; [apply Hf |].
    apply rw_fbind, rw_call; [apply Hf |].
    apply rw_fbind, rw_call; [apply Hf |].
    apply rw_fbind, rw_call; [apply Hf |].
    apply rw_call; [apply Hf |].
    repeat (rewrite saved_record; cbn [app]; rewrite ?app_nil_r).
    cbn [f_trace]. repeat (rewrite saved_record; cbn [app]; rewrite ?app_nil_r).
    reflexivity.
  - apply rw_fbind, rw_call; [apply Hf |].
    apply rw_fbind, rw_call; [apply Hf |].
    unfold save_panel.
    apply rw_fbind, rw_call; [apply Hf |].
    apply rw_fbind, rw_call; [apply Hf |].
    apply rw_fbind, rw_fbind, rw_call; [apply Hf |].
    apply rw_call; [apply Hf |].
    apply rw_fbind, rw_call; [apply Hf |].
    apply rw_call; [apply Hf |].
    repeat (rewrite saved_record; cbn [app]; rewrite ?app_nil_r).
    reflexivity.
Qed.

Lemma rw_conseq {A : Type} (m : FM A) (w : fworld)
    (post post' : A -> fworld -> Prop) :
  returns_with m w post -> (forall x w', post x w' -> post' x w') ->
  returns_with m w post'.
Proof.
  intros [x [w' [E H]]] Himp. exists x, w'. split; [exact E | now apply Himp].
Qed.

Lemma final_loop_saves (ncols : nat) (lbls : list string) (l : list bool)
    (align : bool) (g : fnum) (figname : string)
    (ds : list (tensor * range * option fnum)) :
  (forall c, fails c = false) -> ncols <> 1 ->
  forall idx w,
  idx + length ds <= ncols -> idx + length ds <= length lbls ->
  idx + length ds <= length l ->
  returns_with
    (final_loop ncols lbls (Some l) align g true figname idx ds) w
    (fun _ w' =>
       saved (f_trace w') =
       saved (f_trace w) ++ map (panel_path figname) (seq idx (length ds))).
Proof.
  intros Hf Hn1. induction ds as [| d rest IH]; intros idx w Hc Hl Hb.
  - apply rw_fret. cbn. now rewrite app_nil_r.
  - cbn [length] in Hc, Hl, Hb. cbn [final_loop]. apply rw_fbind.
    apply (rw_conseq _ _ _ _
             (final_body_saves ncols lbls l align g figname idx d w Hf Hn1
                ltac:(lia) ltac:(lia) ltac:(lia))).
    intros _ w1 S1.
    apply (rw_conseq _ _ _ _ (IH (S idx) w1 ltac:(lia) ltac:(lia) ltac:(lia))).
    intros _ w2 S2. rewrite S2, S1, <- app_assoc. reflexivity.
Qed.

Lemma final_rest_saves (a : call_args) (figname : string) (l : list bool)
    (loc : locals) (minmax : list range) (w : fworld) :
  (forall c, fails c = false) -> colorbars a = Some l ->
  2 <= length (ratios loc) ->
  length (zip3 (imgs loc) minmax (centers_or_default a)) =
  length (ratios loc) ->
  length (ratios loc) <= length (labels a) ->
  length (ratios loc) <= length l ->
  returns_with (final_rest a true figname loc minmax) w
    (fun _ w' =>
       saved (f_trace w') =
       saved (f_trace w) ++
       map (panel_path figname) (seq 0 (length (ratios loc))) ++
       (if truthy figname then [full_path figname] else [])).
Proof.
  intros Hf Hcb Hn Hz Hlab Hl. unfold final_rest. rewrite Hcb.
  apply rw_fbind, rw_call; [apply Hf |].
  assert (E0 : (length (ratios loc) =? 0) = false)
    by (apply Nat.eqb_neq; lia).
  rewrite E0. apply rw_fbind, rw_fret.
  assert (Hloop : forall w0,
            returns_with
              (final_loop (length (ratios loc)) (labels a) (Some l)
                 (align_scales a) (g_vmax loc) true figname 0
                 (zip3 (imgs loc) minmax (centers_or_default a))) w0
              (fun _ w' =>
                 saved (f_trace w') =
                 saved (f_trace w0) ++
                 map (panel_path figname) (seq 0 (length (ratios loc))))).
  { intros w0.
    assert (Hn1 : length (ratios loc) <> 1) by lia.
    apply (rw_conseq _ _ _ _
             (final_loop_saves (length (ratios loc)) (labels a) l
                (align_scales a) (g_vmax loc) figname
                (zip3 (imgs loc) minmax (centers_or_default a)) Hf Hn1 0 w0
                ltac:(cbn [Nat.add]; lia) ltac:(cbn [Nat.add]; lia)
                ltac:(cbn [Nat.add]; lia))).
    intros _ w1 S1. rewrite Hz in S1. exact S1. }
  destruct (truthy figname).
  - apply rw_fbind, rw_call; [apply Hf |].
    apply rw_fbind. apply (rw_conseq _ _ _ _ (Hloop _)). intros _ w1 S1.
    apply rw_fbind, rw_call; [apply Hf |].
    apply rw_call; [apply Hf |].
    rewrite !saved_record, S1, !saved_record. cbn [app].
    rewrite !app_nil_r, <- app_assoc. reflexivity.
  - apply rw_fbind, rw_fret.
    apply rw_fbind. apply (rw_conseq _ _ _ _ (Hloop _)). intros _ w1 S1.
    apply rw_fbind, rw_call; [apply Hf |].
    apply rw_fret.
    rewrite !saved_record, S1, !saved_record. cbn [app].
    rewrite !app_nil_r. reflexivity.
Qed.

(** With [savefigs=True], colorbar flags for every panel and no raising
    call, a well-formed call with computed ranges returns after writing one
    file per panel, named by the panel's index and in index order, followed
    by the composite file when [figname] is not empty. *)
Theorem final_saves_every_panel (a : call_args) (figname : string)
    (mm : minmax_arg) (h : final_heap) (l : list bool) :
  well_formed_call a -> colorbars a = Some l ->
  (forall c, fails c = false) ->
  final_bound mm h = [] ->
  fr_outcome (generate_final_imgs a true figname mm h) = FRet tt /\
  saved (fr_trace (generate_final_imgs a true figname mm h)) =
  map (panel_path figname) (seq 0 (length (img_tensors a))) ++
  (if truthy figname then [full_path figname] else []).
Proof.
  intros Hwf Hcb Hf Hb.
  pose proof (well_formed_first_loop a Hwf) as Hnone.
  destruct Hwf as [Hn2 [_ [Hlab [[Hc Hbl] _]]]].
  specialize (Hbl l Hcb).
  unfold generate_final_imgs. rewrite first_loop_spec, Hnone, Hb.
  cbn [length Nat.eqb w_minmax app].
  set (cs := centers_or_default a) in *.
  set (ss := fst (summaries cs (colorbars a) 0 (img_tensors a))) in *.
  set (loc := fold_left push ss initial_locals).
  assert (Hlen : length ss = length (img_tensors a))
    by (apply summaries_length; exact Hnone).
  assert (Hcs : length (img_tensors a) <= length cs).
  { destruct (Nat.le_gt_cases (length (img_tensors a)) (length cs)) as [K | K];
      [exact K |].
    exfalso. apply (Hc (length cs) K). apply nth_error_None. apply Nat.le_refl. }
  assert (Hr : length (ratios loc) = length (img_tensors a)).
  { unfold loc. rewrite ratios_fold. cbn [ratios initial_locals app].
    now rewrite length_map. }
  destruct (final_rest_saves a figname l loc (map s_range ss)
              {| f_trace := []; f_cbar_enabled := None |} Hf Hcb)
    as [[] [w' [E S]]]; try (rewrite Hr; assumption).
  { unfold loc. rewrite zip3_length, imgs_fold, ratios_fold.
    cbn [ratios imgs initial_locals app]. rewrite !length_map, Hlen.
    fold cs. lia. }
  rewrite E. cbn [fr_outcome fr_trace]. split; [reflexivity |].
  rewrite S, Hr. reflexivity.
Qed.

(** ** Fewer labels than panels *)

Lemma first_loop_completes (a : call_args) :
  (forall idx t, nth_error (img_tensors a) idx = Some t ->
     ndim (squeeze t) = 2 \/ ndim (squeeze t) = 3) ->
  metadata_covers a -> trans_succeeds a ->
  snd (summaries (centers_or_default a) (colorbars a) 0 (img_tensors a)) = None.
Proof.
  intros Hrank [Hc Hb] Htr.
  destruct (snd (summaries _ _ _ _)) as [e |] eqn:E; [| reflexivity].
  exfalso.
  apply (summaries_error_kind (centers_or_default a) (colorbars a)
           (fun _ => False) (img_tensors a) 0) with (e := e); [| exact E].
  intros j t e' Hn Hs. cbn [Nat.add] in Hs.
  assert (Hlt : j < length (img_tensors a))
    by (apply nth_error_Some; congruence).
  destruct (summarise_ok (centers_or_default a) (colorbars a) j t
              (Hrank j t Hn) (Hc j Hlt)) as [s Hs'].
  - intros l Hl. apply nth_error_Some. specialize (Hb l Hl). lia.
  - intros E3. exact (Htr j t Hn E3).
  - congruence.
Qed.

Lemma draws_short_labels (ncols : nat) (lbls : list string)
    (cb : option (list bool)) (align : bool) (g : fnum)
    (ds : list (tensor * range * option fnum)) :
  (forall i img, imshow_raises i img = false) ->
  ncols <> 1 ->
  forall idx,
  idx + length ds <= ncols -> idx <= length lbls ->
  length lbls < idx + length ds ->
  snd (draws ncols lbls cb align g idx ds) = Some IndexError /\
  titled (fst (draws ncols lbls cb align g idx ds)) =
  seq idx (length lbls - idx).
Proof.
  intros Him Hn1.
  induction ds as [| d rest IH]; intros idx Hc Hlo Hhi; cbn [length] in *;
    [lia |].
  destruct (Nat.eq_dec idx (length lbls)) as [-> | Hne].
  - assert (El : nth_error lbls (length lbls) = None)
      by (apply nth_error_None; apply Nat.le_refl).
    cbn [draws]. destruct d as [[img mm] c]. unfold draw. cbn [fst snd].
    apply Nat.eqb_neq in Hn1. rewrite Hn1.
    assert (Hlt : (length lbls <? ncols) = true) by (apply Nat.ltb_lt; lia).
    rewrite Hlt, El. cbn [negb fst snd]. rewrite Nat.sub_diag. now split.
  - destruct (draws_complete ncols lbls cb align g [d] Him Hn1 idx)
      as [Hs Ht]; cbn [length]; try lia.
    cbn [draws] in Hs, Ht.
    destruct (snd (draw ncols lbls cb align g idx d)) eqn:Ed; [discriminate |].
    cbn [fst] in Ht. rewrite app_nil_r in Ht.
    destruct (IH (S idx)) as [Hs' Ht']; try lia.
    cbn [draws]. rewrite Ed. cbn [fst snd]. split; [exact Hs' |].
    unfold titled in *. rewrite flat_map_app, Ht, Ht'.
    replace (length lbls - idx) with (S (length lbls - S idx)) by lia.
    reflexivity.
Qed.

(** When there are fewer labels than panels, the call raises IndexError at
    the first panel without a label, after the panels before it have been
    titled and drawn (two or more tensors of rank 2 or 3, computed ranges,
    an [imshow] that does not raise). *)
Theorem missing_label_raises (a : call_args) (mm : minmax_arg) (h : heap) :
  2 <= length (img_tensors a) ->
  (forall idx t, nth_error (img_tensors a) idx = Some t ->
     ndim (squeeze t) = 2 \/ ndim (squeeze t) = 3) ->
  metadata_covers a -> trans_succeeds a ->
  (forall i img, imshow_raises i img = false) ->
  bound_list mm h = [] ->
  length (labels a) < length (img_tensors a) ->
  r_outcome (generate_heatmap_fig a mm h) = Raised IndexError /\
  titled (r_trace (generate_heatmap_fig a mm h)) = seq 0 (length (labels a)).
Proof.
  intros Hn2 Hrank Hmeta Htr Him Hb Hlab.
  pose proof (first_loop_completes a Hrank Hmeta Htr) as Hnone.
  destruct Hmeta as [Hc _].
  rewrite generate_heatmap_fig_spec. cbn [r_outcome r_trace].
  unfold closed_form. rewrite Hnone, Hb.
  set (cs := centers_or_default a) in *.
  set (ss := fst (summaries cs (colorbars a) 0 (img_tensors a))) in *.
  assert (Hlen : length ss = length (img_tensors a))
    by (apply summaries_length; exact Hnone).
  rewrite ratios_fold, imgs_fold. cbn [ratios imgs initial_locals app].
  rewrite length_map, Hlen.
  unfold minmax_after. cbn [length Nat.eqb app].
  assert (Hcs : length (img_tensors a) <= length cs).
  { destruct (Nat.le_gt_cases (length (img_tensors a)) (length cs)) as [K | K];
      [exact K |].
    exfalso. apply (Hc (length cs) K). apply nth_error_None. apply Nat.le_refl. }
  assert (Hz : length (zip3 (map s_img ss) (map s_range ss) cs) =
               length (img_tensors a)).
  { rewrite zip3_length, !length_map, Hlen. lia. }
  destruct (length (img_tensors a) =? 0) eqn:E0.
  { apply Nat.eqb_eq in E0. lia. }
  destruct (draws_short_labels (length (img_tensors a)) (labels a)
              (colorbars a) (align_scales a)
              (g_vmax (fold_left push ss initial_locals))
              (zip3 (map s_img ss) (map s_range ss) cs) Him)
    with (idx := 0) as [Hs Ht]; try lia.
  rewrite Hs. cbn [fst snd]. split; [reflexivity |].
  rewrite Nat.sub_0_r in Ht. unfold titled in *. cbn [flat_map app].
  exact Ht.
Qed.

End Composer.

(** * Statements that compare two environments, and closed examples *)

Ltac in_trace := vm_compute; repeat (first [left; reflexivity | right]).

Lemma nan_free_panels (a : call_args) :
  Forall (fun t => nan_free (data t)) (img_tensors a) -> tracked_nan_free a.
Proof.
  intros H j t [Hn _]. rewrite Forall_forall in H.
  apply H. eapply nth_error_In; exact Hn.
Qed.

(** ** A heatmap that raises is absorbed *)

Lemma logged_app (l1 l2 : list event) :
  logged l1 = true -> logged (l1 ++ l2) = logged l2.
Proof.
  induction l1 as [| e l1 IH]; intros H; [reflexivity |].
  destruct e as [n w rs | i s | i ha [|] | s | i img b | i |];
    cbn [logged app] in *; try (now apply IH).
  destruct l1 as [| e' l1']; [discriminate |].
  destruct e'; try discriminate.
  cbn [app]. exact (IH H).
Qed.

Lemma draw_absorbs (hr : nat -> heatmap_args -> bool)
    (ir : nat -> tensor -> bool) (ncols : nat) (lbls : list string)
    (cb : option (list bool)) (align : bool) (g : fnum) (idx : nat)
    (d : tensor * range * option fnum) :
  snd (draw hr ir ncols lbls cb align g idx d) =
  snd (draw never_raises ir ncols lbls cb align g idx d) /\
  erase_failures (fst (draw hr ir ncols lbls cb align g idx d)) =
  erase_failures (fst (draw never_raises ir ncols lbls cb align g idx d)) /\
  logged (fst (draw hr ir ncols lbls cb align g idx d)) = true.
Proof.
  destruct d as [[img mm] c]. unfold draw, never_raises. cbn [fst snd].
  destruct (ncols =? 1); [now repeat split |].
  destruct (negb (idx <? ncols)); [now repeat split |].
  destruct (nth_error lbls idx) as [label |]; [| now repeat split].
  destruct (ndim img =? 2).
  - destruct cb as [l |].
    + destruct (nth_error l idx) as [b |]; cbn [fst snd]; [| now repeat split].
      destruct (hr idx _); now repeat split.
    + cbn [fst snd]. destruct (hr idx _); now repeat split.
  - destruct (ir idx img); now repeat split.
Qed.

Lemma draws_absorbs (hr : nat -> heatmap_args -> bool)
    (ir : nat -> tensor -> bool) (ncols : nat) (lbls : list string)
    (cb : option (list bool)) (align : bool) (g : fnum)
    (ds : list (tensor * range * option fnum)) :
  forall idx,
  snd (draws hr ir ncols lbls cb align g idx ds) =
  snd (draws never_raises ir ncols lbls cb align g idx ds) /\
  erase_failures (fst (draws hr ir ncols lbls cb align g idx ds)) =
  erase_failures (fst (draws never_raises ir ncols lbls cb align g idx ds)) /\
  logged (fst (draws hr ir ncols lbls cb align g idx ds)) = true.
Proof.
  induction ds as [| d rest IH]; intros idx; [now repeat split |].
  destruct (draw_absorbs hr ir ncols lbls cb align g idx d) as [D1 [D2 D3]].
  destruct (IH (S idx)) as [I1 [I2 I3]].
  cbn [draws]. rewrite <- D1.
  destruct (snd (draw hr ir ncols lbls cb align g idx d)); cbn [fst snd].
  - now repeat split.
  - split; [exact I1 |]. split.
    + unfold erase_failures in *. rewrite !flat_map_app. now rewrite D2, I2.
    + rewrite logged_app by exact D3. exact I3.
Qed.

(** C5 (amended).  A heatmap call that raises changes nothing but its own
    panel: the outcome of the call, the list bound to [minmax] and the heap
    are those of the run in which no heatmap call raises, the traces agree
    up to the raised flags and the log lines, and every raising heatmap call
    is directly followed by the log line.  (Exceptions of [imshow] are not
    covered: they are not caught.) *)
Theorem heatmap_failure_absorbed
    (trans : list nat -> list fnum -> option (list fnum))
    (hr : nat -> heatmap_args -> bool) (ir : nat -> tensor -> bool)
    (a : call_args) (mm : minmax_arg) (h : heap) :
  r_outcome (generate_heatmap_fig trans hr ir a mm h) =
  r_outcome (generate_heatmap_fig trans never_raises ir a mm h) /\
  r_minmax (generate_heatmap_fig trans hr ir a mm h) =
  r_minmax (generate_heatmap_fig trans never_raises ir a mm h) /\
  r_heap (generate_heatmap_fig trans hr ir a mm h) =
  r_heap (generate_heatmap_fig trans never_raises ir a mm h) /\
  erase_failures (r_trace (generate_heatmap_fig trans hr ir a mm h)) =
  erase_failures (r_trace (generate_heatmap_fig trans never_raises ir a mm h)) /\
  logged (r_trace (generate_heatmap_fig trans hr ir a mm h)) = true.
Proof.
  rewrite !generate_heatmap_fig_spec. cbn [r_outcome r_minmax r_heap r_trace].
  split; [| split; [reflexivity | split; [reflexivity |]]].
  - unfold closed_form.
    destruct (snd (summaries trans _ _ _ _)); [reflexivity |].
    destruct (length _ =? 0); [reflexivity |].
    match goal with
    | |- context [draws hr ir ?n ?l ?cb ?al ?g ?i ?ds] =>
        destruct (draws_absorbs hr ir n l cb al g ds i) as [E1 _]
    end.
    rewrite <- E1. destruct (snd (draws hr _ _ _ _ _ _ _ _)); reflexivity.
  - unfold closed_form.
    destruct (snd (summaries trans _ _ _ _)); [now split |].
    destruct (length _ =? 0); [now split |].
    match goal with
    | |- context [draws hr ir ?n ?l ?cb ?al ?g ?i ?ds] =>
        destruct (draws_absorbs hr ir n l cb al g ds i) as [E1 [E2 E3]]
    end.
    rewrite <- E1. destruct (snd (draws hr _ _ _ _ _ _ _ _)); cbn [fst snd].
    + split.
      * unfold erase_failures in *. cbn [flat_map]. now rewrite E2.
      * cbn [logged]. exact E3.
    + split.
      * unfold erase_failures in *. cbn [flat_map].
        rewrite !flat_map_app. now rewrite E2.
      * cbn [logged]. rewrite logged_app by exact E3. reflexivity.
Qed.

(** Three scalar panels, the heatmap of the middle one raises: the call
    returns, the two other panels are drawn, one line is logged. *)
Example middle_panel_fails :
  r_outcome (generate_heatmap_fig trans_id heatmap_fails_at_1 never_raises
               three_args (Passed []) fresh_heap) = Returned tt /\
  r_trace (generate_heatmap_fig trans_id heatmap_fails_at_1 never_raises
             three_args (Passed []) fresh_heap) =
  [EvSubplots 3 (np_sum (list_times 5 [1.25; 1.25; 1.25]%Q))
     [1.25; 1.25; 1.25]%Q;
   EvSetTitle 0 "a";
   EvHeatmap 0 (three_call (scalar_2x2 1 2 3 4) 1 4) false;
   EvSetTitle 1 "b";
   EvHeatmap 1 (three_call (scalar_2x2 5 6 7 8) 5 8) true;
   EvPrint "Could not plot, skipping";
   EvSetTitle 2 "c";
   EvHeatmap 2 (three_call (scalar_2x2 9 10 11 12) 9 12) false;
   EvTightLayout].
Proof. split; vm_compute; reflexivity. Qed.

(** C5, as stated, fails for a colour panel: an exception of [imshow] on
    panel 0 leaves the call, and panel 1 is never reached. *)
Lemma imshow_failure_propagates :
  r_outcome (generate_heatmap_fig trans_id never_raises imshow_fails_at_0
               (args_of [colour_3x2x2; scalar_2x2 1 2 3 4] None false None)
               (Passed []) fresh_heap) = Raised ImshowError /\
  titled (r_trace (generate_heatmap_fig trans_id never_raises imshow_fails_at_0
                     (args_of [colour_3x2x2; scalar_2x2 1 2 3 4] None false None)
                     (Passed []) fresh_heap)) = [0] /\
  assignments
    (r_trace (generate_heatmap_fig trans_id never_raises imshow_fails_at_0
                (args_of [colour_3x2x2; scalar_2x2 1 2 3 4] None false None)
                (Passed []) fresh_heap)) = [].
Proof. repeat split; vm_compute; reflexivity. Qed.

(** ** Inputs on which the stated range rules fail *)

(** C1, as stated, fails on an all-negative array: the range passed for
    panel 0 is (0, 0) while the array holds -3. *)
Lemma negative_data_below_vmin :
  In (EvHeatmap 0 negative_call_0 false)
     (r_trace (generate_heatmap_fig trans_id never_raises never_raises
                 (args_of negative_panels None false None)
                 (Passed []) fresh_heap)) /\
  h_center negative_call_0 = None /\
  h_vmin negative_call_0 = Some (fz 0) /\
  h_vmax negative_call_0 = Some (fz 0) /\
  In (fz (-3)) (data (h_img negative_call_0)) /\
  fleb (fz 0) (fz (-3)) = false.
Proof.
  split; [in_trace |].
  repeat split; try (vm_compute; reflexivity). in_trace.
Qed.

(** C2, as stated, fails when every entry is negative: the shared [vmax] is
    0, which is no entry of any panel and exceeds the greatest entry -1. *)
Lemma aligned_vmax_not_a_data_value :
  In (EvHeatmap 0 aligned_negative_call_0 false)
     (r_trace (generate_heatmap_fig trans_id never_raises never_raises
                 (args_of negative_panels None true None)
                 (Passed []) fresh_heap)) /\
  h_center aligned_negative_call_0 = None /\
  h_vmax aligned_negative_call_0 = Some (fz 0) /\
  In (fz (-1)) (flat_map data negative_panels) /\
  forallb (fun x => fleb x (fz (-1))) (flat_map data negative_panels) = true /\
  fltb (fz (-1)) (fz 0) = true.
Proof.
  split; [in_trace |].
  repeat split; try (vm_compute; reflexivity). in_trace.
Qed.

(** C3, as stated, fails: with two panels and a [minmax] list of one entry
    the call returns and panel 0 is drawn with that entry. *)
Lemma short_ranges_no_error :
  length positive_panels = 2 /\ length short_ranges = 1 /\
  r_outcome (generate_heatmap_fig trans_id never_raises never_raises
               (args_of positive_panels None false None)
               (Passed short_ranges) fresh_heap) = Returned tt /\
  In (EvHeatmap 0 short_ranges_call_0 false)
     (r_trace (generate_heatmap_fig trans_id never_raises never_raises
                 (args_of positive_panels None false None)
                 (Passed short_ranges) fresh_heap)).
Proof.
  repeat split; try (vm_compute; reflexivity). in_trace.
Qed.

(** C6, as stated, fails without colorbar flags: no panel requests a
    colorbar, yet both scalar panels get the ratio 1.25. *)
Lemma no_flags_wide_panels :
  colorbars (args_of positive_panels None false None) = None /\
  In (EvSubplots 2 (np_sum (list_times 5 [1.25; 1.25]%Q)) [1.25; 1.25]%Q)
     (r_trace (generate_heatmap_fig trans_id never_raises never_raises
                 (args_of positive_panels None false None)
                 (Passed []) fresh_heap)) /\
  spec_ratio (args_of positive_panels None false None) 0 (scalar_2x2 1 2 3 4) =
  1%Q /\
  spec_ratio (args_of positive_panels None false None) 1 (scalar_2x2 5 6 7 8) =
  1%Q.
Proof.
  repeat split; try (vm_compute; reflexivity). in_trace.
Qed.

(** ** The default list of the signature *)

(** C9.  Two calls that both leave [minmax] out: the first fills the default
    list, the second finds it non-empty, computes no ranges and draws the
    new panels (entries 10..80) with the ranges of the old ones (1..8).  On
    a fresh default the same second call uses (10, 40) and (50, 80). *)
Theorem default_ranges_leak :
  default_minmax
    (r_heap (generate_heatmap_fig trans_id never_raises never_raises
               (args_of positive_panels None false None) Omitted fresh_heap)) =
  [(fz 1, fz 4); (fz 5, fz 8)] /\
  assignments
    (r_trace (generate_heatmap_fig trans_id never_raises never_raises
                (args_of other_panels None false None) Omitted
                (r_heap (generate_heatmap_fig trans_id never_raises never_raises
                           (args_of positive_panels None false None) Omitted
                           fresh_heap)))) =
  [(0, Some (fz 1), Some (fz 4)); (1, Some (fz 5), Some (fz 8))] /\
  assignments
    (r_trace (generate_heatmap_fig trans_id never_raises never_raises
                (args_of other_panels None false None) Omitted fresh_heap)) =
  [(0, Some (fz 10), Some (fz 40)); (1, Some (fz 50), Some (fz 80))].
Proof. repeat split; vm_compute; reflexivity. Qed.

(** * Instances of the conditional statements *)

Lemma two_panels_nan_free (e0 e1 e2 e3 f0 f1 f2 f3 : Z)
    (cs : option (list (option fnum))) (al : bool) (cb : option (list bool)) :
  tracked_nan_free
    (args_of [scalar_2x2 e0 e1 e2 e3; scalar_2x2 f0 f1 f2 f3] cs al cb).
Proof. apply nan_free_panels. repeat constructor. Qed.

Lemma two_scalars_well_formed (e0 e1 e2 e3 f0 f1 f2 f3 : Z) (al : bool) :
  well_formed_call trans_id
    (args_of [scalar_2x2 e0 e1 e2 e3; scalar_2x2 f0 f1 f2 f3] None al None).
Proof.
  unfold well_formed_call, metadata_covers, trans_succeeds. cbn.
  repeat split.
  - lia.
  - intros [| [| [| idx]]] t H; cbn in H; try discriminate;
      injection H as <-; now left.
  - lia.
  - intros [| [| idx]] H; cbn; try discriminate. lia.
  - discriminate.
  - discriminate.
Qed.

Lemma computed_range_covers_clipped_data_witness :
  exists t lo hi,
    nth_error negative_panels 0 = Some t /\
    h_img negative_call_0 = squeeze t /\
    h_vmin negative_call_0 = Some lo /\ h_vmax negative_call_0 = Some hi /\
    fle fzero lo /\
    (false = false ->
     exists m M, np_min (np_append (data t) PosInf) = Some m /\
                 np_max (np_append (data t) NegInf) = Some M /\
                 lo = np_clip_lo m fzero /\ hi = np_clip_lo M fzero) /\
    forall x, In x (data t) ->
      fle x hi /\ fle lo (np_clip_lo x fzero) /\
      fle (np_clip_lo x fzero) hi /\ (fle fzero x -> fle lo x).
Proof.
  apply (computed_range_covers_clipped_data trans_id never_raises never_raises
           (args_of negative_panels None false None) (Passed []) fresh_heap
           0 negative_call_0 false).
  - reflexivity.
  - apply two_panels_nan_free.
  - in_trace.
  - reflexivity.
Defined.

Lemma aligned_scale_witness :
  h_vmin aligned_positive_call_0 = Some fzero /\
  exists g, h_vmax aligned_positive_call_0 = Some g /\ fle fzero g /\
    (forall j t x,
       tracked_panel (args_of positive_panels None true None) j t ->
       In x (data t) -> fle x g) /\
    (g = fzero \/
     exists j t, tracked_panel (args_of positive_panels None true None) j t /\
                 In g (data t)).
Proof.
  apply (aligned_scale trans_id never_raises never_raises
           (args_of positive_panels None true None) (Passed []) fresh_heap
           0 aligned_positive_call_0 false).
  - reflexivity.
  - apply two_panels_nan_free.
  - in_trace.
  - reflexivity.
Defined.

Lemma mismatched_ranges_accepted_witness :
  r_outcome (generate_heatmap_fig trans_id never_raises never_raises
               (args_of positive_panels None false None)
               (Passed short_ranges) fresh_heap) = Returned tt /\
  r_minmax (generate_heatmap_fig trans_id never_raises never_raises
              (args_of positive_panels None false None)
              (Passed short_ranges) fresh_heap) = short_ranges /\
  titled (r_trace (generate_heatmap_fig trans_id never_raises never_raises
                     (args_of positive_panels None false None)
                     (Passed short_ranges) fresh_heap)) =
  seq 0 (Nat.min 2 1).
Proof.
  apply (mismatched_ranges_accepted trans_id never_raises never_raises
           (args_of positive_panels None false None) short_ranges fresh_heap).
  - discriminate.
  - apply two_scalars_well_formed.
  - reflexivity.
Defined.

Lemma width_ratio_rule_witness :
  2 = length (img_tensors flagged_args) /\
  length [1; 1.25]%Q = 2 /\
  np_sum (list_times 5 [1; 1.25]%Q) = np_sum (list_times 5 [1; 1.25]%Q) /\
  forall idx t, nth_error (img_tensors flagged_args) idx = Some t ->
    exists q, nth_error [1; 1.25]%Q idx = Some q /\
      (ndim (squeeze t) = 3 -> q = 1%Q) /\
      (ndim (squeeze t) = 2 -> show_colorbar flagged_args idx = Some false ->
       q = 1%Q) /\
      (ndim (squeeze t) = 2 -> show_colorbar flagged_args idx <> Some false ->
       q = 1.25%Q).
Proof.
  apply (width_ratio_rule trans_id never_raises never_raises flagged_args
           (Passed []) fresh_heap).
  in_trace.
Defined.

Lemma centered_panel_scale_witness :
  h_center (centred_call_0 true) = Some (fz 0) /\
  h_vmin (centred_call_0 true) = None /\
  h_vmax (centred_call_0 true) = None /\
  h_cmap (centred_call_0 true) = Coolwarm.
Proof.
  apply (centered_panel_scale trans_id never_raises never_raises
           (args_of centred_panels centred_centers true None) (Passed [])
           fresh_heap 0 (centred_call_0 true) false (fz 0)).
  - reflexivity.
  - in_trace.
Defined.

Lemma bad_rank_raises_witness :
  r_trace (generate_heatmap_fig trans_id never_raises never_raises
             bad_rank_args (Passed []) fresh_heap) = [] /\
  r_outcome (generate_heatmap_fig trans_id never_raises never_raises
               bad_rank_args (Passed []) fresh_heap) =
  Raised (Exception rank_message).
Proof.
  destruct (bad_rank_raises trans_id never_raises never_raises bad_rank_args
              (Passed []) fresh_heap 1 rank4) as [Htr [_ Hexn]].
  - reflexivity.
  - vm_compute. discriminate.
  - vm_compute. discriminate.
  - split; [exact Htr |]. apply Hexn.
    + split.
      * intros [| [| idx]] H; cbn; try discriminate. cbn in H. lia.
      * discriminate.
    + intros idx t _ _. discriminate.
Defined.

Lemma recorded_ranges_witness :
  exists t,
    nth_error centred_panels 1 = Some t /\
    (ndim (squeeze t) = 2 \/ ndim (squeeze t) = 3) /\
    (ndim (squeeze t) = 3 -> (fz 1, fz 4) = (PosInf, NegInf)) /\
    (forall c, ndim (squeeze t) = 2 ->
       nth_error [Some (fz 0); None] 1 = Some (Some c) ->
       (fz 1, fz 4) = (PosInf, NegInf)) /\
    (ndim (squeeze t) = 2 ->
     nth_error [Some (fz 0); None] 1 = Some None ->
     np_min (np_append (data t) PosInf) = Some (fz 1) /\
     np_max (np_append (data t) NegInf) = Some (fz 4) /\
     (data t <> [] -> Forall (fun x => is_finite x = true) (data t) ->
      is_finite (fz 1) = true /\ is_finite (fz 4) = true /\
      In (fz 1) (data t) /\ In (fz 4) (data t) /\
      forall x, In x (data t) -> fle (fz 1) x /\ fle x (fz 4))).
Proof.
  apply (recorded_ranges trans_id never_raises never_raises
           (args_of centred_panels centred_centers false None) (Passed [])
           fresh_heap 1 (fz 1, fz 4)).
  - reflexivity.
  - vm_compute. reflexivity.
Defined.

(** * The circular mask *)

Lemma mask_at_inside (h w : nat) (center : option (Z * Z)) (radius : option Z)
    (y x : nat) :
  y < h -> x < w ->
  mask_at (create_circular_mask h w center radius) y x =
  Some (negb (dist_le (Z.of_nat x - fst (mask_center h w center))
                      (Z.of_nat y - snd (mask_center h w center))
                      (mask_radius h w (mask_center h w center) radius))).
Proof.
  intros Hy Hx. unfold mask_at, create_circular_mask.
  rewrite nth_error_map, nth_error_seq.
  assert (Ey : (y <? h) = true) by now apply Nat.ltb_lt.
  rewrite Ey. cbn [option_map Nat.add].
  rewrite nth_error_map, nth_error_seq.
  assert (Ex : (x <? w) = true) by now apply Nat.ltb_lt.
  rewrite Ex. reflexivity.
Qed.

Lemma mask_at_defined (h w : nat) (center : option (Z * Z))
    (radius : option Z) (y x : nat) (b : bool) :
  mask_at (create_circular_mask h w center radius) y x = Some b ->
  y < h /\ x < w.
Proof.
  unfold mask_at, create_circular_mask.
  rewrite nth_error_map, nth_error_seq.
  destruct (y <? h) eqn:Ey; [| discriminate].
  cbn [option_map]. rewrite nth_error_map, nth_error_seq.
  destruct (x <? w) eqn:Ex; [| discriminate].
  intros _. split; now apply Nat.ltb_lt.
Qed.

(** With the default centre and radius the centre pixel of a non-empty image
    is left unmasked. *)
Theorem default_mask_keeps_center (h w : nat) :
  1 <= h -> 1 <= w ->
  mask_at (create_circular_mask h w None None) (h / 2) (w / 2) = Some false.
Proof.
  intros Hh Hw.
  assert (Hy : h / 2 < h) by (apply Nat.div_lt; lia).
  assert (Hx : w / 2 < w) by (apply Nat.div_lt; lia).
  rewrite mask_at_inside by assumption.
  unfold mask_center, mask_radius, dist_le. cbn [fst snd].
  rewrite !Z.quot_div_nonneg by lia.
  rewrite !Nat2Z.inj_div. change (Z.of_nat 2) with 2%Z.
  rewrite !Z.sub_diag.
  pose proof (Z.div_pos (Z.of_nat h) 2) as Py.
  pose proof (Z.div_pos (Z.of_nat w) 2) as Px.
  pose proof (Z.mul_div_le (Z.of_nat h) 2) as Ly.
  pose proof (Z.mul_div_le (Z.of_nat w) 2) as Lx.
  set (cy := (Z.of_nat h / 2)%Z) in *. set (cx := (Z.of_nat w / 2)%Z) in *.
  assert (Hr : (0 <= Z.min (Z.min (Z.min cx cy) (Z.of_nat w - cx))
                        (Z.of_nat h - cy))%Z) by lia.
  apply Z.leb_le in Hr. rewrite Hr. cbn [andb negb].
  f_equal. apply negb_false_iff. apply Z.leb_le. cbn. nia.
Qed.



(** When the centre given by the caller lies outside the frame and the
    radius is left to the default, the radius is negative and every pixel is
    masked. *)
Theorem center_outside_masks_all (h w : nat) (cx cy : Z) (y x : nat) :
  (cx < 0 \/ cy < 0 \/ Z.of_nat w < cx \/ Z.of_nat h < cy)%Z ->
  y < h -> x < w ->
  mask_at (create_circular_mask h w (Some (cx, cy)) None) y x = Some true.
Proof.
  intros Hout Hy Hx. rewrite mask_at_inside by assumption.
  unfold mask_center, mask_radius, dist_le. cbn [fst snd].
  assert (Hr : (0 <=? Z.min (Z.min (Z.min cx cy) (Z.of_nat w - cx))
                        (Z.of_nat h - cy))%Z = false)
    by (apply Z.leb_gt; lia).
  rewrite Hr. reflexivity.
Qed.

(** Growing the radius only unmasks pixels. *)
Theorem mask_shrinks_with_radius (h w : nat) (center : option (Z * Z))
    (r1 r2 : Z) (y x : nat) :
  (r1 <= r2)%Z ->
  mask_at (create_circular_mask h w center (Some r2)) y x = Some true ->
  mask_at (create_circular_mask h w center (Some r1)) y x = Some true.
Proof.
  intros Hr H. destruct (mask_at_defined _ _ _ _ _ _ _ H) as [Hy Hx].
  rewrite mask_at_inside in * by assumption.
  injection H as H. f_equal. apply negb_true_iff in H. apply negb_true_iff.
  unfold mask_radius, dist_le in *.
  set (dx := (Z.of_nat x - fst (mask_center h w center))%Z) in *.
  set (dy := (Z.of_nat y - snd (mask_center h w center))%Z) in *.
  apply andb_false_iff in H. apply andb_false_iff.
  destruct (Z.leb_spec 0 r1) as [H1 | H1]; [| now left].
  right. apply Z.leb_gt.
  destruct H as [H | H]; [apply Z.leb_gt in H; lia |].
  apply Z.leb_gt in H. nia.
Qed.

(** The mask is symmetric under the point reflection through the centre. *)
Theorem mask_point_symmetric (h w : nat) (center : option (Z * Z))
    (radius : option Z) (y x y' x' : nat) :
  y < h -> x < w -> y' < h -> x' < w ->
  (Z.of_nat x + Z.of_nat x' = 2 * fst (mask_center h w center))%Z ->
  (Z.of_nat y + Z.of_nat y' = 2 * snd (mask_center h w center))%Z ->
  mask_at (create_circular_mask h w center radius) y x =
  mask_at (create_circular_mask h w center radius) y' x'.
Proof.
  intros Hy Hx Hy' Hx' Ex Ey.
  rewrite !mask_at_inside by assumption.
  do 2 f_equal. unfold dist_le. f_equal. f_equal.
  set (cx := fst (mask_center h w center)) in *.
  set (cy := snd (mask_center h w center)) in *.
  replace (Z.of_nat x' - cx)%Z with (- (Z.of_nat x - cx))%Z by lia.
  replace (Z.of_nat y' - cy)%Z with (- (Z.of_nat y - cy))%Z by lia.
  rewrite !Z.mul_opp_opp. reflexivity.
Qed.

(** * The interpolation grid *)

Lemma combine_const_row (i : nat) (xs : list nat) :
  combine (map (fun _ => i) xs) xs = map (fun j => (i, j)) xs.
Proof. induction xs as [| j xs IH]; cbn; [reflexivity | now rewrite IH]. Qed.

Lemma combine_append {A B : Type} (l1 l2 : list A) (k1 k2 : list B) :
  length l1 = length k1 ->
  combine (l1 ++ l2) (k1 ++ k2) = combine l1 k1 ++ combine l2 k2.
Proof.
  revert k1. induction l1 as [| a l1 IH]; intros [| b k1] H; cbn in *;
    try discriminate; [reflexivity |].
  rewrite IH by lia. reflexivity.
Qed.

(** The query points handed to the interpolant are the pairs (i, j) of the
    m-by-n grid in row-major order. *)
Lemma grid_row_major (xs ys : list nat) :
  vstack_T (flatten2 (snd (np_meshgrid xs ys)))
           (flatten2 (fst (np_meshgrid xs ys))) =
  flat_map (fun i => map (fun j => (i, j)) xs) ys.
Proof.
  unfold vstack_T, flatten2, np_meshgrid. cbn [fst snd].
  induction ys as [| i ys IH]; [reflexivity |].
  cbn [map List.concat flat_map].
  rewrite combine_append by now rewrite length_map.
  now rewrite combine_const_row, IH.
Qed.

Lemma grid_nth (n m : nat) :
  forall s i j, s <= i < s + m -> j < n ->
  nth_error (flat_map (fun i => map (fun j => (i, j)) (seq 0 n)) (seq s m))
            ((i - s) * n + j) = Some (i, j).
Proof.
  induction m as [| m IH]; intros s i j Hi Hj; [lia |].
  cbn [seq flat_map].
  destruct (Nat.eq_dec i s) as [-> | Hne].
  - rewrite Nat.sub_diag. cbn [Nat.mul Nat.add].
    rewrite nth_error_app1 by now rewrite length_map, length_seq.
    rewrite nth_error_map, nth_error_seq.
    assert (E : (j <? n) = true) by now apply Nat.ltb_lt.
    now rewrite E.
  - rewrite nth_error_app2 by (rewrite length_map, length_seq; nia).
    rewrite length_map, length_seq.
    replace ((i - s) * n + j - n) with ((i - S s) * n + j) by nia.
    apply IH; lia.
Qed.

Lemma grid_length (n m s : nat) :
  length (flat_map (fun i => map (fun j => (i, j)) (seq 0 n)) (seq s m)) = m * n.
Proof.
  revert s. induction m as [| m IH]; intros s; [reflexivity |].
  cbn [seq flat_map]. rewrite length_app, length_map, length_seq, IH.
  reflexivity.
Qed.

(** [lin_interp] returns a dense array exactly when the requested shape
    (k, m, n) has as many entries as the m-by-n grid; the array then holds,
    at row i and column j, the interpolant built on the (y, x) columns of
    [xyd] and evaluated at (i, j). *)
Theorem lin_interp_dense
    (interpolator : list (fnum * fnum) -> list fnum ->
                    option (nat * nat -> fnum))
    (k m n : nat) (xyd : list (fnum * fnum * fnum)) (f : nat * nat -> fnum) :
  interpolator (map (fun row => (snd (fst row), fst (fst row))) xyd)
               (map snd xyd) = Some f ->
  k * (m * n) = m * n ->
  exists t,
    lin_interp interpolator (k, m, n) xyd = Dense t /\
    shape t = [k; m; n] /\ length (data t) = m * n /\
    forall i j, i < m -> j < n -> nth_error (data t) (i * n + j) = Some (f (i, j)).
Proof.
  intros Hf Hk. unfold lin_interp. rewrite Hf.
  pose proof (grid_row_major (np_arange n) (np_arange m)) as Hg.
  destruct (np_meshgrid (np_arange n) (np_arange m)) as [gj gi].
  cbn [fst snd] in Hg. rewrite Hg. unfold np_arange, np_reshape.
  rewrite length_map, grid_length.
  assert (E : (fold_right Nat.mul 1 [k; m; n] =? m * n) = true).
  { apply Nat.eqb_eq. cbn. lia. }
  rewrite E. eexists. split; [reflexivity |]. cbn [shape data].
  split; [reflexivity |]. split; [now rewrite length_map, grid_length |].
  intros i j Hi Hj. rewrite nth_error_map.
  pose proof (grid_nth n m 0 i j) as Hn. rewrite Nat.sub_0_r in Hn.
  rewrite Hn by lia. reflexivity.
Qed.

(** A shape with two or more planes over a non-empty grid cannot be filled:
    the final [reshape] raises. *)
Theorem lin_interp_reshape_error
    (interpolator : list (fnum * fnum) -> list fnum ->
                    option (nat * nat -> fnum))
    (k m n : nat) (xyd : list (fnum * fnum * fnum)) (f : nat * nat -> fnum) :
  interpolator (map (fun row => (snd (fst row), fst (fst row))) xyd)
               (map snd xyd) = Some f ->
  k * (m * n) <> m * n ->
  lin_interp interpolator (k, m, n) xyd = ReshapeError.
Proof.
  intros Hf Hk. unfold lin_interp. rewrite Hf.
  pose proof (grid_row_major (np_arange n) (np_arange m)) as Hg.
  destruct (np_meshgrid (np_arange n) (np_arange m)) as [gj gi].
  cbn [fst snd] in Hg. rewrite Hg. unfold np_arange, np_reshape.
  rewrite length_map, grid_length.
  assert (E : (fold_right Nat.mul 1 [k; m; n] =? m * n) = false).
  { apply Nat.eqb_neq. cbn. lia. }
  rewrite E. reflexivity.
Qed.

(** * File names of [generate_final_imgs] *)

Lemma append_cancel_l (p s1 s2 : string) :
  (p ++ s1 = p ++ s2)%string -> s1 = s2.
Proof.
  induction p as [| c p IH]; cbn; intros H; [exact H |].
  injection H as H. now apply IH.
Qed.

Lemma string_length_app (s t : string) :
  String.length (s ++ t) = String.length s + String.length t.
Proof. induction s as [| c s IH]; cbn; [reflexivity | now rewrite IH]. Qed.

Lemma append_cancel_r (s1 s2 t : string) :
  (s1 ++ t = s2 ++ t)%string -> s1 = s2.
Proof.
  revert s2. induction s1 as [| c s1 IH]; intros [| c2 s2] H; cbn in H.
  - reflexivity.
  - apply (f_equal String.length) in H. cbn in H.
    rewrite string_length_app in H. lia.
  - apply (f_equal String.length) in H. cbn in H.
    rewrite string_length_app in H. lia.
  - injection H as -> H. f_equal. now apply IH.
Qed.

Lemma py_str_inj (i j : nat) : py_str i = py_str j -> i = j.
Proof.
  unfold py_str. intros H. apply DecimalNat.Unsigned.to_uint_inj.
  apply (f_equal DecimalString.NilEmpty.uint_of_string) in H.
  rewrite !DecimalString.NilEmpty.usu in H. now injection H.
Qed.

Lemma py_str_first_char (i : nat) :
  match py_str i with
  | EmptyString => True
  | String c _ => c <> "f"%char
  end.
Proof.
  unfold py_str. destruct (Nat.to_uint i); cbn; try exact I; discriminate.
Qed.

(** The files of two different panels never coincide, and no panel file is
    the composite file [full.png]. *)
Theorem panel_files_distinct (figname : string) (i j : nat) :
  (panel_path figname i = panel_path figname j -> i = j) /\
  panel_path figname i <> full_path figname.
Proof.
  unfold panel_path, full_path. split.
  - intros H. repeat apply append_cancel_l in H.
    apply append_cancel_r in H. now apply py_str_inj.
  - intros H. repeat apply append_cancel_l in H.
    pose proof (py_str_first_char i) as Hc.
    destruct (py_str i) as [| c s]; cbn in H; [discriminate |].
    injection H as -> _. now apply Hc.
Qed.

(** * Instances of the further statements *)

Lemma default_mask_keeps_center_witness :
  mask_at (create_circular_mask 4 6 None None) (4 / 2) (6 / 2) = Some false.
Proof. apply (default_mask_keeps_center 4 6); lia. Defined.


Lemma center_outside_masks_all_witness :
  mask_at (create_circular_mask 3 3 (Some (5, 1)%Z) None) 1 2 = Some true.
Proof.
  apply (center_outside_masks_all 3 3 5 1 1 2); [right; right; left | |]; lia.
Defined.

Lemma mask_shrinks_with_radius_witness :
  mask_at (create_circular_mask 5 5 None (Some 1%Z)) 0 2 = Some true.
Proof.
  apply (mask_shrinks_with_radius 5 5 None 1 1 0 2); [lia | reflexivity].
Defined.

Lemma mask_point_symmetric_witness :
  mask_at (create_circular_mask 5 5 None None) 0 1 =
  mask_at (create_circular_mask 5 5 None None) 4 3.
Proof.
  apply (mask_point_symmetric 5 5 None None 0 1 4 3); try lia; reflexivity.
Defined.

Lemma lin_interp_dense_witness :
  exists t,
    lin_interp grid_interpolator (1, 2, 3) [] = Dense t /\
    shape t = [1; 2; 3] /\ length (data t) = 2 * 3 /\
    forall i j, i < 2 -> j < 3 ->
      nth_error (data t) (i * 3 + j) = Some (fz (Z.of_nat (10 * i + j))).
Proof.
  apply (lin_interp_dense grid_interpolator 1 2 3 []
           (fun p => fz (Z.of_nat (10 * fst p + snd p)))); reflexivity.
Defined.

Lemma lin_interp_reshape_error_witness :
  lin_interp grid_interpolator (2, 2, 3) [] = ReshapeError.
Proof.
  apply (lin_interp_reshape_error grid_interpolator 2 2 3 []
           (fun p => fz (Z.of_nat (10 * fst p + snd p))));
    [reflexivity | cbn; lia].
Defined.

Lemma explicit_ranges_clipped_witness :
  exists lo hi,
    nth_error short_ranges 0 = Some (lo, hi) /\
    h_vmin short_ranges_call_0 = Some (np_clip_lo lo fzero) /\
    h_vmax short_ranges_call_0 = Some (np_clip_lo hi fzero).
Proof.
  apply (explicit_ranges_clipped trans_id never_raises never_raises
           (args_of positive_panels None false None) short_ranges fresh_heap
           0 short_ranges_call_0 false).
  - discriminate.
  - reflexivity.
  - in_trace.
  - reflexivity.
Defined.

Lemma passed_ranges_untouched_witness :
  r_minmax (generate_heatmap_fig trans_id never_raises never_raises
              bad_rank_args (Passed short_ranges) fresh_heap) = short_ranges /\
  r_heap (generate_heatmap_fig trans_id never_raises never_raises
            bad_rank_args (Passed short_ranges) fresh_heap) = fresh_heap.
Proof.
  apply (passed_ranges_untouched trans_id never_raises never_raises
           bad_rank_args short_ranges fresh_heap).
  discriminate.
Defined.

Lemma default_list_frozen_witness :
  heap_after trans_id never_raises never_raises
    [args_of positive_panels None false None;
     args_of other_panels None false None] filled_heap = filled_heap.
Proof.
  apply (default_list_frozen trans_id never_raises never_raises
           [args_of positive_panels None false None;
            args_of other_panels None false None] filled_heap).
  discriminate.
Defined.

Lemma returning_call_fills_default_witness :
  length (default_minmax
            (r_heap (generate_heatmap_fig trans_id never_raises never_raises
                       (args_of positive_panels None false None) Omitted
                       fresh_heap))) =
  length (img_tensors (args_of positive_panels None false None)) /\
  default_minmax
    (r_heap (generate_heatmap_fig trans_id never_raises never_raises
               (args_of positive_panels None false None) Omitted fresh_heap))
  <> [].
Proof.
  apply (returning_call_fills_default trans_id never_raises never_raises
           (args_of positive_panels None false None) fresh_heap).
  - reflexivity.
  - vm_compute. reflexivity.
Defined.

Lemma figure_width_witness :
  (np_sum (list_times 5 [1; 1.25]%Q) == 5 * np_sum [1; 1.25]%Q)%Q.
Proof.
  apply (figure_width trans_id never_raises never_raises flagged_args
           (Passed []) fresh_heap 2 (np_sum (list_times 5 [1; 1.25]%Q))
           [1; 1.25]%Q).
  in_trace.
Defined.

Lemma single_panel_raises_witness :
  r_outcome (generate_heatmap_fig trans_id never_raises never_raises
               single_args (Passed []) fresh_heap) = Raised TypeError /\
  exists w rs,
    r_trace (generate_heatmap_fig trans_id never_raises never_raises
               single_args (Passed []) fresh_heap) = [EvSubplots 1 w rs].
Proof.
  apply (single_panel_raises trans_id never_raises never_raises single_args
           (Passed []) fresh_heap (scalar_2x2 1 2 3 4)).
  - reflexivity.
  - now left.
  - split.
    + intros [| idx] H; cbn; [discriminate | cbn in H; lia].
    + discriminate.
  - intros idx t _ _. discriminate.
Defined.

Lemma drawing_calls_match_rank_witness :
  exists t, nth_error negative_panels 0 = Some t /\
            ndim (squeeze t) = 2 /\ h_img negative_call_0 = squeeze t.
Proof.
  apply (proj1 (drawing_calls_match_rank trans_id never_raises never_raises
                  (args_of negative_panels None false None) (Passed [])
                  fresh_heap 0) negative_call_0 false).
  in_trace.
Defined.

Lemma final_no_flags_no_heatmap_witness :
  is_heatmap_call (CPrint "Could not plot, skipping") = false.
Proof.
  apply (final_no_flags_no_heatmap trans_id never_fails
           (args_of positive_panels None false None) true "run"%string
           (Passed []) empty_final_heap (CPrint "Could not plot, skipping")).
  - reflexivity.
  - in_trace.
Defined.

Lemma final_no_export_witness :
  is_export_call (CSetTitle 0 "left") = false.
Proof.
  apply (final_no_export trans_id never_fails flagged_args (Passed [])
           empty_final_heap (CSetTitle 0 "left")).
  in_trace.
Defined.


Lemma flagged_args_well_formed : well_formed_call trans_id flagged_args.
Proof.
  unfold well_formed_call, metadata_covers, trans_succeeds. cbn.
  repeat split.
  - lia.
  - intros [| [| [| idx]]] t H; cbn in H; try discriminate;
      injection H as <-; now left.
  - lia.
  - intros [| [| idx]] H; cbn; try discriminate. lia.
  - intros l H. injection H as <-. cbn. lia.
  - discriminate.
Qed.

Lemma final_saves_every_panel_witness :
  fr_outcome (generate_final_imgs trans_id never_fails flagged_args true
                "run"%string (Passed []) empty_final_heap) = FRet tt /\
  saved (fr_trace (generate_final_imgs trans_id never_fails flagged_args true
                     "run"%string (Passed []) empty_final_heap)) =
  map (panel_path "run") (seq 0 (length (img_tensors flagged_args))) ++
  (if truthy "run" then [full_path "run"] else []).
Proof.
  apply (final_saves_every_panel trans_id never_fails flagged_args
           "run"%string (Passed []) empty_final_heap [false; true]).
  - apply flagged_args_well_formed.
  - reflexivity.
  - reflexivity.
  - reflexivity.
Defined.

Lemma missing_label_raises_witness :
  r_outcome (generate_heatmap_fig trans_id never_raises never_raises
               three_label_short_args (Passed []) fresh_heap) =
  Raised IndexError /\
  titled (r_trace (generate_heatmap_fig trans_id never_raises never_raises
                     three_label_short_args (Passed []) fresh_heap)) =
  seq 0 (length (labels three_label_short_args)).
Proof.
  apply (missing_label_raises trans_id never_raises never_raises
           three_label_short_args (Passed []) fresh_heap).
  - cbn. lia.
  - intros [| [| [| [| idx]]]] t H; cbn in H; try discriminate;
      injection H as <-; now left.
  - split.
    + intros [| [| [| idx]]] H; cbn; try discriminate. cbn in H. lia.
    + discriminate.
  - intros idx t _ _. discriminate.
  - reflexivity.
  - reflexivity.
  - cbn. lia.
Defined.
